(** * Halloween Radio to Spotify: the ingestion, matching and ledger pipeline

    A shallow embedding of the parts of [RadioMonitor], [SpotifyService] and
    [DatabaseService] that parse stream titles, detect track changes, score
    catalog candidates, keep the SQLite ledger, the table of playlists and
    the daily statistics, and load, rebuild and clean the playlists, followed
    by the properties of that code.

    Conventions of the embedding:
    - a JavaScript string is the list of its UTF-16 code units ([list N]);
    - a JavaScript number that holds a similarity is the IEEE 754 binary64
      value, as the Standard Library's [spec_float] specifies it, with the
      operations rounded to nearest, ties to even;
    - the average of the daily statistics is the rational it denotes ([Q]),
      its arithmetic taken without rounding;
    - the SQLite tables are lists of rows in insertion order, each table
      with its AUTOINCREMENT counter;
    - [new Date()] is a clock reading [now] handed to each operation. *)

From Stdlib Require Import ZArith NArith QArith Qround Lia String Ascii
  Sorted SpecFloat.
From stdpp Require Import base option list gmap.

Local Open Scope N_scope.

(** ** JavaScript strings *)

Abbreviation jsstring := (list N).

(** An ASCII literal as a JavaScript string. *)
Definition lit (s : string) : jsstring :=
  map N_of_ascii (list_ascii_of_string s).

(** The code units that [String.prototype.trim] removes and that the regular
    expression class [\s] matches: WhiteSpace and LineTerminator. *)
Definition isWhiteSpace (c : N) : bool :=
  ((9 <=? c) && (c <=? 13)) || (c =? 32) || (c =? 160) || (c =? 5760)
  || ((8192 <=? c) && (c <=? 8202)) || (c =? 8232) || (c =? 8233)
  || (c =? 8239) || (c =? 8287) || (c =? 12288) || (c =? 65279).

(** The regular expression class [\w]: ASCII letters, digits and underscore. *)
Definition isWordChar (c : N) : bool :=
  ((48 <=? c) && (c <=? 57)) || ((65 <=? c) && (c <=? 90))
  || (c =? 95) || ((97 <=? c) && (c <=? 122)).

Fixpoint trimStart (s : jsstring) : jsstring :=
  match s with
  | c :: s' => if isWhiteSpace c then trimStart s' else s
  | [] => []
  end.

Definition trimEnd (s : jsstring) : jsstring := rev (trimStart (rev s)).

Definition trim (s : jsstring) : jsstring := trimEnd (trimStart s).

(** [startsWith p s]: [p] is a prefix of [s]. *)
Fixpoint startsWith (p s : jsstring) : bool :=
  match p, s with
  | [], _ => true
  | _ :: _, [] => false
  | a :: p', b :: s' => (a =? b) && startsWith p' s'
  end.

(** [s.includes(p)] *)
Fixpoint includes (s p : jsstring) : bool :=
  startsWith p s
  || match s with
     | [] => false
     | _ :: s' => includes s' p
     end.

(** [s.split(sep)] scans left to right; [skip] counts the code units of a
    separator occurrence that are still to be passed over, [cur] is the part
    being collected, reversed. *)
Fixpoint split_go (sep : jsstring) (skip : nat) (cur s : jsstring)
  : list jsstring :=
  match s with
  | [] => [rev cur]
  | c :: s' =>
      match skip with
      | S k => split_go sep k cur s'
      | O =>
          if startsWith sep s
          then rev cur :: split_go sep (length sep - 1) [] s'
          else split_go sep 0 (c :: cur) s'
      end
  end.

Definition split (s sep : jsstring) : list jsstring :=
  match sep with
  | [] => map (fun c => [c]) s
  | _ :: _ => split_go sep 0 [] s
  end.

(** [parts.join(sep)] *)
Fixpoint join (sep : jsstring) (parts : list jsstring) : jsstring :=
  match parts with
  | [] => []
  | [p] => p
  | p :: rest => p ++ sep ++ join sep rest
  end.

(** [String.prototype.toLowerCase], exact on every code unit whose lower-case
    form contains an ASCII code unit: the ASCII capitals, U+0130 (which
    becomes i followed by U+0307) and U+212A (the Kelvin sign, which becomes
    k).  Every other code unit is kept: its lower-case form is again outside
    ASCII and is no white space, which is all that the code below can
    observe of it (the [\w\s] filter deletes it, the keyword filter
    searches for ASCII keywords, and the playlists are looked up by the
    lower-cased names of the configured stations, which are ASCII). *)
Definition lowerUnit (c : N) : jsstring :=
  if (65 <=? c) && (c <=? 90) then [c + 32]
  else if c =? 304 then [105; 775]
  else if c =? 8490 then [107]
  else [c].

Definition toLowerCase (s : jsstring) : jsstring := flat_map lowerUnit s.

(** [String.prototype.toUpperCase] on one code unit, exact on ASCII, which
    covers the configured station names. *)
Definition upperUnit (c : N) : N :=
  if (97 <=? c) && (c <=? 122) then c - 32 else c.

(** ** JavaScript numbers

    A number is an IEEE 754 binary64 value: a signed zero, a signed
    infinity, NaN, or a finite value with its sign, mantissa and exponent.
    Arithmetic is that of [SpecFloat] at precision 53 and maximal exponent
    1024: the exact result rounded to the nearest number, ties to even. *)

Abbreviation number := spec_float.

Definition ofZ (z : Z) : number := binary_normalize 53 1024 z 0 false.

Definition jsMul (a b : number) : number := SFmul 53 1024 a b.
Definition jsAdd (a b : number) : number := SFadd 53 1024 a b.
Definition jsDiv (a b : number) : number := SFdiv 53 1024 a b.

(** The decimal literal of value [n / d]: the number nearest to it. *)
Definition decimal (n d : Z) : number := jsDiv (ofZ n) (ofZ d).

(** [a > b] and [a >= b]; both are false when [a] or [b] is NaN. *)
Definition jsGt (a b : number) : bool := SFltb b a.
Definition jsGe (a b : number) : bool := SFleb b a.

(** [Math.max(a, b)]: NaN if one of the two is, and +0 above -0. *)
Definition mathMax (a b : number) : number :=
  match a, b with
  | S754_nan, _ | _, S754_nan => S754_nan
  | S754_zero sa, S754_zero sb => S754_zero (sa && sb)
  | _, _ => if SFltb a b then b else a
  end.

(** The value of a finite number. *)
Definition valueOf (x : number) : Q :=
  match x with
  | S754_finite s m e => inject_Z (cond_Zopp s (Zpos m)) * (2 ^ e)
  | _ => 0
  end.

(** [Math.round(x)] as an integer: the integer nearest to the value,
    halves upwards.  NaN and the infinities, which [Math.round] returns as
    they are, have no integer and are taken to 0; the percentages are
    rounded from a similarity between 0 and 1 times 100, which is finite. *)
Definition mathRound (x : number) : Z := Qfloor (valueOf x + (1 # 2)).

(** ** RadioMonitor: parsing the stream title *)

Record ParsedTrack := {
  artist : jsstring;
  title : jsstring;
  original : jsstring
}.

Definition sepHyphen : jsstring := lit " - ".
Definition sepEnDash : jsstring := [32; 8211; 32].
Definition sepEmDash : jsstring := [32; 8212; 32].
Definition sepColon : jsstring := lit ": ".
Definition sepBy : jsstring := lit " by ".

Definition separators : list jsstring :=
  [sepHyphen; sepEnDash; sepEmDash; sepColon; sepBy].

Definition isBy (separator : jsstring) : bool :=
  bool_decide (separator = sepBy).

(** The body of the [for (const separator of separators)] loop together with
    the fall-through after it. *)
Fixpoint parseWith (seps : list jsstring) (cleanTitle : jsstring)
  : ParsedTrack :=
  match seps with
  | [] =>
      {| artist := lit "Unknown Artist";
         title := cleanTitle;
         original := cleanTitle |}
  | separator :: seps' =>
      if includes cleanTitle separator then
        let parts := split cleanTitle separator in
        if (2 <=? length parts)%nat then
          if isBy separator then
            {| title := trim (nth 0 parts []);
               artist := trim (nth 1 parts []);
               original := cleanTitle |}
          else
            {| artist := trim (nth 0 parts []);
               title := trim (join separator (skipn 1 parts));
               original := cleanTitle |}
        else parseWith seps' cleanTitle
      else parseWith seps' cleanTitle
  end.

Definition parseStreamTitle (streamTitle : jsstring) : ParsedTrack :=
  let cleanTitle := trim streamTitle in
  parseWith separators cleanTitle.

(** ** RadioMonitor: change detection

    [handleMetadata] receives the [StreamTitle] field that [ICY.parse] found
    in the frame ([None] when the frame has none) and either returns early or
    calls [searchAndAddTrack]; the call it makes is returned as data. *)

Record Metadata := {
  md_track : ParsedTrack;
  md_station : jsstring;
  md_timestamp : jsstring
}.

Record PipelineCall := {
  pc_station : jsstring;
  pc_artist : jsstring;
  pc_title : jsstring;
  pc_metadata : Metadata
}.

Definition capitalizeStationName (stationName : jsstring) : jsstring :=
  match stationName with
  | [] => []
  | c :: rest => upperUnit c :: rest
  end.

(** [!s] for a string [s]: only the empty string is falsy. *)
Definition isEmpty (s : jsstring) : bool :=
  match s with [] => true | _ :: _ => false end.

(** [lastTrack && lastTrack.artist === currentTrack.artist &&
     lastTrack.title === currentTrack.title] *)
Definition sameTrack (lastTrack : option ParsedTrack) (currentTrack : ParsedTrack)
  : bool :=
  match lastTrack with
  | Some l =>
      bool_decide (artist l = artist currentTrack)
      && bool_decide (title l = title currentTrack)
  | None => false
  end.

Definition handleMetadata (now stationName : jsstring)
    (StreamTitle : option jsstring)
    (lastMetadata : gmap (list N) ParsedTrack)
  : gmap (list N) ParsedTrack * option PipelineCall :=
  match StreamTitle with
  | None => (lastMetadata, None)
  | Some streamTitle =>
      if isEmpty streamTitle then (lastMetadata, None)
      else
        let currentTrack := parseStreamTitle streamTitle in
        if isEmpty (artist currentTrack) || isEmpty (title currentTrack)
        then (lastMetadata, None)
        else if sameTrack (lastMetadata !! stationName) currentTrack
        then (lastMetadata, None)
        else
          (<[stationName := currentTrack]> lastMetadata,
           Some {| pc_station := capitalizeStationName stationName;
                   pc_artist := artist currentTrack;
                   pc_title := title currentTrack;
                   pc_metadata := {| md_track := currentTrack;
                                     md_station := stationName;
                                     md_timestamp := now |} |})
  end.

(** ** DatabaseService: the tables of schema.sql *)

Record MatchedRow := {
  m_id : N;
  m_timestamp : jsstring;
  m_station : jsstring;
  m_radio_artist : jsstring;
  m_radio_title : jsstring;
  m_radio_original : jsstring;
  spotify_id : jsstring;          (* TEXT NOT NULL UNIQUE *)
  spotify_artist : jsstring;
  spotify_title : jsstring;
  spotify_url : option jsstring;
  match_percentage : Z;
  playlist_name : jsstring;
  added_at : jsstring
}.

Record UnmatchedRow := {
  u_id : N;
  u_timestamp : jsstring;
  u_station : jsstring;
  u_radio_artist : jsstring;
  u_radio_title : jsstring;
  u_radio_original : jsstring;
  best_spotify_artist : option jsstring;
  best_spotify_title : option jsstring;
  best_spotify_id : option jsstring;
  best_match_percentage : Z;
  reason : jsstring;
  search_results_count : N;
  retry_count : N;
  last_retry_at : option jsstring;
  created_at : jsstring
}.

Record StatsRow := {
  s_id : N;
  date : jsstring;                (* TEXT NOT NULL UNIQUE *)
  station : jsstring;
  tracks_processed : N;
  tracks_matched : N;
  tracks_added : N;
  tracks_duplicated : N;
  tracks_unmatched : N;
  avg_match_percentage : Q;
  updated_at : jsstring           (* and UNIQUE(date, station) *)
}.

Record Database := {
  matched_tracks : list MatchedRow;
  matched_seq : N;
  unmatched_tracks : list UnmatchedRow;
  unmatched_seq : N;
  stats : list StatsRow;
  stats_seq : N
}.

Definition emptyDatabase : Database :=
  {| matched_tracks := []; matched_seq := 0;
     unmatched_tracks := []; unmatched_seq := 0;
     stats := []; stats_seq := 0 |}.

Definition withStats (db : Database) (tbl : list StatsRow) (seq : N) : Database :=
  {| matched_tracks := matched_tracks db; matched_seq := matched_seq db;
     unmatched_tracks := unmatched_tracks db; unmatched_seq := unmatched_seq db;
     stats := tbl; stats_seq := seq |}.

(** The error object with which the driver rejects a statement:
    [error.code] and [error.message]. *)
Record SqliteError := {
  code : jsstring;
  message : jsstring
}.

(** The error of an INSERT that violates the UNIQUE constraint on
    [matched_tracks.spotify_id].  The service opens the database with the
    [sqlite3] driver, whose errors carry the name of the primary result
    code: a violated constraint of any kind is SQLITE_CONSTRAINT, and the
    kind of the constraint appears in the message only. *)
Definition uniqueViolation : SqliteError :=
  {| code := lit "SQLITE_CONSTRAINT";
     message :=
       lit "SQLITE_CONSTRAINT: UNIQUE constraint failed: matched_tracks.spotify_id" |}.

(** How a call of an async method ends. *)
Inductive Completion (A : Type) :=
  | Returned (a : A)
  | Thrown (e : SqliteError).
Arguments Returned {A} a.
Arguments Thrown {A} e.

(** ** DatabaseService: daily statistics *)

Inductive StatType := matched | duplicate | unmatched.

#[global] Instance StatType_eq_dec : EqDecision StatType.
Proof. solve_decision. Defined.

(** [new Date().toISOString().split('T')[0]] *)
Definition isoDate (now : jsstring) : jsstring := nth 0 (split now (lit "T")) [].

Definition statsKey (d s : jsstring) (r : StatsRow) : bool :=
  bool_decide (date r = d) && bool_decide (station r = s).

(** [SELECT ... FROM stats WHERE date = ? AND station = ?], first row. *)
Definition selectStats (d s : jsstring) (tbl : list StatsRow) : option StatsRow :=
  List.find (statsKey d s) tbl.

(** A stored row stands in the way of a new row when one of the two UNIQUE
    constraints of the table would be violated: the one on the column [date],
    or the one on the pair [(date, station)]. *)
Definition statsConflict (new old : StatsRow) : bool :=
  bool_decide (date old = date new)
  || (bool_decide (date old = date new) && bool_decide (station old = station new)).

(** [INSERT OR REPLACE INTO stats]: the rows that stand in the way are
    deleted, then the new row is inserted. *)
Definition insertOrReplaceStats (new : StatsRow) (tbl : list StatsRow)
  : list StatsRow :=
  List.filter (fun old => negb (statsConflict new old)) tbl ++ [new].

(** The [updates] object. *)
Record Updates := {
  up_processed : N;
  up_matched : option N;
  up_added : option N;
  up_duplicated : option N;
  up_unmatched : option N;
  up_avg : option Q
}.

(** [updates.x || stats.x] on counters and on the average. *)
Definition orN (u : option N) (d : N) : N :=
  match u with
  | Some v => if v =? 0 then d else v
  | None => d
  end.

Definition orQ (u : option Q) (d : Q) : Q :=
  match u with
  | Some v => if Qeq_bool v 0 then d else v
  | None => d
  end.

(** [if (matchPercentage)]: neither null nor zero. *)
Definition truthyPercentage (matchPercentage : option Z) : option Z :=
  match matchPercentage with
  | Some p => if (p =? 0)%Z then None else Some p
  | None => None
  end.

Definition computeUpdates (row : StatsRow) (type : StatType)
    (matchPercentage : option Z) : Updates :=
  let processed := tracks_processed row + 1 in
  match type with
  | matched =>
      let totalMatches := tracks_matched row + 1 in
      {| up_processed := processed;
         up_matched := Some totalMatches;
         up_added := Some (tracks_added row + 1);
         up_duplicated := None;
         up_unmatched := None;
         up_avg :=
           match truthyPercentage matchPercentage with
           | Some p =>
               let currentTotal :=
                 (avg_match_percentage row
                  * inject_Z (Z.of_N totalMatches - 1))%Q in
               Some ((currentTotal + inject_Z p)
                     / inject_Z (Z.of_N totalMatches))%Q
           | None => None
           end |}
  | duplicate =>
      {| up_processed := processed; up_matched := None; up_added := None;
         up_duplicated := Some (tracks_duplicated row + 1);
         up_unmatched := None; up_avg := None |}
  | unmatched =>
      {| up_processed := processed; up_matched := None; up_added := None;
         up_duplicated := None;
         up_unmatched := Some (tracks_unmatched row + 1); up_avg := None |}
  end.

(** What the final [UPDATE stats SET ... WHERE date = ? AND station = ?] makes
    of a row [r] it applies to; [stats] is the row read before. *)
Definition applyUpdates (now : jsstring) (stats : StatsRow) (u : Updates)
    (r : StatsRow) : StatsRow :=
  {| s_id := s_id r; date := date r; station := station r;
     tracks_processed := up_processed u;
     tracks_matched := orN (up_matched u) (tracks_matched stats);
     tracks_added := orN (up_added u) (tracks_added stats);
     tracks_duplicated := orN (up_duplicated u) (tracks_duplicated stats);
     tracks_unmatched := orN (up_unmatched u) (tracks_unmatched stats);
     avg_match_percentage := orQ (up_avg u) (avg_match_percentage stats);
     updated_at := now |}.

(** The row that the [INSERT OR REPLACE] of [updateDailyStats] writes: each
    counter is [COALESCE((SELECT col FROM stats WHERE date = ? AND
    station = ?), 0)]. *)
Definition ensuredStats (now stationName : jsstring) (seq : N)
    (tbl : list StatsRow) : StatsRow :=
  let today := isoDate now in
  let old := selectStats today stationName tbl in
  let coalesce (col : StatsRow -> N) := from_option col 0 old in
  {| s_id := seq + 1; date := today; station := stationName;
     tracks_processed := coalesce tracks_processed;
     tracks_matched := coalesce tracks_matched;
     tracks_added := coalesce tracks_added;
     tracks_duplicated := coalesce tracks_duplicated;
     tracks_unmatched := coalesce tracks_unmatched;
     avg_match_percentage := from_option avg_match_percentage 0%Q old;
     updated_at := now |}.

Definition updateStatsTable (now stationName : jsstring) (type : StatType)
    (matchPercentage : option Z) (seq : N) (tbl : list StatsRow)
  : list StatsRow :=
  let today := isoDate now in
  let tbl1 := insertOrReplaceStats (ensuredStats now stationName seq tbl) tbl in
  match selectStats today stationName tbl1 with
  | None => tbl1
  | Some row =>
      let updates := computeUpdates row type matchPercentage in
      map (fun r => if statsKey today stationName r
                    then applyUpdates now row updates r else r) tbl1
  end.

Definition updateDailyStats (now stationName : jsstring) (type : StatType)
    (matchPercentage : option Z) (db : Database) : Database :=
  withStats db
    (updateStatsTable now stationName type matchPercentage
       (stats_seq db) (stats db))
    (stats_seq db + 1).

(** ** DatabaseService: matched and unmatched tracks *)

Record SpotifyMatch := {
  sm_artist : jsstring;
  sm_title : jsstring;
  sm_id : jsstring;
  sm_url : option jsstring
}.

(** [matchDetails], the argument of [addMatchedTrack].  The pipeline builds
    it from a parsed announcement and a catalog item, so that every NOT NULL
    column receives a value. *)
Record MatchDetails := {
  mt_timestamp : jsstring;
  mt_station : jsstring;
  mt_metadata : ParsedTrack;
  mt_spotifyMatch : SpotifyMatch;
  mt_percentage : Z;
  mt_playlist : jsstring
}.

(** [unmatchDetails], the argument of [addUnmatchedTrack]; [um_spotifyMatch]
    has no url. *)
Record UnmatchDetails := {
  um_timestamp : jsstring;
  um_station : jsstring;
  um_metadata : ParsedTrack;
  um_spotifyMatch : option SpotifyMatch;
  um_percentage : Z;
  um_reason : jsstring;
  um_searchResultsCount : N
}.

(** [s || fallback] on strings. *)
Definition orString (s fallback : jsstring) : jsstring :=
  if isEmpty s then fallback else s.

(** [s || null] on an optional string. *)
Definition orNull (s : option jsstring) : option jsstring :=
  match s with
  | Some (c :: r) => Some (c :: r)
  | _ => None
  end.

Definition hasSpotifyId (spotifyId : jsstring) (r : MatchedRow) : bool :=
  bool_decide (spotify_id r = spotifyId).

Definition isTrackAlreadyAdded (spotifyId : jsstring) (db : Database) : bool :=
  existsb (hasSpotifyId spotifyId) (matched_tracks db).

(** [INSERT INTO matched_tracks]: rejected with [uniqueViolation] on the
    UNIQUE column [spotify_id], otherwise appends the row under the next id
    and returns that id. *)
Definition insertMatched (trackData : MatchDetails) (now : jsstring)
    (db : Database) : SqliteError + (N * Database) :=
  let sid := sm_id (mt_spotifyMatch trackData) in
  if existsb (hasSpotifyId sid) (matched_tracks db)
  then inl uniqueViolation
  else
    let lastID := matched_seq db + 1 in
    let row :=
      {| m_id := lastID;
         m_timestamp := mt_timestamp trackData;
         m_station := mt_station trackData;
         m_radio_artist := artist (mt_metadata trackData);
         m_radio_title := title (mt_metadata trackData);
         m_radio_original := original (mt_metadata trackData);
         spotify_id := sid;
         spotify_artist := sm_artist (mt_spotifyMatch trackData);
         spotify_title := sm_title (mt_spotifyMatch trackData);
         spotify_url := sm_url (mt_spotifyMatch trackData);
         match_percentage := mt_percentage trackData;
         playlist_name :=
           orString (mt_playlist trackData)
             (lit "Halloween Radio - " ++ mt_station trackData);
         added_at := now |} in
    inr (lastID,
         {| matched_tracks := matched_tracks db ++ [row];
            matched_seq := lastID;
            unmatched_tracks := unmatched_tracks db;
            unmatched_seq := unmatched_seq db;
            stats := stats db; stats_seq := stats_seq db |}).

Definition addMatchedTrack (now : jsstring) (trackData : MatchDetails)
    (db : Database) : Completion (option N) * Database :=
  match insertMatched trackData now db with
  | inr (lastID, db1) =>
      (Returned (Some lastID),
       updateDailyStats now (mt_station trackData) matched
         (Some (mt_percentage trackData)) db1)
  | inl error =>
      if bool_decide (code error = lit "SQLITE_CONSTRAINT_UNIQUE")
      then (Returned None,
            updateDailyStats now (mt_station trackData) duplicate None db)
      else (Thrown error, db)
  end.

Definition addUnmatchedTrack (now : jsstring) (trackData : UnmatchDetails)
    (db : Database) : N * Database :=
  let lastID := unmatched_seq db + 1 in
  let row :=
    {| u_id := lastID;
       u_timestamp := um_timestamp trackData;
       u_station := um_station trackData;
       u_radio_artist := artist (um_metadata trackData);
       u_radio_title := title (um_metadata trackData);
       u_radio_original := original (um_metadata trackData);
       best_spotify_artist := orNull (sm_artist <$> um_spotifyMatch trackData);
       best_spotify_title := orNull (sm_title <$> um_spotifyMatch trackData);
       best_spotify_id := orNull (sm_id <$> um_spotifyMatch trackData);
       best_match_percentage := um_percentage trackData;
       reason := um_reason trackData;
       search_results_count := um_searchResultsCount trackData;
       retry_count := 0;
       last_retry_at := None;
       created_at := now |} in
  let db1 :=
    {| matched_tracks := matched_tracks db; matched_seq := matched_seq db;
       unmatched_tracks := unmatched_tracks db ++ [row];
       unmatched_seq := lastID;
       stats := stats db; stats_seq := stats_seq db |} in
  (lastID, updateDailyStats now (um_station trackData) unmatched None db1).

(** ** DatabaseService: counting, retries, playlists, clearing *)

(** [SELECT COUNT( * ) FROM matched_tracks], with [WHERE station = ?] under
    [if (station)]: for a station that is neither null nor empty. *)
Definition getMatchedTracksCount (station : option jsstring) (db : Database)
  : N :=
  match orNull station with
  | Some s =>
      N.of_nat (length (List.filter (fun r => bool_decide (m_station r = s))
                          (matched_tracks db)))
  | None => N.of_nat (length (matched_tracks db))
  end.

(** [newMatchData], the optional argument of [retryUnmatchedTrack]. *)
Record RetryMatch := {
  rm_artist : jsstring;
  rm_title : jsstring;
  rm_id : jsstring;
  rm_percentage : Z
}.

(** The two [UPDATE unmatched_tracks SET ... WHERE id = ?] statements. *)
Definition retryUnmatchedTrack (now : jsstring) (trackId : N)
    (newMatchData : option RetryMatch) (db : Database) : Database :=
  let retried (r : UnmatchedRow) : UnmatchedRow :=
    {| u_id := u_id r;
       u_timestamp := u_timestamp r;
       u_station := u_station r;
       u_radio_artist := u_radio_artist r;
       u_radio_title := u_radio_title r;
       u_radio_original := u_radio_original r;
       best_spotify_artist :=
         match newMatchData with
         | Some m => Some (rm_artist m)
         | None => best_spotify_artist r
         end;
       best_spotify_title :=
         match newMatchData with
         | Some m => Some (rm_title m)
         | None => best_spotify_title r
         end;
       best_spotify_id :=
         match newMatchData with
         | Some m => Some (rm_id m)
         | None => best_spotify_id r
         end;
       best_match_percentage :=
         match newMatchData with
         | Some m => rm_percentage m
         | None => best_match_percentage r
         end;
       reason := reason r;
       search_results_count := search_results_count r;
       retry_count := retry_count r + 1;
       last_retry_at := Some now;
       created_at := created_at r |} in
  {| matched_tracks := matched_tracks db; matched_seq := matched_seq db;
     unmatched_tracks :=
       map (fun r => if u_id r =? trackId then retried r else r)
         (unmatched_tracks db);
     unmatched_seq := unmatched_seq db;
     stats := stats db; stats_seq := stats_seq db |}.

(** The table [playlists]; [station] is UNIQUE. *)
Record PlaylistRow := {
  p_id : N;
  p_station : jsstring;
  p_playlist_id : jsstring;
  p_playlist_name : jsstring;
  p_created_at : jsstring;
  p_updated_at : jsstring
}.

Record PlaylistsTable := {
  playlist_rows : list PlaylistRow;
  playlists_seq : N
}.

Definition hasStation (station : jsstring) (r : PlaylistRow) : bool :=
  bool_decide (p_station r = station).

(** [INSERT OR REPLACE INTO playlists]: [created_at] is that of the stored
    row of the station, when there is one, otherwise the first of the two
    clock readings; the stored row is deleted and the new row inserted. *)
Definition updatePlaylistInfo (createdNow updatedNow : jsstring)
    (station playlistId playlistName : jsstring) (tbl : PlaylistsTable)
  : PlaylistsTable :=
  let old := List.find (hasStation station) (playlist_rows tbl) in
  let row :=
    {| p_id := playlists_seq tbl + 1;
       p_station := station;
       p_playlist_id := playlistId;
       p_playlist_name := playlistName;
       p_created_at := from_option p_created_at createdNow old;
       p_updated_at := updatedNow |} in
  {| playlist_rows :=
       List.filter (fun r => negb (hasStation station r)) (playlist_rows tbl)
       ++ [row];
     playlists_seq := playlists_seq tbl + 1 |}.

(** [SELECT * FROM playlists], with [WHERE station = ?] under
    [if (station)]. *)
Definition getPlaylistInfo (station : option jsstring) (tbl : PlaylistsTable)
  : list PlaylistRow :=
  match orNull station with
  | Some s => List.filter (hasStation s) (playlist_rows tbl)
  | None => playlist_rows tbl
  end.

(** The four [DELETE FROM] statements; the AUTOINCREMENT counters stay. *)
Definition clearAllData (db : Database) (tbl : PlaylistsTable)
  : Database * PlaylistsTable :=
  ({| matched_tracks := []; matched_seq := matched_seq db;
      unmatched_tracks := []; unmatched_seq := unmatched_seq db;
      stats := []; stats_seq := stats_seq db |},
   {| playlist_rows := []; playlists_seq := playlists_seq tbl |}).

(** ** SpotifyService: scoring the candidates *)

(** A catalog item as the search returns it; [artists] is never empty. *)
Record Track := {
  track_id : jsstring;
  track_name : jsstring;
  first_artist : jsstring;
  more_artists : list jsstring;
  external_url : option jsstring
}.

Definition artistNames (track : Track) : list jsstring :=
  first_artist track :: more_artists track.

(** [bestMatch]: [{ track, similarity }] *)
Record Match := {
  track : Track;
  similarity : number
}.

(** [s.toLowerCase().replace(/[^\w\s]/g, '').trim()] *)
Definition clean (s : jsstring) : jsstring :=
  trim (List.filter (fun c => isWordChar c || isWhiteSpace c) (toLowerCase s)).

Section Matcher.

(** The similarity function of the string-similarity package, which is not
    part of the repository. *)
Variable compareTwoStrings : jsstring -> jsstring -> number.

Definition containsBonus (a b : jsstring) : number :=
  if includes a b || includes b a then decimal 8 10 else ofZ 0.

Definition fieldSimilarity (cleanField trackField : jsstring) : number :=
  mathMax (compareTwoStrings cleanField trackField)
          (containsBonus trackField cleanField).

Definition combinedSimilarity (cleanArtist cleanTitle : jsstring)
    (t : Track) : number :=
  let trackArtist := clean (join [32] (artistNames t)) in
  let trackTitle := clean (track_name t) in
  let finalArtistSimilarity := fieldSimilarity cleanArtist trackArtist in
  let finalTitleSimilarity := fieldSimilarity cleanTitle trackTitle in
  jsAdd (jsMul finalArtistSimilarity (decimal 4 10))
        (jsMul finalTitleSimilarity (decimal 6 10)).

(** The loop shared by [findBestMatch] and [findBestMatchForLogging]:
    [score] is the combined similarity of a candidate, [accept] the extra
    condition on it, the pair is [(bestMatch, bestSimilarity)]. *)
Fixpoint scanTracks (score : Track -> number) (accept : number -> bool)
    (tracks : list Track) (best : option Match * number)
  : option Match * number :=
  match tracks with
  | [] => best
  | t :: rest =>
      let c := score t in
      if jsGt c (snd best) && accept c
      then scanTracks score accept rest
             (Some {| track := t; similarity := c |}, c)
      else scanTracks score accept rest best
  end.

Definition findBestMatch (artist title : jsstring) (tracks : list Track)
  : option Match :=
  fst (scanTracks (combinedSimilarity (clean artist) (clean title))
         (fun c => jsGe c (decimal 75 100)) tracks (None, ofZ 0)).

Definition findBestMatchForLogging (artist title : jsstring)
    (tracks : list Track) : option Match :=
  fst (scanTracks (combinedSimilarity (clean artist) (clean title))
         (fun _ => true) tracks (None, ofZ 0)).

(** ** SpotifyService: recording an unmatched track *)

Definition skipPatterns : list jsstring :=
  [lit "azuracast"; lit "halloweenradio"; lit "commercials"; lit "jingle";
   lit "station id"; lit "radio id"; lit "live!"; lit "streaming"].

Definition shouldSkip (metadata : ParsedTrack) : bool :=
  let artist := toLowerCase (artist metadata) in
  let title := toLowerCase (title metadata) in
  existsb (fun pattern => includes artist pattern || includes title pattern)
    skipPatterns.

Definition bestOf (m : Match) : Z * SpotifyMatch :=
  (mathRound (jsMul (similarity m) (ofZ 100)),
   {| sm_artist := first_artist (track m);
      sm_title := track_name (track m);
      sm_id := track_id (track m);
      sm_url := None |}).

Definition logUnmatchedTrack (now stationName : jsstring)
    (metadata : ParsedTrack) (reason : jsstring)
    (searchResults : list Track) (bestMatchForLogging : option Match)
    (db : Database) : Database :=
  if shouldSkip metadata then db
  else
    let best : option (Z * SpotifyMatch) :=
      match bestMatchForLogging with
      | Some m => Some (bestOf m)
      | None =>
          match searchResults with
          | [] => None
          | _ :: _ =>
              bestOf <$> findBestMatchForLogging (artist metadata)
                           (title metadata) searchResults
          end
      end in
    let unmatchDetails :=
      {| um_timestamp := now;
         um_station := stationName;
         um_metadata :=
           {| artist := artist metadata;
              title := title metadata;
              original :=
                orString (original metadata)
                  (artist metadata ++ lit " - " ++ title metadata) |};
         um_spotifyMatch := snd <$> best;
         um_percentage := from_option fst 0%Z best;
         um_reason := reason;
         um_searchResultsCount := N.of_nat (length searchResults) |} in
    snd (addUnmatchedTrack now unmatchDetails db).

(** ** SpotifyService: the pipeline *)

Record Playlist := {
  playlist_id : jsstring;
  playlist_label : jsstring
}.

(** The two catalog requests of the pipeline.  A search answers with its
    items or rejects ([None]); an append succeeds ([None]) or rejects with
    a message. *)
Record SpotifyApi := {
  searchTracks : jsstring -> option (list Track);
  addTracksToPlaylist : jsstring -> jsstring -> option jsstring
}.

(** The state of the service: the database, the playlist of each station,
    the track counts, and the appends that the catalog accepted. *)
Record Service := {
  database : Database;
  playlists : gmap (list N) Playlist;
  playlistTrackCounts : gmap (list N) N;
  appended : list (jsstring * jsstring)
}.

Definition withDatabase (svc : Service) (db : Database) : Service :=
  {| database := db; playlists := playlists svc;
     playlistTrackCounts := playlistTrackCounts svc;
     appended := appended svc |}.

Definition quoted (s : jsstring) : jsstring := [34] ++ s ++ [34].

Definition searchQueries (artist title : jsstring) : list jsstring :=
  let tilde := lit "~" in
  let beforeTilde := trim (nth 0 (split title tilde) []) in
  [lit "artist:" ++ quoted artist ++ lit " track:" ++ quoted title;
   quoted artist ++ [32] ++ quoted title;
   artist ++ [32] ++ title]
  ++ (if includes title tilde
      then [quoted beforeTilde ++ [32] ++ quoted artist; quoted beforeTilde]
      else []).

(** The first strategy that answers with at least one item decides. *)
Fixpoint firstResults (api : SpotifyApi) (queries : list jsstring)
  : list Track :=
  match queries with
  | [] => []
  | query :: rest =>
      match searchTracks api query with
      | Some (t :: ts) => t :: ts
      | _ => firstResults api rest
      end
  end.

Definition searchAndAddTrack (api : SpotifyApi) (now stationName : jsstring)
    (artist title : jsstring) (metadata : Metadata) (svc : Service)
  : bool * Service :=
  let db := database svc in
  let tracks := firstResults api (searchQueries artist title) in
  match tracks with
  | [] =>
      (false,
       withDatabase svc
         (logUnmatchedTrack now stationName (md_track metadata)
            (lit "No search results") [] None db))
  | _ :: _ =>
      match findBestMatch artist title tracks with
      | None =>
          let bestMatchForLogging :=
            findBestMatchForLogging artist title tracks in
          (false,
           withDatabase svc
             (logUnmatchedTrack now stationName (md_track metadata)
                (lit "No suitable match found") (firstn 3 tracks)
                bestMatchForLogging db))
      | Some bestMatch =>
          let id := track_id (track bestMatch) in
          if isTrackAlreadyAdded id db
          then
            (false,
             withDatabase svc
               (updateDailyStats now stationName duplicate None db))
          else
            match playlists svc !! toLowerCase stationName with
            | None => (false, svc)
            | Some playlist =>
                let uri := lit "spotify:track:" ++ id in
                match addTracksToPlaylist api (playlist_id playlist) uri with
                | Some message =>
                    (false,
                     withDatabase svc
                       (logUnmatchedTrack now stationName (md_track metadata)
                          (lit "Spotify API error: " ++ message) []
                          (Some bestMatch) db))
                | None =>
                    let key := toLowerCase stationName in
                    let currentCount :=
                      default 0 (playlistTrackCounts svc !! key) in
                    let matchDetails :=
                      {| mt_timestamp := now;
                         mt_station := stationName;
                         mt_metadata :=
                           {| artist := artist;
                              title := title;
                              original :=
                                orString (original (md_track metadata))
                                  (artist ++ lit " - " ++ title) |};
                         mt_spotifyMatch :=
                           {| sm_artist := first_artist (track bestMatch);
                              sm_title := track_name (track bestMatch);
                              sm_id := id;
                              sm_url := external_url (track bestMatch) |};
                         mt_percentage :=
                           mathRound (jsMul (similarity bestMatch) (ofZ 100));
                         mt_playlist := playlist_label playlist |} in
                    let svc1 :=
                      {| database := db;
                         playlists := playlists svc;
                         playlistTrackCounts :=
                           <[key := currentCount + 1]>
                             (playlistTrackCounts svc);
                         appended :=
                           appended svc ++ [(playlist_id playlist, uri)] |} in
                    match addMatchedTrack now matchDetails db with
                    | (Returned _, db') => (true, withDatabase svc1 db')
                    | (Thrown e, db') =>
                        (false,
                         withDatabase svc1
                           (logUnmatchedTrack now stationName
                              (md_track metadata)
                              (lit "Error: " ++ message e) [] None db'))
                    end
                end
            end
      end
  end.

(** One metadata frame through [handleMetadata] and, when it calls it,
    through the pipeline. *)
Definition processFrame (api : SpotifyApi) (now stationName : jsstring)
    (StreamTitle : option jsstring)
    (st : gmap (list N) ParsedTrack * Service)
  : gmap (list N) ParsedTrack * Service :=
  match handleMetadata now stationName StreamTitle (fst st) with
  | (lastMetadata, None) => (lastMetadata, snd st)
  | (lastMetadata, Some call) =>
      (lastMetadata,
       snd (searchAndAddTrack api now (pc_station call) (pc_artist call)
              (pc_title call) (pc_metadata call) (snd st)))
  end.

End Matcher.

(** ** SpotifyService: loading the tracks of a playlist *)

(** An item of a page of playlist tracks; [item.track] may be null. *)
Record PlaylistItem := {
  item_track : option Track
}.

(** The requests that change a playlist. *)
Inductive PlaylistRequest :=
  | ReplaceTracksInPlaylist (playlistId : jsstring) (uris : list jsstring)
  | AddTracksToPlaylist (playlistId : jsstring) (uris : list jsstring)
  | RemoveTracksFromPlaylist (playlistId : jsstring) (positions : list nat).

(** The catalog as [loadExistingTracks] uses it.  A request for a page,
    [getPlaylistTracks id offset limit], answers with its items or rejects
    ([None]); a request that changes a playlist is accepted or rejected. *)
Record PlaylistApi := {
  getPlaylistTracks : jsstring -> nat -> nat -> option (list PlaylistItem);
  accepted : PlaylistRequest -> bool
}.

(** How a loop over the pages ends: with its state, with a rejected
    request, or not within the given number of pages. *)
Inductive Paged (A : Type) :=
  | Complete (a : A)
  | Rejected
  | Unfinished.
Arguments Complete {A} a.
Arguments Rejected {A}.
Arguments Unfinished {A}.

(** [while (true)] over the pages of a playlist: fetch the page at [offset],
    run [forEach] over its items, stop when the page is shorter than
    [limit], otherwise go on at [offset + limit]. *)
Fixpoint eachPage {A : Type} (fuel : nat) (api : PlaylistApi)
    (playlistId : jsstring) (limit offset : nat)
    (forEach : nat -> list PlaylistItem -> A -> A) (state : A) : Paged A :=
  match fuel with
  | O => Unfinished
  | S fuel' =>
      match getPlaylistTracks api playlistId offset limit with
      | None => Rejected
      | Some tracks =>
          let state' := forEach offset tracks state in
          if (length tracks <? limit)%nat then Complete state'
          else eachPage fuel' api playlistId limit (offset + limit) forEach
                 state'
      end
  end.

Record DuplicatePosition := {
  dp_position : nat;
  dp_trackId : jsstring;
  dp_trackName : jsstring;
  dp_firstSeenAt : nat
}.

(** The variables of the first pass. *)
Record FirstPass := {
  seenTracks : gmap (list N) nat;
  totalTracks : N;
  duplicatePositions : list DuplicatePosition
}.

(** The body of the first [forEach], for the item at [position]. *)
Definition noteItem (position : nat) (item : PlaylistItem) (st : FirstPass)
  : FirstPass :=
  match item_track item with
  | Some t =>
      if isEmpty (track_id t) then st
      else
        let trackId := track_id t in
        let trackName := first_artist t ++ lit " - " ++ track_name t in
        match seenTracks st !! trackId with
        | Some firstPosition =>
            {| seenTracks := seenTracks st;
               totalTracks := totalTracks st;
               duplicatePositions :=
                 duplicatePositions st
                 ++ [ {| dp_position := position;
                         dp_trackId := trackId;
                         dp_trackName := trackName;
                         dp_firstSeenAt := firstPosition |} ] |}
        | None =>
            {| seenTracks := <[trackId := position]> (seenTracks st);
               totalTracks := totalTracks st + 1;
               duplicatePositions := duplicatePositions st |}
        end
  | None => st
  end.

(** The first [forEach] over a page whose first item is at [position]. *)
Fixpoint notePage (position : nat) (tracks : list PlaylistItem)
    (st : FirstPass) : FirstPass :=
  match tracks with
  | [] => st
  | item :: rest => notePage (S position) rest (noteItem position item st)
  end.

(** The variables of the rebuild pass. *)
Record Rebuild := {
  allTracks : list jsstring;
  seenInRebuild : gset (list N)
}.

(** The body of the second [forEach]. *)
Definition keepItem (rb : Rebuild) (item : PlaylistItem) : Rebuild :=
  match item_track item with
  | Some t =>
      if isEmpty (track_id t) then rb
      else if bool_decide (track_id t ∈ seenInRebuild rb) then rb
      else
        {| allTracks := allTracks rb ++ [lit "spotify:track:" ++ track_id t];
           seenInRebuild := {[ track_id t ]} ∪ seenInRebuild rb |}
  | None => rb
  end.

(** [loadExistingTracks]: the requests that changed the playlist, in order,
    and the track counts afterwards; [None] when the pages do not end
    within [fuel] requests.  A rejected request ends the call where it
    stands and stores no count. *)
Definition loadExistingTracks (fuel : nat) (api : PlaylistApi)
    (playlistId : jsstring) (stationName : option jsstring)
    (counts : gmap (list N) N)
  : option (list PlaylistRequest * gmap (list N) N) :=
  match eachPage fuel api playlistId 100 0 notePage
          {| seenTracks := ∅; totalTracks := 0; duplicatePositions := [] |}
  with
  | Unfinished => None
  | Rejected => Some ([], counts)
  | Complete st =>
      let stored :=
        match orNull stationName with
        | Some s => <[toLowerCase s := totalTracks st]> counts
        | None => counts
        end in
      match duplicatePositions st with
      | [] => Some ([], stored)
      | _ :: _ =>
          match eachPage fuel api playlistId 100 0
                  (fun _ tracks rb => foldl keepItem rb tracks)
                  {| allTracks := []; seenInRebuild := ∅ |}
          with
          | Unfinished => None
          | Rejected => Some ([], counts)
          | Complete rb =>
              let clear := ReplaceTracksInPlaylist playlistId [] in
              if accepted api clear
              then
                match allTracks rb with
                | [] => Some ([clear], stored)
                | _ :: _ =>
                    let add := AddTracksToPlaylist playlistId (allTracks rb) in
                    if accepted api add
                    then Some ([clear; add], stored)
                    else Some ([clear], counts)
                end
              else Some ([], counts)
          end
      end
  end.

(** ** SpotifyService: removing the duplicates of a playlist *)

Module RemoveDuplicates.

(** The variables of the first pass of [removeDuplicatesFromPlaylist]. *)
Record Scan := {
  seenTracks : gset (list N);
  duplicatePositions : list nat
}.

(** The body of the [forEach], for the item at [position]. *)
Definition markItem (position : nat) (item : PlaylistItem) (st : Scan) : Scan :=
  match item_track item with
  | Some t =>
      if isEmpty (track_id t) then st
      else if bool_decide (track_id t ∈ seenTracks st)
      then {| seenTracks := seenTracks st;
              duplicatePositions := duplicatePositions st ++ [position] |}
      else {| seenTracks := {[ track_id t ]} ∪ seenTracks st;
              duplicatePositions := duplicatePositions st |}
  | None => st
  end.

Fixpoint markPage (position : nat) (tracks : list PlaylistItem) (st : Scan)
  : Scan :=
  match tracks with
  | [] => st
  | item :: rest => markPage (S position) rest (markItem position item st)
  end.

(** The loop over the positions: one request for each, counted when it is
    accepted; the accepted requests are collected in order. *)
Fixpoint removePositions (api : PlaylistApi) (playlistId : jsstring)
    (positions : list nat) : N * list PlaylistRequest :=
  match positions with
  | [] => (0, [])
  | position :: rest =>
      let request := RemoveTracksFromPlaylist playlistId [position] in
      let '(removedCount, requests) := removePositions api playlistId rest in
      if accepted api request
      then (removedCount + 1, request :: requests)
      else (removedCount, requests)
  end.

(** [removeDuplicatesFromPlaylist]: the number it returns and the requests
    that the catalog accepted; a rejected page request is thrown on. *)
Definition removeDuplicatesFromPlaylist (fuel : nat) (api : PlaylistApi)
    (playlistId : jsstring) : Paged (N * list PlaylistRequest) :=
  match eachPage fuel api playlistId 100 0 markPage
          {| seenTracks := ∅; duplicatePositions := [] |}
  with
  | Unfinished => Unfinished
  | Rejected => Rejected
  | Complete st =>
      match duplicatePositions st with
      | [] => Complete (0, [])
      | _ :: _ =>
          Complete (removePositions api playlistId
                      (reverse (duplicatePositions st)))
      end
  end.

End RemoveDuplicates.

(** ** SpotifyService: finding a playlist by its name *)

(** The answer to a request for a page of the user's playlists: the items of
    [response.body.items] or [response.items], some of which may be null; a
    response of another shape; or a rejection. *)
Inductive PlaylistsAnswer :=
  | PlaylistItems (items : list (option Playlist))
  | UnexpectedFormat
  | RequestRejected.

(** [getUserPlaylists], called with the user id ([true]) or without it. *)
Record PlaylistsApi := {
  getUserPlaylists : bool -> nat -> nat -> PlaylistsAnswer
}.

(** [p => p && p.name === name] *)
Definition hasName (name : jsstring) (p : option Playlist) : bool :=
  match p with
  | Some q => bool_decide (playlist_label q = name)
  | None => false
  end.

(** [p.name] is read from each of the first five items of a page for the
    log, whether the item is null or not: reading it from null throws. *)
Definition sampleThrows (playlists : list (option Playlist)) : bool :=
  existsb (fun p => bool_decide (p = None)) (take 5 playlists).

(** The loop of [findPlaylistByName] from [offset] on; [None] when it does
    not end within [fuel] pages, otherwise the playlist found or null.  An
    exception, of a request or of the log of the sample, ends the search
    with null. *)
Fixpoint findPlaylistFrom (fuel : nat) (api : PlaylistsApi) (name : jsstring)
    (offset : nat) : option (option Playlist) :=
  match fuel with
  | O => None
  | S fuel' =>
      let response :=
        match getUserPlaylists api true offset 50 with
        | RequestRejected => getUserPlaylists api false offset 50
        | answer => answer
        end in
      match response with
      | RequestRejected => Some None
      | UnexpectedFormat => Some None
      | PlaylistItems playlists =>
          if sampleThrows playlists then Some None
          else
            match List.find (hasName name) playlists with
            | Some (Some found) => Some (Some found)
            | _ =>
                if (length playlists <? 50)%nat then Some None
                else findPlaylistFrom fuel' api name (offset + 50)
            end
      end
  end.

Definition findPlaylistByName (fuel : nat) (api : PlaylistsApi)
    (name : jsstring) : option (option Playlist) :=
  findPlaylistFrom fuel api name 0.

(** ** The similarity function *)

Module StringSimilarity.

Fixpoint bigrams (s : jsstring) : list (N * N) :=
  match s with
  | a :: (b :: _) as rest => (a, b) :: bigrams rest
  | _ => []
  end.

(** The [firstBigrams] map: bigram to number of occurrences. *)
Definition countBigrams (bs : list (N * N)) : gmap (N * N) nat :=
  foldl (fun m b => <[b := S (default O (m !! b))]> m) ∅ bs.

Fixpoint intersectionSize (firstBigrams : gmap (N * N) nat)
    (second : list (N * N)) : nat :=
  match second with
  | [] => O
  | b :: rest =>
      match firstBigrams !! b with
      | Some (S k) => S (intersectionSize (<[b := k]> firstBigrams) rest)
      | _ => intersectionSize firstBigrams rest
      end
  end.

(** Modelled from the spec: the external similarity function, which the
    sources only import; sections 4.4 and 9 describe it as a bigram-overlap
    similarity of Dice-coefficient style with values in [0,1].  This is
    that coefficient over the bigrams of the two strings with white space
    removed: twice the size of the bigram intersection over the number of
    bigrams of both, 1 for equal strings, 0 when a string has no bigram. *)
Definition compareTwoStrings (first second : jsstring) : number :=
  let first := List.filter (fun c => negb (isWhiteSpace c)) first in
  let second := List.filter (fun c => negb (isWhiteSpace c)) second in
  if bool_decide (first = second) then ofZ 1
  else if (length first <? 2)%nat || (length second <? 2)%nat then ofZ 0
  else
    let inter := intersectionSize (countBigrams (bigrams first))
                   (bigrams second) in
    jsDiv (jsMul (ofZ 2) (ofZ (Z.of_nat inter)))
          (ofZ (Z.of_nat (length first + length second - 2))).

End StringSimilarity.

(** ** Sequences of events *)

(** The metadata frames of one station, handled one after the other; the
    calls of the pipeline are collected in order. *)
Fixpoint feedFrames (now stationName : jsstring)
    (frames : list (option jsstring))
    (lastMetadata : gmap (list N) ParsedTrack)
  : gmap (list N) ParsedTrack * list PipelineCall :=
  match frames with
  | [] => (lastMetadata, [])
  | frame :: rest =>
      let '(lastMetadata1, call) :=
        handleMetadata now stationName frame lastMetadata in
      let '(lastMetadata2, calls) :=
        feedFrames now stationName rest lastMetadata1 in
      (lastMetadata2, from_option (fun c => [c]) [] call ++ calls)
  end.

(** A sequence of [addMatchedTrack] calls, each with its clock reading; the
    results are collected in order. *)
Fixpoint addMatchedTracks (attempts : list (jsstring * MatchDetails))
    (db : Database) : list (Completion (option N)) * Database :=
  match attempts with
  | [] => ([], db)
  | (now, trackData) :: rest =>
      let '(result, db1) := addMatchedTrack now trackData db in
      let '(results, db2) := addMatchedTracks rest db1 in
      (result :: results, db2)
  end.

(** One event of the daily statistics: clock reading, outcome, and the match
    percentage handed over with it. *)
Record StatEvent := {
  ev_now : jsstring;
  ev_type : StatType;
  ev_percentage : option Z
}.

Definition recordEvents (stationName : jsstring) (events : list StatEvent)
    (db : Database) : Database :=
  foldl (fun db e =>
           updateDailyStats (ev_now e) stationName (ev_type e)
             (ev_percentage e) db)
        db events.

Definition countType (type : StatType) (events : list StatEvent) : N :=
  N.of_nat (length (List.filter
    (fun e => bool_decide (ev_type e = type)) events)).

(** The percentages of the matched events, in order. *)
Definition matchedPercentages (events : list StatEvent) : list Z :=
  flat_map (fun e =>
    match ev_type e, ev_percentage e with
    | matched, Some p => [p]
    | _, _ => []
    end) events.

Definition sumZ (l : list Z) : Z := fold_right Z.add 0%Z l.

(** The arithmetic mean of a list of percentages. *)
Definition mean (l : list Z) : Q :=
  (inject_Z (sumZ l) / inject_Z (Z.of_nat (length l)))%Q.

(** The counters and the average that the first touch of a [(date, station)]
    key starts from: the stored row, or zeros. *)
Definition zeroStats (d s : jsstring) : StatsRow :=
  {| s_id := 0; date := d; station := s;
     tracks_processed := 0; tracks_matched := 0; tracks_added := 0;
     tracks_duplicated := 0; tracks_unmatched := 0;
     avg_match_percentage := 0%Q; updated_at := [] |}.

Definition currentStats (d s : jsstring) (db : Database) : StatsRow :=
  default (zeroStats d s) (selectStats d s (stats db)).

(** The new average that a matched event with percentage [p] computes from a
    row with average [avg] and [m] matched tracks. *)
Definition nextAverage (avg : Q) (m : N) (p : Z) : Q :=
  ((avg * inject_Z (Z.of_N (m + 1) - 1) + inject_Z p)
   / inject_Z (Z.of_N (m + 1)))%Q.

Definition bump (type type' : StatType) : N :=
  if bool_decide (type = type') then 1 else 0.

(** ** Sample data *)

(** A clock reading on a Halloween evening. *)
Definition halloween : jsstring := lit "2024-10-31T20:15:00.000Z".

(** A matched track as the pipeline hands it to [addMatchedTrack]. *)
Definition monsterMash (stationName : jsstring) : MatchDetails :=
  {| mt_timestamp := halloween;
     mt_station := stationName;
     mt_metadata :=
       {| artist := lit "Bobby Pickett";
          title := lit "Monster Mash";
          original := lit "Bobby Pickett - Monster Mash" |};
     mt_spotifyMatch :=
       {| sm_artist := lit "Bobby Pickett";
          sm_title := lit "Monster Mash";
          sm_id := lit "6bFCr8pVJ3WC5fE5tZqyQd";
          sm_url := Some (lit "https://open.spotify.com/track/6bFCr8pVJ3WC5fE5tZqyQd") |};
     mt_percentage := 100;
     mt_playlist := lit "Halloween Radio - " ++ stationName |}.

(** A catalog whose searches find nothing, and the service before its first
    track. *)
Definition noCatalog : SpotifyApi :=
  {| searchTracks := fun _ => Some [];
     addTracksToPlaylist := fun _ _ => None |}.

Definition freshService : Service :=
  {| database := emptyDatabase; playlists := ∅;
     playlistTrackCounts := ∅; appended := [] |}.

(** A catalog that answers every search with the one item [t]. *)
Definition catalogOf (t : Track) : SpotifyApi :=
  {| searchTracks := fun _ => Some [t];
     addTracksToPlaylist := fun _ _ => None |}.

Definition unrelatedTrack : Track :=
  {| track_id := lit "0xyzw";
     track_name := lit "zw";
     first_artist := lit "xy";
     more_artists := [];
     external_url := None |}.

(** The same recording under a second catalog id. *)
Definition unrelatedCover : Track :=
  {| track_id := lit "2xyzw";
     track_name := lit "zw";
     first_artist := lit "xy";
     more_artists := [];
     external_url := None |}.

(** A candidate that shares three of eight bigrams with the announced artist
    "abcd12345" and has the announced title "zw". *)
Definition boundaryTrack : Track :=
  {| track_id := lit "1abcd";
     track_name := lit "zw";
     first_artist := lit "abcd67890";
     more_artists := [];
     external_url := None |}.

(** A candidate for the announced artist "abcdefg12345" and the announced
    title [nearTitle]: the artists share 6 of their 11 bigrams each, the
    titles 39 of their 44, so that the similarities are the numbers nearest
    to 6/11 and 39/44.  In exact arithmetic the combined score would be
    3/4. *)
Definition nearTitle : jsstring :=
  lit "abcdefghijklmnopqrstuvwxyz0123456789abcdeeeee".

Definition nearBoundaryTrack : Track :=
  {| track_id := lit "3near";
     track_name := lit "abcdefghijklmnopqrstuvwxyz0123456789abcdfffff";
     first_artist := lit "abcdefg67890";
     more_artists := [];
     external_url := None |}.

Definition metadataOf (radioArtist radioTitle : jsstring) : Metadata :=
  {| md_track :=
       {| artist := radioArtist; title := radioTitle;
          original := radioArtist ++ lit " - " ++ radioTitle |};
     md_station := lit "main";
     md_timestamp := halloween |}.

(** A service that knows the playlist of the station Main, a catalog item
    for the Monster Mash, and the call that announces it. *)
Definition mainPlaylist : Playlist :=
  {| playlist_id := lit "3cEYpjA9oz9GiPac4AsH4n";
     playlist_label := lit "Halloween Radio - Main" |}.

Definition secondPlaylist : Playlist :=
  {| playlist_id := lit "5v5ETK9WFXAnGQ3MRubKuE";
     playlist_label := lit "Halloween Radio - Movies" |}.

Definition tunedService : Service :=
  {| database := emptyDatabase;
     playlists := {[ lit "main" := mainPlaylist ]};
     playlistTrackCounts := {[ lit "main" := 0 ]};
     appended := [] |}.

Definition monsterMashTrack : Track :=
  {| track_id := lit "6bFCr8pVJ3WC5fE5tZqyQd";
     track_name := lit "Monster Mash";
     first_artist := lit "Bobby Pickett";
     more_artists := [];
     external_url :=
       Some (lit "https://open.spotify.com/track/6bFCr8pVJ3WC5fE5tZqyQd") |}.

Definition monsterMashCall : PipelineCall :=
  {| pc_station := lit "Main";
     pc_artist := lit "Bobby Pickett";
     pc_title := lit "Monster Mash";
     pc_metadata := metadataOf (lit "Bobby Pickett") (lit "Monster Mash") |}.

(** A catalog that serves the pages of the list [items] for every playlist;
    it accepts the requests that empty a playlist or remove from it, and
    the request that adds tracks when [adds] is set. *)
Definition servingApi (items : list PlaylistItem) (adds : bool) : PlaylistApi :=
  {| getPlaylistTracks :=
       fun _ offset limit => Some (take limit (drop offset items));
     accepted :=
       fun request =>
         match request with
         | AddTracksToPlaylist _ _ => adds
         | _ => true
         end |}.

(** A playlist that holds the Monster Mash twice. *)
Definition twiceMonsterMash : list PlaylistItem :=
  [ {| item_track := Some monsterMashTrack |};
    {| item_track := Some unrelatedTrack |};
    {| item_track := None |};
    {| item_track := Some monsterMashTrack |} ].

(** A catalog that rejects the playlists request with the user id and
    serves the list [all] to the request without it. *)
Definition fallbackApi (all : list (option Playlist)) : PlaylistsApi :=
  {| getUserPlaylists :=
       fun withUserId offset limit =>
         if withUserId then RequestRejected
         else PlaylistItems (take limit (drop offset all)) |}.

(** ** Predicates of the statements *)

(** [p] occurs in [s]. *)
Definition occursIn (p s : jsstring) : Prop :=
  exists pre post : jsstring, s = pre ++ p ++ post.

(** The normalisation in the words of the specification: lower-case, and
    strip every character that is neither alphanumeric nor white space. *)
Definition isAlphanumeric (c : N) : bool :=
  ((48 <=? c) && (c <=? 57)) || ((65 <=? c) && (c <=? 90))
  || ((97 <=? c) && (c <=? 122)).

Definition normalizedAsStated (s : jsstring) : jsstring :=
  List.filter (fun c => isAlphanumeric c || isWhiteSpace c) (toLowerCase s).

(** Whether candidate [t] replaces a current best of similarity [b] in
    [scanTracks]. *)
Definition replaces (score : Track -> number) (accept : number -> bool)
    (b : number) (t : Track) : Prop :=
  jsGt (score t) b = true /\ accept (score t) = true.

(** The UNIQUE constraint on [spotify_id] as a property of the table. *)
Definition uniqueSpotifyIds (db : Database) : Prop :=
  NoDup (map spotify_id (matched_tracks db)).

(** A string without white space at its two ends. *)
Definition noOuterSpace (s : jsstring) : Prop :=
  (forall (c : N) (r : jsstring), s = c :: r -> isWhiteSpace c = false)
  /\ (forall (r : jsstring) (c : N), s = r ++ [c] -> isWhiteSpace c = false).

(** The artist and title that [handleMetadata] compares. *)
Definition trackKey (t : ParsedTrack) : jsstring * jsstring :=
  (artist t, title t).

(** A list of pipeline calls in which every call differs, in artist or in
    title, from the one before it; [stored] is what the first is compared
    with. *)
Fixpoint eachChanges (stored : option (jsstring * jsstring))
    (calls : list PipelineCall) : Prop :=
  match calls with
  | [] => True
  | c :: rest =>
      stored <> Some (pc_artist c, pc_title c)
      /\ eachChanges (Some (pc_artist c, pc_title c)) rest
  end.

(** The URI under which a catalog id is appended to a playlist. *)
Definition trackUri (id : jsstring) : jsstring := lit "spotify:track:" ++ id.

(** A sequence of pipeline calls, each with the catalog as it answers at
    that time and its clock reading; the results are collected in order. *)
Fixpoint searchAndAddTracks (compareTwoStrings : jsstring -> jsstring -> number)
    (calls : list (SpotifyApi * jsstring * PipelineCall)) (svc : Service)
  : list bool * Service :=
  match calls with
  | [] => ([], svc)
  | (api, now, call) :: rest =>
      let '(ok, svc1) :=
        searchAndAddTrack compareTwoStrings api now (pc_station call)
          (pc_artist call) (pc_title call) (pc_metadata call) svc in
      let '(oks, svc2) := searchAndAddTracks compareTwoStrings rest svc1 in
      (ok :: oks, svc2)
  end.


(** AUTOINCREMENT as a property of a table: the ids of the rows increase in
    the order of insertion and none exceeds the counter. *)
Definition ascendingIds (ids : list N) (seq : N) : Prop :=
  StronglySorted N.lt ids /\ Forall (fun i => i <= seq) ids.

(** The row ids that a list of results reports. *)
Definition returnedIds (results : list (Completion (option N))) : list N :=
  flat_map (fun result =>
              match result with
              | Returned (Some lastID) => [lastID]
              | _ => []
              end) results.

(** A row of the daily statistics whose counters add up: every processed
    track is matched, duplicated or unmatched, and every matched track was
    added. *)
Definition balanced (r : StatsRow) : Prop :=
  tracks_processed r
  = tracks_matched r + tracks_duplicated r + tracks_unmatched r
  /\ tracks_added r = tracks_matched r.

(** A sequence of [updatePlaylistInfo] calls, each with its two clock
    readings, station, playlist id and playlist name. *)
Definition updatePlaylistInfos
    (updates : list (jsstring * jsstring * jsstring * jsstring * jsstring))
    (tbl : PlaylistsTable) : PlaylistsTable :=
  foldl (fun tbl '(createdNow, updatedNow, station, playlistId, playlistName) =>
           updatePlaylistInfo createdNow updatedNow station playlistId
             playlistName tbl)
        tbl updates.

(** A sequence of retries of one unmatched track, each with its clock
    reading and its new match, if any. *)
Definition retryUnmatchedTracks (trackId : N)
    (retries : list (jsstring * option RetryMatch)) (db : Database)
  : Database :=
  foldl (fun db '(now, newMatchData) =>
           retryUnmatchedTrack now trackId newMatchData db)
        db retries.

(** The track id of a playlist item that has one. *)
Definition itemId (item : PlaylistItem) : option jsstring :=
  match item_track item with
  | Some t => if isEmpty (track_id t) then None else Some (track_id t)
  | None => None
  end.

(** The track ids of the items of a playlist, in order. *)
Definition trackIds (items : list PlaylistItem) : list jsstring :=
  omap itemId items.

(** The ids of a list without the repetitions: of every id the first
    occurrence, in the order of the list. *)
Definition firstOccurrences (ids : list jsstring) : list jsstring :=
  reverse (remove_dups (reverse ids)).

(** A catalog that serves the pages of one fixed list of items for a
    playlist. *)
Definition servesItems (api : PlaylistApi) (playlistId : jsstring)
    (items : list PlaylistItem) : Prop :=
  forall offset limit : nat,
    getPlaylistTracks api playlistId offset limit
    = Some (take limit (drop offset items)).

(** What the first pass knows after the items with the track ids [ids]. *)
Definition firstPassOf (st : FirstPass) (ids : list jsstring) : Prop :=
  (forall id : jsstring, is_Some (seenTracks st !! id) <-> id ∈ ids)
  /\ totalTracks st = N.of_nat (length (firstOccurrences ids))
  /\ (duplicatePositions st = [] <-> NoDup ids).

(** A search that brings no items: rejected, or answered with none. *)
Definition noItems (api : SpotifyApi) (query : jsstring) : Prop :=
  searchTracks api query = None \/ searchTracks api query = Some [].

(** A catalog that serves the pages of one fixed list of playlists, to the
    request with the user id or, when it rejects that one, to the request
    without. *)
Definition servesPlaylists (api : PlaylistsApi)
    (all : list (option Playlist)) : Prop :=
  forall offset limit : nat,
    getUserPlaylists api true offset limit
    = PlaylistItems (take limit (drop offset all))
    \/ (getUserPlaylists api true offset limit = RequestRejected
        /\ getUserPlaylists api false offset limit
           = PlaylistItems (take limit (drop offset all))).

(** [migrateFromFileData] of DatabaseService on the two arrays of the parsed
    file, each entry with the clock reading of its insertion: every entry
    whose insertion does not throw counts as migrated. *)
Definition migrateFromFileData
    (matchedTracks : list (jsstring * MatchDetails))
    (unmatchedTracks : list (jsstring * UnmatchDetails)) (db : Database)
  : N * Database :=
  let '(results, db1) := addMatchedTracks matchedTracks db in
  let migratedMatched :=
    length (List.filter (fun result =>
                           match result with
                           | Returned _ => true
                           | Thrown _ => false
                           end) results) in
  let db2 :=
    foldl (fun db '(now, track) => snd (addUnmatchedTrack now track db))
      db1 unmatchedTracks in
  (N.of_nat (migratedMatched + length unmatchedTracks), db2).

(** The positions, from [position] on, of the items whose track id occurred
    before or is in [seen]. *)
Fixpoint repeatedPositions (position : nat) (seen : gset jsstring)
    (items : list PlaylistItem) : list nat :=
  match items with
  | [] => []
  | item :: rest =>
      match itemId item with
      | Some id =>
          if bool_decide (id ∈ seen)
          then position :: repeatedPositions (S position) seen rest
          else repeatedPositions (S position) ({[ id ]} ∪ seen) rest
      | None => repeatedPositions (S position) seen rest
      end
  end.

(** The items without those whose track id occurred before or is in
    [seen]. *)
Fixpoint withoutRepeats (seen : gset jsstring) (items : list PlaylistItem)
  : list PlaylistItem :=
  match items with
  | [] => []
  | item :: rest =>
      match itemId item with
      | Some id =>
          if bool_decide (id ∈ seen) then withoutRepeats seen rest
          else item :: withoutRepeats ({[ id ]} ∪ seen) rest
      | None => item :: withoutRepeats seen rest
      end
  end.

(** What is left of a list of items when the items at the given positions
    are removed one after the other. *)
Definition removeAt (items : list PlaylistItem) (positions : list nat)
  : list PlaylistItem :=
  foldl (fun l position => delete position l) items positions.

(** * Properties *)

(** ** Strings: prefix test, [split] and [join] *)

Lemma startsWith_app (p q : list N) : startsWith p (p ++ q) = true.
Proof.
  induction p as [|a p IH]; simpl; [done|].
  by rewrite N.eqb_refl, IH.
Qed.

Lemma startsWith_drop (p s : list N) :
  startsWith p s = true → s = p ++ skipn (length p) s.
Proof.
  revert s. induction p as [|a p IH]; intros s H; simpl; [done|].
  destruct s as [|b s]; simpl in H; [done|].
  apply andb_true_iff in H as [Hab Hps].
  apply N.eqb_eq in Hab. subst b. simpl. f_equal. by apply IH.
Qed.

Lemma startsWith_length (p s : list N) :
  startsWith p s = true → (length p ≤ length s)%nat.
Proof.
  intros H. apply startsWith_drop in H.
  rewrite H, length_app. lia.
Qed.

Lemma includes_nil (p : list N) : p ≠ [] → includes [] p = false.
Proof. by destruct p. Qed.

Lemma split_go_nonempty (sep : list N) (k : nat) (cur s : list N) :
  split_go sep k cur s ≠ [].
Proof.
  revert k cur. induction s as [|c s IH]; intros k cur; simpl; [done|].
  destruct k as [|k]; [|apply IH].
  destruct (startsWith sep (c :: s)); [done|apply IH].
Qed.

Lemma join_cons (sep p : list N) (rest : list (list N)) :
  rest ≠ [] → join sep (p :: rest) = p ++ sep ++ join sep rest.
Proof. by destruct rest. Qed.

(** Joining the parts on the separator gives the text back. *)
Lemma split_go_join (sep : list N) (s : list N) :
  sep ≠ [] →
  ∀ (k : nat) (cur : list N),
    (k ≤ length s)%nat →
    join sep (split_go sep k cur s) = rev cur ++ skipn k s.
Proof.
  intros Hsep. induction s as [|c s IH]; intros k cur Hk; simpl in *.
  - assert (k = O) as -> by lia. simpl. by rewrite app_nil_r.
  - destruct k as [|k]; simpl.
    + destruct (startsWith sep (c :: s)) eqn:Hst.
      * rewrite join_cons by apply split_go_nonempty.
        pose proof (startsWith_length _ _ Hst) as Hlen.
        pose proof (startsWith_drop _ _ Hst) as Hdrop.
        destruct sep as [|a sep]; [done|]. simpl in *.
        rewrite IH by lia. simpl. rewrite Nat.sub_0_r.
        injection Hdrop as -> Hs. by rewrite <- Hs.
      * rewrite IH by lia. simpl. by rewrite <- app_assoc.
    + apply IH. lia.
Qed.

Lemma split_join (s sep : list N) : sep ≠ [] → join sep (split s sep) = s.
Proof.
  intros Hsep. unfold split. destruct sep as [|a sep]; [done|].
  by rewrite split_go_join by (done || simpl; lia).
Qed.

(** A separator that occurs yields at least two parts. *)
Lemma split_go_length (sep : list N) (s : list N) :
  sep ≠ [] →
  ∀ cur : list N,
    includes s sep = true → (2 ≤ length (split_go sep 0 cur s))%nat.
Proof.
  intros Hsep. induction s as [|c s IH]; intros cur Hinc.
  - by rewrite includes_nil in Hinc.
  - simpl in *. destruct (startsWith sep (c :: s)) eqn:Hst.
    + simpl. pose proof (split_go_nonempty sep (length sep - 1) [] s).
      destruct (split_go sep (length sep - 1) [] s); [done|simpl; lia].
    + simpl in Hinc. by apply IH.
Qed.

Lemma split_length (s sep : list N) :
  sep ≠ [] → includes s sep = true → (2 ≤ length (split s sep))%nat.
Proof.
  intros Hsep Hinc. unfold split. destruct sep as [|a sep]; [done|].
  by apply split_go_length.
Qed.

(** The first part ends where the leftmost occurrence of the separator
    starts. *)
Lemma split_go_first (sep : list N) (s : list N) :
  ∀ (cur left : list N) (rest : list (list N)),
    split_go sep 0 cur s = left :: rest → rest ≠ [] →
    ∃ pre : list N,
      left = rev cur ++ pre
      ∧ ∀ p q : list N, s = p ++ sep ++ q → (length pre ≤ length p)%nat.
Proof.
  induction s as [|c s IH]; intros cur left rest Hsplit Hrest; simpl in *.
  - by injection Hsplit as <- <-.
  - destruct (startsWith sep (c :: s)) eqn:Hst.
    + injection Hsplit as <- _. exists []. split.
      * by rewrite app_nil_r.
      * intros; simpl; lia.
    + destruct (IH _ _ _ Hsplit Hrest) as (pre & -> & Hleft).
      exists (c :: pre). split.
      * simpl. by rewrite <- app_assoc.
      * intros p q Hpq. destruct p as [|c' p]; simpl in *.
        -- rewrite Hpq, startsWith_app in Hst. done.
        -- injection Hpq as _ Hs. specialize (Hleft _ _ Hs). lia.
Qed.

(** [split] in one statement: the parts, the text they come from, and the
    place of the first cut. *)
Lemma split_occurs (s sep : list N) :
  sep ≠ [] → includes s sep = true →
  ∃ (left : list N) (rest : list (list N)),
    split s sep = left :: rest ∧ rest ≠ []
    ∧ s = left ++ sep ++ join sep rest
    ∧ ∀ p q : list N, s = p ++ sep ++ q → (length left ≤ length p)%nat.
Proof.
  intros Hsep Hinc.
  pose proof (split_length s sep Hsep Hinc) as Hlen.
  pose proof (split_join s sep Hsep) as Hjoin.
  destruct (split s sep) as [|left rest] eqn:Hsplit; [simpl in Hlen; lia|].
  assert (rest ≠ []) as Hrest by (destruct rest; [simpl in Hlen; lia|done]).
  exists left, rest. split_and!; [done|done| |].
  - by rewrite <- Hjoin, join_cons.
  - unfold split in Hsplit. destruct sep as [|a sep]; [done|].
    destruct (split_go_first _ _ _ _ _ Hsplit Hrest) as (pre & -> & Hleft).
    done.
Qed.

Lemma includes_unfold (s p : list N) :
  includes s p
  = startsWith p s
    || match s with
       | [] => false
       | _ :: s' => includes s' p
       end.
Proof. by destruct s. Qed.

(** [includes] decides occurrence. *)
Lemma includes_spec (s p : list N) : includes s p = true ↔ occursIn p s.
Proof.
  unfold occursIn. split.
  - induction s as [|c s IH]; simpl; intros H.
    + rewrite orb_false_r in H. apply startsWith_drop in H.
      by exists [], (skipn (length p) []).
    + apply orb_true_iff in H as [H|H].
      * apply startsWith_drop in H. by exists [], (skipn (length p) (c :: s)).
      * destruct (IH H) as (pre & post & ->). by exists (c :: pre), post.
  - intros (pre & post & ->). induction pre as [|c pre IH]; simpl.
    + by rewrite includes_unfold, startsWith_app.
    + rewrite IH. apply orb_true_r.
Qed.

(** ** Strings: [trim], [toLowerCase] and [clean] *)

Lemma trimStart_elem (x : N) (s : list N) : x ∈ trimStart s → x ∈ s.
Proof.
  induction s as [|c s IH]; simpl; [done|].
  destruct (isWhiteSpace c); [|done]. intros H. right. by apply IH.
Qed.

Lemma trim_elem (x : N) (s : list N) : x ∈ trim s → x ∈ s.
Proof.
  unfold trim, trimEnd. intros H.
  apply list_elem_of_In, in_rev, list_elem_of_In in H.
  apply trimStart_elem in H.
  apply list_elem_of_In, in_rev, list_elem_of_In in H.
  by apply trimStart_elem.
Qed.

Lemma toLowerCase_elem (x : N) (s : list N) :
  x ∈ toLowerCase s → ¬ (65 ≤ x ∧ x ≤ 90).
Proof.
  unfold toLowerCase. rewrite list_elem_of_In, in_flat_map.
  intros (c & _ & Hx). unfold lowerUnit in Hx.
  destruct ((65 <=? c) && (c <=? 90)) eqn:U.
  - apply andb_true_iff in U as [U1 U2].
    apply N.leb_le in U1, U2. destruct Hx as [<-|[]]. lia.
  - destruct (N.eqb_spec c 304);
      [destruct Hx as [<-|[<-|[]]]; lia|].
    destruct (N.eqb_spec c 8490); [destruct Hx as [<-|[]]; lia|].
    destruct Hx as [<-|[]]. intros [H1 H2].
    apply N.leb_le in H1, H2. by rewrite H1, H2 in U.
Qed.

(** What [clean] leaves: word characters and white space, no capital. *)
Lemma clean_elem (x : N) (s : list N) :
  x ∈ clean s →
  (isWordChar x || isWhiteSpace x = true) ∧ ¬ (65 ≤ x ∧ x ≤ 90).
Proof.
  unfold clean. intros H. apply trim_elem in H.
  apply list_elem_of_In, filter_In in H as [H K].
  split; [done|]. apply list_elem_of_In in H. by eapply toLowerCase_elem.
Qed.

Lemma trimStart_decomp (s : list N) :
  ∃ pre : list N,
    s = pre ++ trimStart s
    ∧ Forall (fun c => isWhiteSpace c = true) pre
    ∧ ∀ (c : N) (r : list N), trimStart s = c :: r → isWhiteSpace c = false.
Proof.
  induction s as [|a s (pre & E & F & H)]; simpl.
  - exists []. by split_and!.
  - destruct (isWhiteSpace a) eqn:W.
    + exists (a :: pre). split_and!; [by rewrite E at 1|by constructor|done].
    + exists []. split_and!; [done|constructor|]. by intros c r [= <- _].
Qed.

Lemma trimStart_id (s : list N) :
  (∀ (c : N) (r : list N), s = c :: r → isWhiteSpace c = false) →
  trimStart s = s.
Proof.
  destruct s as [|c r]; [done|]. intros H. simpl. by rewrite (H c r).
Qed.

Lemma trimStart_nil_iff (s : list N) :
  trimStart s = [] ↔ Forall (fun c => isWhiteSpace c = true) s.
Proof.
  induction s as [|a s IH]; simpl; [by split|].
  destruct (isWhiteSpace a) eqn:W.
  - rewrite IH. split; [by constructor|by inversion 1].
  - split; [done|]. inversion 1; congruence.
Qed.

Lemma trim_decomp (s : list N) :
  ∃ pre post : list N,
    s = pre ++ trim s ++ post
    ∧ Forall (fun c => isWhiteSpace c = true) pre
    ∧ Forall (fun c => isWhiteSpace c = true) post
    ∧ noOuterSpace (trim s).
Proof.
  unfold trim, trimEnd.
  destruct (trimStart_decomp s) as (pre & E1 & F1 & H1).
  destruct (trimStart_decomp (rev (trimStart s))) as (post & E2 & F2 & H2).
  set (x := trimStart s) in *. set (y := trimStart (rev x)) in *.
  assert (x = rev y ++ rev post) as Ex.
  { rewrite <- rev_app_distr, <- E2. by rewrite rev_involutive. }
  exists pre, (rev post). split_and!.
  - by rewrite <- Ex.
  - done.
  - by apply Forall_rev.
  - split.
    + intros c r E. apply (H1 c (r ++ rev post)). by rewrite Ex, E.
    + intros r c E. apply (H2 c (rev r)).
      rewrite <- (rev_involutive y), E, rev_app_distr. done.
Qed.

Lemma trim_noOuterSpace (s : list N) : noOuterSpace (trim s).
Proof. by destruct (trim_decomp s) as (_ & _ & _ & _ & _ & H). Qed.

Lemma trim_id (s : list N) : noOuterSpace s → trim s = s.
Proof.
  intros [H1 H2]. unfold trim, trimEnd. rewrite (trimStart_id s H1).
  rewrite trimStart_id; [apply rev_involutive|].
  intros c r E. apply (H2 (rev r) c).
  by rewrite <- (rev_involutive s), E.
Qed.

Lemma trim_idempotent (s : list N) : trim (trim s) = trim s.
Proof. apply trim_id, trim_noOuterSpace. Qed.

Lemma trim_nil_iff (s : list N) :
  trim s = [] ↔ Forall (fun c => isWhiteSpace c = true) s.
Proof.
  unfold trim, trimEnd. split.
  - intros H. apply (f_equal (@rev N)) in H. rewrite rev_involutive in H.
    simpl in H. apply trimStart_nil_iff, Forall_rev in H.
    rewrite rev_involutive in H.
    destruct (trimStart_decomp s) as (pre & E & F & Hh).
    destruct (trimStart s) as [|c r] eqn:T; [by apply trimStart_nil_iff|].
    inversion H as [|? ? W _]; subst. by rewrite (Hh c r eq_refl) in W.
  - intros H. apply trimStart_nil_iff in H. by rewrite H.
Qed.

(** A string with a code unit that is no white space does not trim to the
    empty string. *)
Lemma trim_nonempty (s : list N) (c : N) :
  c ∈ s → isWhiteSpace c = false → trim s ≠ [].
Proof.
  intros Hin W E. apply trim_nil_iff in E.
  rewrite Forall_forall in E. specialize (E c Hin). congruence.
Qed.

(** The strings that [clean] leaves as they are: those of lower-case
    letters, digits, underscores and white space, without white space at
    the two ends. *)
Lemma clean_id (s : list N) :
  Forall (fun c => (isWordChar c || isWhiteSpace c = true)
                   ∧ ¬ (65 ≤ c ∧ c ≤ 90)) s →
  noOuterSpace s → clean s = s.
Proof.
  intros F Hs. unfold clean.
  assert (toLowerCase s = s) as ->.
  { clear Hs. unfold toLowerCase.
    induction F as [|c s [Hc Hu] F IH]; simpl; [done|].
    rewrite IH. unfold lowerUnit.
    destruct ((65 <=? c) && (c <=? 90)) eqn:U.
    - apply andb_true_iff in U as [U1 U2]. apply N.leb_le in U1, U2. lia.
    - destruct (N.eqb_spec c 304) as [->|]; [by vm_compute in Hc|].
      destruct (N.eqb_spec c 8490) as [->|]; [by vm_compute in Hc|]. done. }
  assert (List.filter (fun c => isWordChar c || isWhiteSpace c) s = s) as ->.
  { clear Hs. induction F as [|c s [Hc Hu] F IH]; simpl; [done|].
    by rewrite Hc, IH. }
  by apply trim_id.
Qed.

Lemma clean_noOuterSpace (s : list N) : noOuterSpace (clean s).
Proof. apply trim_noOuterSpace. Qed.

Lemma clean_idempotent (s : list N) : clean (clean s) = clean s.
Proof.
  apply clean_id; [|apply clean_noOuterSpace].
  apply Forall_forall. intros c. apply clean_elem.
Qed.

(** ** MetadataNormalizer: [parseStreamTitle] *)

Lemma separators_nonempty : Forall (fun s : list N => s ≠ []) separators.
Proof. repeat constructor; done. Qed.

Lemma parseWith_skip (pre seps : list (list N)) (t : list N) :
  Forall (fun s => includes t s = false) pre →
  parseWith (pre ++ seps) t = parseWith seps t.
Proof.
  induction 1 as [|s pre Hs _ IH]; simpl; [done|]. by rewrite Hs.
Qed.

Lemma parseWith_none (seps : list (list N)) (t : list N) :
  Forall (fun s => includes t s = false) seps →
  parseWith seps t
  = {| artist := lit "Unknown Artist"; title := t; original := t |}.
Proof.
  intros H. rewrite <- (app_nil_r seps). by rewrite parseWith_skip.
Qed.

Lemma parseWith_original (seps : list (list N)) (t : list N) :
  original (parseWith seps t) = t.
Proof.
  induction seps as [|s seps IH]; cbn [parseWith]; [done|].
  destruct (includes t s); [|apply IH].
  destruct (2 <=? length (split t s))%nat; [|apply IH].
  by destruct (isBy s).
Qed.

Lemma absent_includes (t : list N) (seps : list (list N)) :
  Forall (fun s => ¬ occursIn s t) seps →
  Forall (fun s => includes t s = false) seps.
Proof.
  intros F. eapply Forall_impl; [exact F|]. intros s H. simpl in H.
  destruct (includes t s) eqn:E; [|done]. by apply includes_spec in E.
Qed.




(** C6 (amended statement).  The [original] field of the parsed track is the
    announcement text with the white space at its two ends removed, whatever
    the parse; it is the text verbatim when the text has no white space at
    its ends.  When no separator occurs, the result is the record with artist
    "Unknown Artist" and the trimmed text as title and as original. *)
Theorem C6_original_is_trimmed_text (streamTitle : list N) :
  original (parseStreamTitle streamTitle) = trim streamTitle
  ∧ (trim streamTitle = streamTitle →
     original (parseStreamTitle streamTitle) = streamTitle)
  ∧ (Forall (fun s => ¬ occursIn s (trim streamTitle)) separators →
     parseStreamTitle streamTitle
     = {| artist := lit "Unknown Artist";
          title := trim streamTitle;
          original := trim streamTitle |}).
Proof.
  unfold parseStreamTitle. split_and!.
  - apply parseWith_original.
  - intros H. by rewrite parseWith_original.
  - intros H. by apply parseWith_none, absent_includes.
Qed.

Lemma C6_witness :
  original (parseStreamTitle (lit "Thriller")) = lit "Thriller"
  ∧ parseStreamTitle (lit " Thriller ")
    = {| artist := lit "Unknown Artist";
         title := trim (lit " Thriller ");
         original := trim (lit " Thriller ") |}.
Proof.
  split.
  - apply (proj1 (proj2 (C6_original_is_trimmed_text (lit "Thriller")))).
    reflexivity.
  - apply (proj2 (proj2 (C6_original_is_trimmed_text (lit " Thriller ")))).
    repeat constructor; intros H; apply includes_spec in H;
      vm_compute in H; discriminate.
Defined.

(** Counterexample to C6 as the specification states it: the text " A"
    comes back as "A". *)
Lemma C6_counterexample :
  ¬ (∀ streamTitle : list N,
       original (parseStreamTitle streamTitle) = streamTitle).
Proof. intros H. specialize (H (lit " A")). vm_compute in H. discriminate. Qed.

(** ** ChangeDetector: [handleMetadata] *)

Lemma isEmpty_true (s : list N) : isEmpty s = true ↔ s = [].
Proof. by destruct s. Qed.

Lemma isEmpty_false (s : list N) : isEmpty s = false ↔ s ≠ [].
Proof. by destruct s. Qed.

Lemma sameTrack_spec (lastTrack : option ParsedTrack) (c : ParsedTrack) :
  sameTrack lastTrack c = true
  ↔ ∃ l, lastTrack = Some l ∧ artist l = artist c ∧ title l = title c.
Proof.
  destruct lastTrack as [l|]; simpl.
  - rewrite andb_true_iff, !bool_decide_eq_true. split.
    + intros [Ha Ht]. by exists l.
    + by intros (l' & [= <-] & Ha & Ht).
  - split; [done|]. by intros (l & Hl & _).
Qed.

Lemma sameTrack_refl (c : ParsedTrack) : sameTrack (Some c) c = true.
Proof. apply sameTrack_spec. by exists c. Qed.


(** What [handleMetadata] does with a parse that has an artist and a title. *)
Lemma handleMetadata_proper (now stationName streamTitle : list N)
    (lastMetadata : gmap (list N) ParsedTrack) :
  artist (parseStreamTitle streamTitle) ≠ [] →
  title (parseStreamTitle streamTitle) ≠ [] →
  handleMetadata now stationName (Some streamTitle) lastMetadata
  = if sameTrack (lastMetadata !! stationName) (parseStreamTitle streamTitle)
    then (lastMetadata, None)
    else
      (<[stationName := parseStreamTitle streamTitle]> lastMetadata,
       Some {| pc_station := capitalizeStationName stationName;
               pc_artist := artist (parseStreamTitle streamTitle);
               pc_title := title (parseStreamTitle streamTitle);
               pc_metadata :=
                 {| md_track := parseStreamTitle streamTitle;
                    md_station := stationName;
                    md_timestamp := now |} |}).
Proof.
  intros Ha Ht. unfold handleMetadata.
  destruct (isEmpty streamTitle) eqn:He.
  - apply isEmpty_true in He. subst. by vm_compute in Ht.
  - apply isEmpty_false in Ha, Ht. by rewrite Ha, Ht.
Qed.




Lemma feedFrames_twice (now stationName streamTitle : list N)
    (lastMetadata : gmap (list N) ParsedTrack) :
  artist (parseStreamTitle streamTitle) ≠ [] →
  title (parseStreamTitle streamTitle) ≠ [] →
  length (snd (feedFrames now stationName
                 [Some streamTitle; Some streamTitle] lastMetadata))
  = if sameTrack (lastMetadata !! stationName) (parseStreamTitle streamTitle)
    then O else 1%nat.
Proof.
  intros Ha Ht. cbn [feedFrames].
  rewrite (handleMetadata_proper now stationName streamTitle lastMetadata Ha Ht).
  destruct (sameTrack _ _) eqn:Hsame.
  - rewrite (handleMetadata_proper now stationName streamTitle lastMetadata Ha Ht).
    by rewrite Hsame.
  - rewrite (handleMetadata_proper now stationName streamTitle _ Ha Ht).
    by rewrite lookup_insert_eq, sameTrack_refl.
Qed.

(** C5 (amended statement).  A parsed track that has an artist and a title
    is dropped (last-seen track kept, no call of the pipeline, service state
    untouched) exactly when the station has a stored last-seen track with the
    same artist and the same title; otherwise it replaces the stored track
    and the pipeline is called with it.  Two consecutive identical
    announcements of such a track call the pipeline once when the track
    differs from the stored one, and not at all when it equals it. *)
Theorem C5_change_detection
    (compareTwoStrings : list N → list N → number) (api : SpotifyApi)
    (now stationName streamTitle : list N)
    (lastMetadata : gmap (list N) ParsedTrack) (svc : Service) :
  let currentTrack := parseStreamTitle streamTitle in
  let stored :=
    ∃ l, lastMetadata !! stationName = Some l
         ∧ artist l = artist currentTrack ∧ title l = title currentTrack in
  artist currentTrack ≠ [] → title currentTrack ≠ [] →
  (handleMetadata now stationName (Some streamTitle) lastMetadata
   = (lastMetadata, None) ↔ stored)
  ∧ (stored →
     processFrame compareTwoStrings api now stationName (Some streamTitle)
       (lastMetadata, svc) = (lastMetadata, svc))
  ∧ (¬ stored →
     ∃ call,
       handleMetadata now stationName (Some streamTitle) lastMetadata
       = (<[stationName := currentTrack]> lastMetadata, Some call)
       ∧ pc_artist call = artist currentTrack
       ∧ pc_title call = title currentTrack
       ∧ md_track (pc_metadata call) = currentTrack)
  ∧ (¬ stored →
     length (snd (feedFrames now stationName
                    [Some streamTitle; Some streamTitle] lastMetadata))
     = 1%nat)
  ∧ (stored →
     length (snd (feedFrames now stationName
                    [Some streamTitle; Some streamTitle] lastMetadata))
     = O).
Proof.
  intros currentTrack stored Ha Ht.
  pose proof (handleMetadata_proper now stationName streamTitle lastMetadata Ha Ht) as E.
  pose proof (feedFrames_twice now stationName streamTitle lastMetadata Ha Ht) as F.
  pose proof (sameTrack_spec (lastMetadata !! stationName) currentTrack) as S.
  fold currentTrack in E, F. fold stored in S.
  destruct (sameTrack (lastMetadata !! stationName) currentTrack).
  - assert stored as Hs by by apply S.
    split_and!; try done.
    intros _. unfold processFrame. cbn [fst snd]. by rewrite E.
  - assert (¬ stored) as Hs by (intros Hs; by apply S in Hs).
    split_and!; try done.
    + rewrite E. split; [done|]. intros; done.
    + intros _. eexists. split; [exact E|done].
Qed.

Lemma C5_witness :
  length (snd (feedFrames halloween (lit "main")
                 [Some (lit "Bobby Pickett - Monster Mash");
                  Some (lit "Bobby Pickett - Monster Mash")] ∅))
  = 1%nat
  ∧ length (snd (feedFrames halloween (lit "main")
                   [Some (lit "Bobby Pickett - Monster Mash");
                    Some (lit "Bobby Pickett - Monster Mash")]
                   {[ lit "main" :=
                        parseStreamTitle (lit "Bobby Pickett - Monster Mash") ]}))
    = O.
Proof.
  split.
  - refine (proj1 (proj2 (proj2 (proj2
      (C5_change_detection StringSimilarity.compareTwoStrings noCatalog
         halloween (lit "main") (lit "Bobby Pickett - Monster Mash") ∅
         freshService _ _)))) _).
    + vm_compute. discriminate.
    + vm_compute. discriminate.
    + intros (l & Hl & _). by rewrite lookup_empty in Hl.
  - refine (proj2 (proj2 (proj2 (proj2
      (C5_change_detection StringSimilarity.compareTwoStrings noCatalog
         halloween (lit "main") (lit "Bobby Pickett - Monster Mash")
         {[ lit "main" :=
              parseStreamTitle (lit "Bobby Pickett - Monster Mash") ]}
         freshService _ _)))) _).
    + vm_compute. discriminate.
    + vm_compute. discriminate.
    + eexists. split; [apply lookup_singleton_eq|done].
Defined.

(** Counterexample to C5 as the specification states it: on a station with
    no stored track the announcement ": Thriller" (empty artist) is dropped
    although no stored track equals it, and two such announcements in a row
    call the pipeline not once but never. *)
Lemma C5_counterexample :
  handleMetadata halloween (lit "main") (Some (lit ": Thriller")) ∅ = (∅, None)
  ∧ sameTrack ((∅ : gmap (list N) ParsedTrack) !! lit "main")
      (parseStreamTitle (lit ": Thriller")) = false
  ∧ length (snd (feedFrames halloween (lit "main")
                   [Some (lit ": Thriller"); Some (lit ": Thriller")] ∅))
    = O.
Proof. split_and!; reflexivity. Qed.

(** ** StatsAggregator: [updateDailyStats] *)

Lemma find_app {A : Type} (f : A → bool) (l1 l2 : list A) :
  List.find f (l1 ++ l2)
  = match List.find f l1 with
    | Some x => Some x
    | None => List.find f l2
    end.
Proof.
  induction l1 as [|x l1 IH]; simpl; [done|]. by destruct (f x).
Qed.

Lemma find_none_Forall {A : Type} (f : A → bool) (l : list A) :
  Forall (fun x => f x = false) l → List.find f l = None.
Proof. induction 1 as [|x l Hx _ IH]; simpl; [done|]. by rewrite Hx. Qed.

Lemma find_filter_keep {A : Type} (f keep : A → bool) (l : list A) :
  (∀ x, f x = true → keep x = true) →
  List.find f (List.filter keep l) = List.find f l.
Proof.
  intros H. induction l as [|x l IH]; simpl; [done|].
  destruct (f x) eqn:Hf.
  - rewrite (H x Hf). simpl. by rewrite Hf.
  - destruct (keep x); simpl; [by rewrite Hf|done].
Qed.

Lemma find_map_key {A : Type} (f : A → bool) (g : A → A) (l : list A) :
  (∀ x, f (g x) = f x) →
  List.find f (map g l) = g <$> List.find f l.
Proof.
  intros H. induction l as [|x l IH]; simpl; [done|].
  rewrite H. by destruct (f x).
Qed.

Lemma find_map_same {A : Type} (f : A → bool) (g : A → A) (l : list A) :
  (∀ x, f (g x) = f x) → (∀ x, f x = true → g x = x) →
  List.find f (map g l) = List.find f l.
Proof.
  intros H1 H2. induction l as [|x l IH]; simpl; [done|].
  rewrite H1. destruct (f x) eqn:Hf; [|done]. by rewrite H2.
Qed.

Lemma statsKey_true (d s : list N) (r : StatsRow) :
  statsKey d s r = true ↔ date r = d ∧ station r = s.
Proof. unfold statsKey. by rewrite andb_true_iff, !bool_decide_eq_true. Qed.

Lemma statsKey_applyUpdates (d s now : list N) (row : StatsRow) (u : Updates)
    (r : StatsRow) :
  statsKey d s (applyUpdates now row u r) = statsKey d s r.
Proof. done. Qed.

(** After the [INSERT OR REPLACE] the new row is the only one of its date. *)
Lemma insertOrReplaceStats_dates (e : StatsRow) (tbl : list StatsRow) :
  Forall (fun r => date r ≠ date e)
    (List.filter (fun old => negb (statsConflict e old)) tbl).
Proof.
  induction tbl as [|r tbl IH]; simpl; [constructor|].
  destruct (statsConflict e r) eqn:Hc; simpl; [done|].
  constructor; [|done].
  unfold statsConflict in Hc. apply orb_false_iff in Hc as [Hc _].
  by apply bool_decide_eq_false in Hc.
Qed.

Lemma selectStats_insertOrReplace (e : StatsRow) (tbl : list StatsRow) :
  selectStats (date e) (station e) (insertOrReplaceStats e tbl) = Some e.
Proof.
  unfold selectStats, insertOrReplaceStats. rewrite find_app.
  rewrite find_none_Forall.
  - simpl. unfold statsKey. by rewrite !bool_decide_eq_true_2.
  - eapply Forall_impl; [apply insertOrReplaceStats_dates|].
    intros r Hr. unfold statsKey. by rewrite bool_decide_eq_false_2.
Qed.

(** The row of the key after [updateDailyStats]. *)
Lemma selectStats_updateStatsTable (now s : list N) (type : StatType)
    (p : option Z) (seq : N) (tbl : list StatsRow) :
  selectStats (isoDate now) s (updateStatsTable now s type p seq tbl)
  = Some (applyUpdates now (ensuredStats now s seq tbl)
            (computeUpdates (ensuredStats now s seq tbl) type p)
            (ensuredStats now s seq tbl)).
Proof.
  unfold updateStatsTable.
  pose proof (selectStats_insertOrReplace (ensuredStats now s seq tbl) tbl) as E.
  change (date (ensuredStats now s seq tbl)) with (isoDate now) in E.
  change (station (ensuredStats now s seq tbl)) with s in E.
  rewrite E. unfold selectStats in *.
  rewrite (find_map_key (statsKey (isoDate now) s)
             (fun r => if statsKey (isoDate now) s r
                       then applyUpdates now _ _ r else r)).
  - rewrite E. simpl. unfold statsKey. simpl.
    by rewrite !bool_decide_eq_true_2.
  - intros r. destruct (statsKey (isoDate now) s r) eqn:Hk; [|done].
    by rewrite statsKey_applyUpdates.
Qed.

(** Rows of another date are left alone. *)
Lemma selectStats_other_date (now s d s' : list N) (type : StatType)
    (p : option Z) (seq : N) (tbl : list StatsRow) :
  d ≠ isoDate now →
  selectStats d s' (updateStatsTable now s type p seq tbl)
  = selectStats d s' tbl.
Proof.
  intros Hd.
  assert (selectStats d s'
            (insertOrReplaceStats (ensuredStats now s seq tbl) tbl)
          = selectStats d s' tbl) as E.
  { unfold selectStats, insertOrReplaceStats. rewrite find_app.
    rewrite find_filter_keep.
    - destruct (List.find (statsKey d s') tbl); [done|]. simpl.
      unfold statsKey. simpl. by rewrite (bool_decide_eq_false_2 (_ = d)).
    - intros r Hr. apply statsKey_true in Hr as [Hr _].
      unfold statsConflict. simpl.
      rewrite (bool_decide_eq_false_2 (date r = isoDate now)); [done|].
      congruence. }
  unfold updateStatsTable.
  destruct (selectStats (isoDate now) s _) as [row|]; [|done].
  rewrite <- E. unfold selectStats. apply find_map_same.
  - intros r. destruct (statsKey (isoDate now) s r); [|done].
    by rewrite statsKey_applyUpdates.
  - intros r Hr. apply statsKey_true in Hr as [Hr _].
    unfold statsKey. rewrite (bool_decide_eq_false_2 (date r = _)); [done|].
    congruence.
Qed.

(** A row of the same date for another station does not survive: the UNIQUE
    constraint on the column [date] makes the [INSERT OR REPLACE] delete it. *)
Lemma selectStats_other_station (now s s' : list N) (type : StatType)
    (p : option Z) (seq : N) (tbl : list StatsRow) :
  s' ≠ s →
  selectStats (isoDate now) s' (updateStatsTable now s type p seq tbl) = None.
Proof.
  intros Hs.
  assert (Forall (fun r => statsKey (isoDate now) s' r = false)
            (insertOrReplaceStats (ensuredStats now s seq tbl) tbl)) as F.
  { unfold insertOrReplaceStats. apply Forall_app. split.
    - eapply Forall_impl; [apply insertOrReplaceStats_dates|].
      intros r Hr. unfold statsKey. by rewrite bool_decide_eq_false_2.
    - constructor; [|constructor]. unfold statsKey. simpl.
      by rewrite (bool_decide_eq_false_2 (s = s')), andb_false_r. }
  unfold updateStatsTable.
  destruct (selectStats (isoDate now) s _) as [row|];
    [|by apply find_none_Forall].
  apply find_none_Forall. apply Forall_map.
  eapply Forall_impl; [exact F|]. intros r Hr. simpl.
  destruct (statsKey (isoDate now) s r); [|done].
  by rewrite statsKey_applyUpdates.
Qed.

Lemma orN_succ (x d : N) : orN (Some (x + 1)) d = x + 1.
Proof.
  unfold orN. destruct (N.eqb_spec (x + 1) 0) as [H|H]; [lia|done].
Qed.

Lemma applyUpdates_fields (now : list N) (e : StatsRow) (type : StatType)
    (p : option Z) :
  let r := applyUpdates now e (computeUpdates e type p) e in
  tracks_processed r = tracks_processed e + 1
  ∧ tracks_matched r = tracks_matched e + bump type matched
  ∧ tracks_added r = tracks_added e + bump type matched
  ∧ tracks_duplicated r = tracks_duplicated e + bump type duplicate
  ∧ tracks_unmatched r = tracks_unmatched e + bump type unmatched
  ∧ avg_match_percentage r
    = match type, truthyPercentage p with
      | matched, Some q =>
          orQ (Some (nextAverage (avg_match_percentage e)
                       (tracks_matched e) q))
            (avg_match_percentage e)
      | _, _ => avg_match_percentage e
      end.
Proof.
  destruct type; cbn [applyUpdates computeUpdates tracks_processed
    tracks_matched tracks_added tracks_duplicated tracks_unmatched
    avg_match_percentage up_processed up_matched up_added up_duplicated
    up_unmatched up_avg];
    rewrite ?orN_succ; unfold bump; cbn [orN orQ];
    rewrite ?bool_decide_eq_true_2, ?bool_decide_eq_false_2 by done;
    rewrite ?N.add_0_r; split_and!; try done.
  by destruct (truthyPercentage p).
Qed.

Lemma currentStats_updateDailyStats (now s : list N) (type : StatType)
    (p : option Z) (db : Database) :
  selectStats (isoDate now) s (stats (updateDailyStats now s type p db))
  = Some (applyUpdates now (ensuredStats now s (stats_seq db) (stats db))
            (computeUpdates (ensuredStats now s (stats_seq db) (stats db))
               type p)
            (ensuredStats now s (stats_seq db) (stats db))).
Proof.
  unfold updateDailyStats, withStats. cbn [stats].
  apply selectStats_updateStatsTable.
Qed.

Lemma ensuredStats_fields (now s : list N) (db : Database) :
  let e := ensuredStats now s (stats_seq db) (stats db) in
  let cur := currentStats (isoDate now) s db in
  tracks_processed e = tracks_processed cur
  ∧ tracks_matched e = tracks_matched cur
  ∧ tracks_added e = tracks_added cur
  ∧ tracks_duplicated e = tracks_duplicated cur
  ∧ tracks_unmatched e = tracks_unmatched cur
  ∧ avg_match_percentage e = avg_match_percentage cur.
Proof.
  unfold ensuredStats, currentStats.
  by destruct (selectStats (isoDate now) s (stats db)).
Qed.

(** One event, read on the row of its key (zeros before the first touch). *)
Lemma updateDailyStats_step (now s : list N) (type : StatType)
    (p : option Z) (db : Database) :
  let d := isoDate now in
  let cur := currentStats d s db in
  let new := currentStats d s (updateDailyStats now s type p db) in
  selectStats d s (stats (updateDailyStats now s type p db)) = Some new
  ∧ tracks_processed new = tracks_processed cur + 1
  ∧ tracks_matched new = tracks_matched cur + bump type matched
  ∧ tracks_added new = tracks_added cur + bump type matched
  ∧ tracks_duplicated new = tracks_duplicated cur + bump type duplicate
  ∧ tracks_unmatched new = tracks_unmatched cur + bump type unmatched
  ∧ avg_match_percentage new
    = match type, truthyPercentage p with
      | matched, Some q =>
          orQ (Some (nextAverage (avg_match_percentage cur)
                       (tracks_matched cur) q))
            (avg_match_percentage cur)
      | _, _ => avg_match_percentage cur
      end.
Proof.
  intros d cur new.
  pose proof (currentStats_updateDailyStats now s type p db) as E.
  pose proof (ensuredStats_fields now s db) as (F1 & F2 & F3 & F4 & F5 & F6).
  pose proof (applyUpdates_fields now
                (ensuredStats now s (stats_seq db) (stats db)) type p)
    as (G1 & G2 & G3 & G4 & G5 & G6).
  assert (new = applyUpdates now (ensuredStats now s (stats_seq db) (stats db))
            (computeUpdates (ensuredStats now s (stats_seq db) (stats db))
               type p)
            (ensuredStats now s (stats_seq db) (stats db))) as ->.
  { subst new d. unfold currentStats. by rewrite E. }
  fold cur in F1, F2, F3, F4, F5, F6.
  rewrite F1 in G1. rewrite F2 in G2. rewrite F3 in G3. rewrite F4 in G4.
  rewrite F5 in G5. rewrite F6, F2 in G6.
  by split_and!.
Qed.

Lemma countType_cons (type : StatType) (e : StatEvent) (es : list StatEvent) :
  countType type (e :: es) = bump (ev_type e) type + countType type es.
Proof.
  unfold countType, bump. simpl.
  destruct (bool_decide (ev_type e = type)); simpl length; lia.
Qed.

(** The counters after a sequence of events of one key. *)
Lemma recordEvents_counters (d s : list N) (events : list StatEvent) :
  ∀ db : Database,
    Forall (fun e => isoDate (ev_now e) = d) events →
    let before := currentStats d s db in
    let after := currentStats d s (recordEvents s events db) in
    tracks_processed after
    = tracks_processed before + N.of_nat (length events)
    ∧ tracks_matched after = tracks_matched before + countType matched events
    ∧ tracks_added after = tracks_added before + countType matched events
    ∧ tracks_duplicated after
      = tracks_duplicated before + countType duplicate events
    ∧ tracks_unmatched after
      = tracks_unmatched before + countType unmatched events.
Proof.
  induction events as [|e es IH]; intros db Hd before after.
  - subst before after. simpl. unfold countType. simpl.
    rewrite !N.add_0_r. done.
  - inversion Hd as [|? ? He Hes]; subst.
    pose proof (updateDailyStats_step (ev_now e) s (ev_type e)
                  (ev_percentage e) db) as (_ & S1 & S2 & S3 & S4 & S5 & _).
    destruct (IH (updateDailyStats (ev_now e) s (ev_type e)
                    (ev_percentage e) db) Hes) as (I1 & I2 & I3 & I4 & I5).
    subst before after. change (recordEvents s (e :: es) db)
      with (recordEvents s es (updateDailyStats (ev_now e) s (ev_type e)
                                 (ev_percentage e) db)).
    rewrite I1, I2, I3, I4, I5, S1, S2, S3, S4, S5, !countType_cons.
    simpl length. split_and!; lia.
Qed.

Lemma nextAverage_total (avg : Q) (k : nat) (t p : Z) :
  (avg * inject_Z (Z.of_nat k) == inject_Z t)%Q →
  (nextAverage avg (N.of_nat k) p * inject_Z (Z.of_nat (S k))
   == inject_Z (t + p))%Q.
Proof.
  intros H. unfold nextAverage.
  replace (Z.of_N (N.of_nat k + 1) - 1)%Z with (Z.of_nat k) by lia.
  replace (Z.of_N (N.of_nat k + 1)) with (Z.of_nat (S k)) by lia.
  rewrite H, inject_Z_plus.
  field. unfold Qeq. simpl. lia.
Qed.

Lemma orQ_nonzero (x d : Q) : ¬ (x == 0)%Q → orQ (Some x) d = x.
Proof.
  intros H. unfold orQ. destruct (Qeq_bool x 0) eqn:E; [|done].
  by apply Qeq_bool_eq in E.
Qed.

(** The running average after a sequence of events of one key: [k] matched
    tracks with percentages of total [t] are on record before. *)
Lemma recordEvents_average (d s : list N) (events : list StatEvent) :
  ∀ (db : Database) (k : nat) (t : Z),
    Forall (fun e => isoDate (ev_now e) = d) events →
    Forall (fun e => ev_type e = matched →
                     ∃ p, ev_percentage e = Some p ∧ (0 < p)%Z) events →
    tracks_matched (currentStats d s db) = N.of_nat k →
    (avg_match_percentage (currentStats d s db) * inject_Z (Z.of_nat k)
     == inject_Z t)%Q →
    (0 ≤ t)%Z →
    (avg_match_percentage (currentStats d s (recordEvents s events db))
     * inject_Z (Z.of_nat (k + length (matchedPercentages events)))
     == inject_Z (t + sumZ (matchedPercentages events)))%Q.
Proof.
  induction events as [|e es IH]; intros db k t Hd Hp Hk Havg Ht.
  - simpl. by rewrite Nat.add_0_r, Z.add_0_r.
  - inversion Hd as [|? ? He Hes]; subst.
    inversion Hp as [|? ? Hpe Hpes]; subst.
    pose proof (updateDailyStats_step (ev_now e) s (ev_type e)
                  (ev_percentage e) db) as (_ & _ & S2 & _ & _ & _ & S6).
    change (recordEvents s (e :: es) db)
      with (recordEvents s es (updateDailyStats (ev_now e) s (ev_type e)
                                 (ev_percentage e) db)).
    unfold matchedPercentages. cbn [flat_map].
    fold (matchedPercentages es).
    destruct (ev_type e) eqn:Hty.
    + destruct (Hpe eq_refl) as (p & Hperc & Hpos).
      rewrite Hperc in *. cbn [app]. cbn [length sumZ fold_right].
      fold (sumZ (matchedPercentages es)).
      assert (truthyPercentage (Some p) = Some p) as Htr.
      { unfold truthyPercentage. destruct (Z.eqb_spec p 0); [lia|done]. }
      rewrite Htr, Hk in S6.
      pose proof (nextAverage_total _ k t p Havg) as Hnext.
      rewrite orQ_nonzero in S6.
      2:{ intros E. rewrite E, Qmult_0_l in Hnext.
          unfold Qeq in Hnext. simpl in Hnext. lia. }
      replace (k + S (length (matchedPercentages es)))%nat
        with (S k + length (matchedPercentages es))%nat by lia.
      replace (t + (p + sumZ (matchedPercentages es)))%Z
        with ((t + p) + sumZ (matchedPercentages es))%Z by lia.
      apply IH; try done.
      * rewrite S2, Hk. unfold bump. simpl. lia.
      * by rewrite S6.
      * lia.
    + cbn [app]. apply IH; try done.
      * rewrite S2, Hk. unfold bump. simpl. lia.
      * by rewrite S6.
    + cbn [app]. apply IH; try done.
      * rewrite S2, Hk. unfold bump. simpl. lia.
      * by rewrite S6.
Qed.

Lemma nextAverage_nonzero (avg : Q) (m : N) (p : Z) :
  (0 <= avg)%Q → (0 < p)%Z → ¬ (nextAverage avg m p == 0)%Q.
Proof.
  intros Havg Hp E.
  assert (nextAverage avg m p * inject_Z (Z.of_N (m + 1))
          == avg * inject_Z (Z.of_N (m + 1) - 1) + inject_Z p)%Q as T.
  { unfold nextAverage. field. unfold Qeq. simpl. lia. }
  rewrite E, Qmult_0_l in T.
  assert (0 <= avg * inject_Z (Z.of_N (m + 1) - 1))%Q as H1.
  { apply Qmult_le_0_compat; [done|]. unfold Qle. simpl. lia. }
  assert (0 < inject_Z p)%Q as H2 by (unfold Qlt; simpl; lia).
  pose proof (Qplus_lt_le_compat _ _ _ _ H2 H1) as H3.
  rewrite Qplus_0_l, (Qplus_comm (inject_Z p)), <- T in H3.
  by apply Qlt_irrefl in H3.
Qed.

(** The statistics of one station, while no other station records an
    event on the date.  On the row of the (date, station) key, read as zeros
    before its first touch: every event adds one to [tracks_processed]; a
    matched event
    adds one to [tracks_matched] and to [tracks_added], a duplicate one to
    [tracks_duplicated], an unmatched one to [tracks_unmatched].  A matched
    event with percentage [p] replaces the average by
    [(old_avg * (n - 1) + p) / n], [n] being the matched count after the
    increment.  After matched events with percentages p1..pn on a row that
    had no matched track, the stored average is the mean of p1..pn; events
    of the other two kinds may come in between.  The percentages are
    positive, and the average is taken as the rational it denotes. *)
Lemma recordEvents_one_station (d stationName : list N) (events : list StatEvent)
    (db : Database) :
  Forall (fun e => isoDate (ev_now e) = d) events →
  let before := currentStats d stationName db in
  let after := currentStats d stationName (recordEvents stationName events db) in
  (tracks_processed after = tracks_processed before + N.of_nat (length events)
   ∧ tracks_matched after = tracks_matched before + countType matched events
   ∧ tracks_added after = tracks_added before + countType matched events
   ∧ tracks_duplicated after
     = tracks_duplicated before + countType duplicate events
   ∧ tracks_unmatched after
     = tracks_unmatched before + countType unmatched events)
  ∧ (∀ (now : list N) (p : Z),
       isoDate now = d → (0 < p)%Z →
       (0 <= avg_match_percentage before)%Q →
       let next :=
         currentStats d stationName
           (updateDailyStats now stationName matched (Some p) db) in
       let n := Z.of_N (tracks_matched next) in
       n = (Z.of_N (tracks_matched before) + 1)%Z
       ∧ (avg_match_percentage next
          == (avg_match_percentage before * inject_Z (n - 1) + inject_Z p)
             / inject_Z n)%Q)
  ∧ (tracks_matched before = 0 →
     Forall (fun e => ev_type e = matched →
                      ∃ p, ev_percentage e = Some p ∧ (0 < p)%Z) events →
     matchedPercentages events ≠ [] →
     (avg_match_percentage after == mean (matchedPercentages events))%Q).
Proof.
  intros Hd before after. split; [|split].
  - by apply recordEvents_counters.
  - intros now p <- Hp Havg next n.
    pose proof (updateDailyStats_step now stationName matched (Some p) db)
      as (_ & _ & S2 & _ & _ & _ & S6).
    fold next before in S2, S6.
    assert (truthyPercentage (Some p) = Some p) as Htr.
    { unfold truthyPercentage. destruct (Z.eqb_spec p 0); [lia|done]. }
    rewrite Htr, orQ_nonzero in S6 by by apply nextAverage_nonzero.
    assert (n = (Z.of_N (tracks_matched before) + 1)%Z) as Hn.
    { subst n. rewrite S2. unfold bump. simpl. lia. }
    split; [done|]. rewrite S6, Hn. unfold nextAverage.
    replace (Z.of_N (tracks_matched before + 1))
      with (Z.of_N (tracks_matched before) + 1)%Z by lia.
    reflexivity.
  - intros Hzero Hpos Hne.
    pose proof (recordEvents_average d stationName events db O 0%Z Hd Hpos)
      as A.
    fold before after in A. rewrite Hzero in A.
    specialize (A eq_refl (Qmult_0_r _) (Z.le_refl _)).
    simpl in A. unfold mean. rewrite <- A. field.
    unfold Qeq. simpl. destruct (matchedPercentages events); [done|].
    simpl length. lia.
Qed.

Lemma recordEvents_one_station_witness :
  (avg_match_percentage
     (currentStats (isoDate halloween) (lit "Main")
        (recordEvents (lit "Main")
           [ {| ev_now := halloween; ev_type := matched;
                ev_percentage := Some 80%Z |};
             {| ev_now := halloween; ev_type := unmatched;
                ev_percentage := None |};
             {| ev_now := halloween; ev_type := matched;
                ev_percentage := Some 91%Z |} ]
           emptyDatabase))
   == mean [80; 91]%Z)%Q
  ∧ (avg_match_percentage
       (currentStats (isoDate halloween) (lit "Main")
          (updateDailyStats halloween (lit "Main") matched (Some 91%Z)
             (updateDailyStats halloween (lit "Main") matched (Some 80%Z)
                emptyDatabase)))
     == (80 * inject_Z (2 - 1) + inject_Z 91) / inject_Z 2)%Q.
Proof.
  split.
  - refine (proj2 (proj2
      (recordEvents_one_station (isoDate halloween) (lit "Main") _
         emptyDatabase _))
      _ _ _).
    + repeat constructor.
    + reflexivity.
    + repeat constructor; simpl; intros H; try discriminate;
        eexists; (split; [reflexivity|lia]).
    + vm_compute. discriminate.
  - refine (proj2 (proj1 (proj2
      (recordEvents_one_station (isoDate halloween) (lit "Main") []
         (updateDailyStats halloween (lit "Main") matched (Some 80%Z)
            emptyDatabase) _))
      halloween 91%Z _ _ _)).
    + constructor.
    + reflexivity.
    + lia.
    + by vm_compute.
Defined.

(** C9: the code at the failing input.  On one date the row of station Main
    is written, then station Movies records an event: the row of Main is
    gone, and the table holds the row of Movies only. *)
Lemma C9_row_of_other_station_deleted :
  tracks_processed
    <$> selectStats (isoDate halloween) (lit "Main")
          (stats (updateDailyStats halloween (lit "Main") matched
                    (Some 80%Z) emptyDatabase))
  = Some 1
  ∧ selectStats (isoDate halloween) (lit "Main")
      (stats (updateDailyStats halloween (lit "Movies") unmatched None
                (updateDailyStats halloween (lit "Main") matched
                   (Some 80%Z) emptyDatabase)))
    = None
  ∧ map station
      (stats (updateDailyStats halloween (lit "Movies") unmatched None
                (updateDailyStats halloween (lit "Main") matched
                   (Some 80%Z) emptyDatabase)))
    = [lit "Movies"].
Proof. split_and!; reflexivity. Qed.

(** C8: the code at the failing input.  On one date the station Main
    records a match of 80 percent, the station Movies an unmatched track,
    then Main a match of 90 percent.  The row of (date, Main) should count
    two processed and two matched tracks and hold the average 85, the mean
    of 80 and 90.  The event of Movies deleted the row of Main, and the
    second match of Main deleted the row of Movies and started again from
    zeros: the row of Main ends with one processed track, one matched track
    and the average 90, and Movies has no row. *)
Theorem C8_counters_lost_between_stations :
  let db :=
    updateDailyStats halloween (lit "Main") matched (Some 90%Z)
      (updateDailyStats halloween (lit "Movies") unmatched None
         (updateDailyStats halloween (lit "Main") matched (Some 80%Z)
            emptyDatabase)) in
  let row := currentStats (isoDate halloween) (lit "Main") db in
  tracks_processed row = 1
  ∧ tracks_matched row = 1
  ∧ tracks_added row = 1
  ∧ (avg_match_percentage row == 90)%Q
  ∧ (mean [80; 90]%Z == 85)%Q
  ∧ ¬ (avg_match_percentage row == mean [80; 90]%Z)%Q
  ∧ selectStats (isoDate halloween) (lit "Movies") (stats db) = None
  ∧ map station (stats db) = [lit "Main"].
Proof. cbv zeta. split_and!; by vm_compute. Qed.

(** The same for every table and every pair of stations: after an event of
    one station, no other station has a row of that date; rows of other dates
    are as they were. *)
Lemma updateDailyStats_frame (now s : list N) (type : StatType)
    (p : option Z) (db : Database) :
  (∀ s' : list N, s' ≠ s →
     selectStats (isoDate now) s' (stats (updateDailyStats now s type p db))
     = None)
  ∧ (∀ d s' : list N, d ≠ isoDate now →
       selectStats d s' (stats (updateDailyStats now s type p db))
       = selectStats d s' (stats db)).
Proof.
  unfold updateDailyStats, withStats. cbn [stats]. split.
  - intros s' Hs. by apply selectStats_other_station.
  - intros d s' Hd. by apply selectStats_other_date.
Qed.

(** ** DedupLedger: [addMatchedTrack] *)

Lemma existsb_hasSpotifyId (c : list N) (l : list MatchedRow) :
  existsb (hasSpotifyId c) l = true ↔ c ∈ map spotify_id l.
Proof.
  rewrite existsb_exists, list_elem_of_fmap. unfold hasSpotifyId. split.
  - intros (r & Hr & E). apply bool_decide_eq_true in E.
    exists r. split; [done|]. by apply list_elem_of_In.
  - intros (r & -> & Hr). exists r. split; [by apply list_elem_of_In|].
    by apply bool_decide_eq_true.
Qed.

Lemma filter_hasSpotifyId_none (c : list N) (l : list MatchedRow) :
  existsb (hasSpotifyId c) l = false → List.filter (hasSpotifyId c) l = [].
Proof.
  induction l as [|r l IH]; simpl; [done|].
  intros H. apply orb_false_iff in H as [H1 H2]. rewrite H1. by apply IH.
Qed.

Lemma addMatchedTrack_duplicate (now : list N) (trackData : MatchDetails)
    (db : Database) :
  isTrackAlreadyAdded (sm_id (mt_spotifyMatch trackData)) db = true →
  addMatchedTrack now trackData db = (Thrown uniqueViolation, db).
Proof.
  intros H. unfold addMatchedTrack, insertMatched.
  unfold isTrackAlreadyAdded in H. by rewrite H.
Qed.

Lemma addMatchedTrack_fresh (now : list N) (trackData : MatchDetails)
    (db : Database) :
  isTrackAlreadyAdded (sm_id (mt_spotifyMatch trackData)) db = false →
  ∃ row,
    fst (addMatchedTrack now trackData db) = Returned (Some (matched_seq db + 1))
    ∧ matched_tracks (snd (addMatchedTrack now trackData db))
      = matched_tracks db ++ [row]
    ∧ spotify_id row = sm_id (mt_spotifyMatch trackData).
Proof.
  intros H. unfold addMatchedTrack, insertMatched.
  unfold isTrackAlreadyAdded in H. rewrite H. by eexists.
Qed.

Lemma addMatchedTrack_unique (now : list N) (trackData : MatchDetails)
    (db : Database) :
  uniqueSpotifyIds db →
  uniqueSpotifyIds (snd (addMatchedTrack now trackData db)).
Proof.
  intros U. unfold uniqueSpotifyIds in *.
  destruct (isTrackAlreadyAdded (sm_id (mt_spotifyMatch trackData)) db) eqn:E.
  - by rewrite addMatchedTrack_duplicate.
  - destruct (addMatchedTrack_fresh now trackData db E) as (row & _ & -> & Hid).
    rewrite map_app. simpl. apply NoDup_app. split_and!; [done| |].
    + intros c Hc Hc'. apply list_elem_of_singleton in Hc'. subst c.
      rewrite Hid in Hc. apply existsb_hasSpotifyId in Hc.
      unfold isTrackAlreadyAdded in E. congruence.
    + apply NoDup_singleton.
Qed.

Lemma addMatchedTracks_unique (attempts : list (list N * MatchDetails)) :
  ∀ db : Database,
    uniqueSpotifyIds db →
    uniqueSpotifyIds (snd (addMatchedTracks attempts db)).
Proof.
  induction attempts as [|[now td] rest IH]; intros db U; simpl; [done|].
  pose proof (addMatchedTrack_unique now td db U) as U1.
  destruct (addMatchedTrack now td db) as [result db1]. simpl in U1.
  specialize (IH db1 U1).
  by destruct (addMatchedTracks rest db1) as [results db2].
Qed.

Lemma unique_at_most_one (c : list N) (l : list MatchedRow) :
  NoDup (map spotify_id l) →
  (length (List.filter (hasSpotifyId c) l) ≤ 1)%nat.
Proof.
  induction l as [|r l IH]; simpl; intros U; [lia|].
  apply NoDup_cons in U as [Hr U]. specialize (IH U).
  unfold hasSpotifyId at 1. destruct (bool_decide_reflect (spotify_id r = c)) as [E|E];
    [|done].
  subst c. simpl.
  assert (List.filter (hasSpotifyId (spotify_id r)) l = []) as ->; [|simpl; lia].
  clear IH U. induction l as [|r' l IH]; simpl; [done|].
  apply not_elem_of_cons in Hr as [Hne Hr].
  unfold hasSpotifyId at 1. rewrite bool_decide_eq_false_2 by done. by apply IH.
Qed.

(** Attempts on a catalog id that is on record all throw the error of the
    driver and leave the database as it is. *)
Lemma addMatchedTracks_known (c : list N)
    (attempts : list (list N * MatchDetails)) :
  ∀ db : Database,
    Forall (fun a => sm_id (mt_spotifyMatch (snd a)) = c) attempts →
    isTrackAlreadyAdded c db = true →
    fst (addMatchedTracks attempts db)
    = repeat (Thrown uniqueViolation) (length attempts)
    ∧ snd (addMatchedTracks attempts db) = db.
Proof.
  induction attempts as [|[now td] rest IH]; intros db Hc Hk; simpl; [done|].
  inversion Hc as [|? ? Hc1 Hc2]; subst. simpl in Hk.
  rewrite (addMatchedTrack_duplicate now td db Hk).
  specialize (IH db Hc2 Hk) as [I1 I2].
  destruct (addMatchedTracks rest _) as [results db2]. simpl in *.
  by rewrite I1, I2.
Qed.

(** After any sequence of insertions into a table that obeys the UNIQUE
    constraint, every catalog id has at most one row. *)
Lemma addMatchedTracks_at_most_one
    (attempts : list (list N * MatchDetails)) (db : Database)
    (catalogId : list N) :
  uniqueSpotifyIds db →
  (length (List.filter (hasSpotifyId catalogId)
             (matched_tracks (snd (addMatchedTracks attempts db)))) ≤ 1)%nat.
Proof.
  intros U. apply unique_at_most_one.
  by apply addMatchedTracks_unique.
Qed.

(** C1: the code at the failing input.  The Monster Mash is inserted for
    the station Main and then, under the same catalog id, once more.  The
    second INSERT is rejected by the driver with the code SQLITE_CONSTRAINT,
    which is not the code SQLITE_CONSTRAINT_UNIQUE that the handler of
    [addMatchedTrack] compares with: the call does not return null but
    throws the error on, and it records no duplicate; the daily statistics
    stay at one track processed and no duplicate.  One row for the id
    persists. *)
Theorem C1_duplicate_insert_throws :
  let db1 :=
    snd (addMatchedTrack halloween (monsterMash (lit "Main")) emptyDatabase) in
  let second := addMatchedTrack halloween (monsterMash (lit "Main")) db1 in
  let today := currentStats (isoDate halloween) (lit "Main") (snd second) in
  fst (addMatchedTrack halloween (monsterMash (lit "Main")) emptyDatabase)
  = Returned (Some 1)
  ∧ isTrackAlreadyAdded (sm_id (mt_spotifyMatch (monsterMash (lit "Main")))) db1
    = true
  ∧ fst second = Thrown uniqueViolation
  ∧ fst second ≠ Returned None
  ∧ code uniqueViolation ≠ lit "SQLITE_CONSTRAINT_UNIQUE"
  ∧ snd second = db1
  ∧ tracks_duplicated today = 0
  ∧ tracks_processed today = 1
  ∧ length (List.filter
              (hasSpotifyId (sm_id (mt_spotifyMatch (monsterMash (lit "Main")))))
              (matched_tracks (snd second))) = 1%nat.
Proof.
  cbv zeta.
  assert (isTrackAlreadyAdded
            (sm_id (mt_spotifyMatch (monsterMash (lit "Main"))))
            (snd (addMatchedTrack halloween (monsterMash (lit "Main"))
                    emptyDatabase)) = true) as K by (by vm_compute).
  rewrite (addMatchedTrack_duplicate _ _ _ K). cbn [fst snd].
  split_and!; try done; by vm_compute.
Qed.

(** ** CatalogMatcher: the scan over the candidates *)

(** The order of the numbers.  NaN compares false with everything; the
    two zeros are equal. *)
Ltac float_cases :=
  unfold SFltb, SFleb, SFcompare;
  repeat match goal with
         | x : spec_float |- _ => destruct x as [[]|[]| |[] ? ?]
         end;
  intros; try done;
  rewrite ?Pos.compare_cont_spec in *; unfold Pos.switch_Eq in *;
  repeat match goal with
         | H : context [Z.compare ?a ?b] |- _ =>
             destruct (Z.compare_spec a b); try done
         | |- context [Z.compare ?a ?b] =>
             destruct (Z.compare_spec a b); try done
         | H : context [Pos.compare ?a ?b] |- _ =>
             destruct (Pos.compare_spec a b); simpl in *; try done
         | |- context [Pos.compare ?a ?b] =>
             destruct (Pos.compare_spec a b); simpl in *; try done
         end;
  try lia.

Lemma SFltb_SFleb (a b : number) : SFltb a b = true → SFleb a b = true.
Proof. float_cases. Qed.

Lemma SFltb_not_SFleb (a b : number) : SFltb a b = true → SFleb b a = false.
Proof. float_cases. Qed.

Lemma SFltb_SFleb_trans (a b c : number) :
  SFltb a b = true → SFleb b c = true → SFltb a c = true.
Proof. float_cases. Qed.

Lemma SFleb_trans (a b c : number) :
  SFleb a b = true → SFleb b c = true → SFleb a c = true.
Proof. float_cases. Qed.

Lemma SFltb_trans (a b c : number) :
  SFltb a b = true → SFltb b c = true → SFltb a c = true.
Proof.
  intros H1 H2. eapply SFltb_SFleb_trans; [exact H1|]. by apply SFltb_SFleb.
Qed.

(** Two numbers that are not NaN are comparable. *)
Lemma SFleb_total (a b : number) :
  SFleb a a = true → SFleb b b = true → SFleb a b = false → SFltb b a = true.
Proof. float_cases. Qed.

Lemma SFleb_refl_l (a b : number) : SFleb a b = true → SFleb a a = true.
Proof. float_cases. Qed.

Lemma SFleb_refl_r (a b : number) : SFleb a b = true → SFleb b b = true.
Proof. float_cases. Qed.

Lemma SFltb_refl_l (a b : number) : SFltb a b = true → SFleb a a = true.
Proof. float_cases. Qed.

Lemma SFltb_refl_r (a b : number) : SFltb a b = true → SFleb b b = true.
Proof. float_cases. Qed.

Lemma SFltb_false_SFleb (a b : number) :
  SFleb a a = true → SFleb b b = true → SFltb a b = false → SFleb b a = true.
Proof. float_cases. Qed.

(** [Math.max] returns one of its arguments, and on numbers that are not
    NaN one that is [>=] both. *)
Lemma mathMax_spec (a b : number) :
  (mathMax a b = a ∨ mathMax a b = b)
  ∧ (jsGe a a = true → jsGe b b = true →
     jsGe (mathMax a b) a = true ∧ jsGe (mathMax a b) b = true).
Proof.
  split.
  - unfold mathMax.
    destruct a as [[]|[]| |[] ? ?], b as [[]|[]| |[] ? ?]; simpl; try tauto;
      match goal with
      | |- context [if ?c then _ else _] => destruct c
      end; tauto.
  - unfold jsGe. intros Ha Hb. destruct (SFltb a b) eqn:E.
    + assert (mathMax a b = b) as ->.
      { unfold mathMax.
        destruct a as [[]|[]| |[] ? ?], b as [[]|[]| |[] ? ?];
          try done; by rewrite E. }
      split; [by apply SFltb_SFleb|done].
    + pose proof (SFltb_false_SFleb a b Ha Hb E) as L.
      unfold mathMax.
      destruct a as [[]|[]| |[] ? ?], b as [[]|[]| |[] ? ?];
        try done; by rewrite E.
Qed.

Section Scan.

Variable score : Track → number.
Variable accept : number → bool.
Hypothesis accept_mono :
  ∀ a b : number, accept a = true → jsGe b a = true → accept b = true.

Local Abbreviation replaces := (replaces score accept).

Lemma scan_step (t : Track) (rest : list Track)
    (best : option Match * number) :
  (replaces (snd best) t →
   scanTracks score accept (t :: rest) best
   = scanTracks score accept rest
       (Some {| track := t; similarity := score t |}, score t))
  ∧ (¬ replaces (snd best) t →
     scanTracks score accept (t :: rest) best
     = scanTracks score accept rest best).
Proof.
  unfold replaces. cbn [scanTracks].
  destruct (jsGt (score t) (snd best)) eqn:G; simpl.
  - destruct (accept (score t)) eqn:A.
    + split; [done|]. intros H. by destruct H.
    + split; [by intros [_ ?]|done].
  - split; [|done]. by intros [? _].
Qed.

(** The scan either keeps the best it started from, no candidate having
    replaced it, or ends on the earliest of the candidates of highest
    score: no candidate before it scores as high, none after it scores
    higher. *)
Lemma scanTracks_spec (tracks : list Track) :
  ∀ best : option Match * number,
    (scanTracks score accept tracks best = best
     ∧ Forall (fun t => ¬ replaces (snd best) t) tracks)
    ∨ (∃ (pre : list Track) (t : Track) (post : list Track),
         tracks = pre ++ t :: post
         ∧ scanTracks score accept tracks best
           = (Some {| track := t; similarity := score t |}, score t)
         ∧ replaces (snd best) t
         ∧ Forall (fun x => jsGe (score x) (score t) = false) pre
         ∧ Forall (fun x => jsGt (score x) (score t) = false) post).
Proof.
  induction tracks as [|t0 rest IH]; intros best.
  - left. by split.
  - destruct (scan_step t0 rest best) as [Hyes Hno].
    destruct (jsGt (score t0) (snd best)) eqn:G;
      [destruct (accept (score t0)) eqn:A|].
    + rewrite Hyes by done.
      destruct (IH (Some {| track := t0; similarity := score t0 |}, score t0))
        as [[E F]|(pre & t & post & -> & E & [Hb Ha] & Fpre & Fpost)].
      * right. exists [], t0, rest. split_and!; try done.
        eapply Forall_impl; [exact F|]. intros x Hx. cbn [snd] in Hx.
        destruct (jsGt (score x) (score t0)) eqn:Gx; [|done].
        exfalso. apply Hx. split; [done|].
        eapply accept_mono; [exact A|]. by apply SFltb_SFleb.
      * right. exists (t0 :: pre), t, post. cbn [snd] in Hb.
        split_and!; try done.
        -- split; [|done]. unfold jsGt in *. by eapply SFltb_trans.
        -- constructor; [|done]. by apply SFltb_not_SFleb.
    + assert (¬ replaces (snd best) t0) as Hn
        by (intros [_ ?]; congruence).
      rewrite Hno by done.
      destruct (IH best)
        as [[E F]|(pre & t & post & -> & E & [Hb Ha] & Fpre & Fpost)].
      * left. split; [done|]. by constructor.
      * right. exists (t0 :: pre), t, post. split_and!; try done.
        constructor; [|done].
        destruct (jsGe (score t0) (score t)) eqn:Ge; [|done].
        rewrite (accept_mono _ _ Ha Ge) in A. done.
    + assert (¬ replaces (snd best) t0) as Hn
        by (intros [? _]; congruence).
      rewrite Hno by done.
      destruct (IH best)
        as [[E F]|(pre & t & post & -> & E & [Hb Ha] & Fpre & Fpost)].
      * left. split; [done|]. by constructor.
      * right. exists (t0 :: pre), t, post. split_and!; try done.
        constructor; [|done].
        destruct (jsGe (score t0) (score t)) eqn:Ge; [|done].
        unfold jsGt, jsGe in *.
        rewrite (SFltb_SFleb_trans _ _ _ Hb Ge) in G. done.
Qed.

End Scan.

Section MatcherProperties.

Variable compareTwoStrings : list N → list N → number.

Lemma threshold_mono (a b : number) :
  jsGe a (decimal 75 100) = true → jsGe b a = true →
  jsGe b (decimal 75 100) = true.
Proof. unfold jsGe. intros H1 H2. by eapply SFleb_trans. Qed.

(** [findBestMatch] returns null exactly when no candidate has a score
    [>= 0.75]. *)
Lemma findBestMatch_None (artist title : list N) (tracks : list Track) :
  findBestMatch compareTwoStrings artist title tracks = None
  ↔ Forall (fun t =>
              jsGe (combinedSimilarity compareTwoStrings (clean artist)
                      (clean title) t) (decimal 75 100) = false) tracks.
Proof.
  unfold findBestMatch.
  destruct (scanTracks_spec
              (combinedSimilarity compareTwoStrings (clean artist) (clean title))
              (fun c => jsGe c (decimal 75 100)) threshold_mono tracks
              (None, ofZ 0))
    as [[E F]|(pre & t & post & -> & E & [Hb Ha] & Fpre & Fpost)];
    rewrite E; cbn [fst].
  - split; [intros _|done].
    eapply Forall_impl; [exact F|]. intros x Hx. cbn [snd] in Hx.
    destruct (jsGe _ (decimal 75 100)) eqn:Ge; [|done].
    exfalso. apply Hx. split; [|done].
    unfold jsGt, jsGe in *. eapply SFltb_SFleb_trans; [|exact Ge].
    by vm_compute.
  - split; [done|]. intros F.
    apply Forall_app in F as [_ F]. apply Forall_cons in F as [F _].
    congruence.
Qed.

(** What [findBestMatch] returns is the earliest of the candidates of
    highest score, and that score is [>= 0.75]. *)
Lemma findBestMatch_Some (artist title : list N) (tracks : list Track)
    (m : Match) :
  findBestMatch compareTwoStrings artist title tracks = Some m →
  let score :=
    combinedSimilarity compareTwoStrings (clean artist) (clean title) in
  ∃ pre post : list Track,
    tracks = pre ++ track m :: post
    ∧ similarity m = score (track m)
    ∧ jsGe (similarity m) (decimal 75 100) = true
    ∧ Forall (fun x => jsGe (score x) (similarity m) = false) pre
    ∧ Forall (fun x => jsGt (score x) (similarity m) = false) post.
Proof.
  intros H score. unfold findBestMatch in H.
  destruct (scanTracks_spec score
              (fun c => jsGe c (decimal 75 100)) threshold_mono tracks
              (None, ofZ 0))
    as [[E F]|(pre & t & post & -> & E & [Hb Ha] & Fpre & Fpost)];
    fold score in H; rewrite E in H; cbn [fst] in H; [done|].
  injection H as <-. cbn [track similarity]. exists pre, post.
  by split_and!.
Qed.

(** [findBestMatchForLogging] returns null exactly when no candidate has a
    score [> 0]. *)
Lemma findBestMatchForLogging_None (artist title : list N)
    (tracks : list Track) :
  findBestMatchForLogging compareTwoStrings artist title tracks = None
  ↔ Forall (fun t =>
              jsGt (combinedSimilarity compareTwoStrings (clean artist)
                      (clean title) t) (ofZ 0) = false) tracks.
Proof.
  unfold findBestMatchForLogging.
  destruct (scanTracks_spec
              (combinedSimilarity compareTwoStrings (clean artist) (clean title))
              (fun _ => true) (fun _ _ _ _ => eq_refl) tracks (None, ofZ 0))
    as [[E F]|(pre & t & post & -> & E & [Hb Ha] & Fpre & Fpost)];
    rewrite E; cbn [fst].
  - split; [intros _|done].
    eapply Forall_impl; [exact F|]. intros x Hx. cbn [snd] in Hx.
    destruct (jsGt _ (ofZ 0)) eqn:Gt; [|done].
    exfalso. by apply Hx.
  - split; [done|]. intros F.
    apply Forall_app in F as [_ F]. apply Forall_cons in F as [F _].
    cbn [snd] in Hb. congruence.
Qed.

Lemma findBestMatchForLogging_Some (artist title : list N)
    (tracks : list Track) (m : Match) :
  findBestMatchForLogging compareTwoStrings artist title tracks = Some m →
  let score :=
    combinedSimilarity compareTwoStrings (clean artist) (clean title) in
  ∃ pre post : list Track,
    tracks = pre ++ track m :: post
    ∧ similarity m = score (track m)
    ∧ jsGt (similarity m) (ofZ 0) = true
    ∧ Forall (fun x => jsGe (score x) (similarity m) = false) pre
    ∧ Forall (fun x => jsGt (score x) (similarity m) = false) post.
Proof.
  intros H score. unfold findBestMatchForLogging in H.
  destruct (scanTracks_spec score
              (fun _ => true) (fun _ _ _ _ => eq_refl) tracks (None, ofZ 0))
    as [[E F]|(pre & t & post & -> & E & [Hb Ha] & Fpre & Fpost)];
    fold score in H; rewrite E in H; cbn [fst] in H; [done|].
  injection H as <-. cbn [track similarity]. exists pre, post. by split_and!.
Qed.

End MatcherProperties.

(** ** DedupLedger: unmatched tracks *)

Lemma addUnmatchedTrack_spec (now : list N) (trackData : UnmatchDetails)
    (db : Database) :
  ∃ row : UnmatchedRow,
    unmatched_tracks (snd (addUnmatchedTrack now trackData db))
    = unmatched_tracks db ++ [row]
    ∧ u_id row = fst (addUnmatchedTrack now trackData db)
    ∧ u_station row = um_station trackData
    ∧ u_radio_artist row = artist (um_metadata trackData)
    ∧ u_radio_title row = title (um_metadata trackData)
    ∧ u_radio_original row = original (um_metadata trackData)
    ∧ reason row = um_reason trackData
    ∧ best_match_percentage row = um_percentage trackData
    ∧ best_spotify_id row = orNull (sm_id <$> um_spotifyMatch trackData)
    ∧ best_spotify_artist row = orNull (sm_artist <$> um_spotifyMatch trackData)
    ∧ best_spotify_title row = orNull (sm_title <$> um_spotifyMatch trackData).
Proof. eexists. by split_and!. Qed.

Lemma addUnmatchedTrack_stats (now : list N) (trackData : UnmatchDetails)
    (db : Database) :
  let d := isoDate now in
  let s := um_station trackData in
  let db' := snd (addUnmatchedTrack now trackData db) in
  matched_tracks db' = matched_tracks db
  ∧ tracks_unmatched (currentStats d s db')
    = tracks_unmatched (currentStats d s db) + 1
  ∧ tracks_processed (currentStats d s db')
    = tracks_processed (currentStats d s db) + 1.
Proof.
  intros d s db'. subst db'. unfold addUnmatchedTrack. cbn [snd].
  match goal with
  | |- context [updateDailyStats now ?st unmatched None ?x] =>
      pose proof (updateDailyStats_step now st unmatched None x)
        as (_ & S1 & _ & _ & _ & S5 & _)
  end.
  subst d s. split_and!; [done| |].
  - rewrite S5. unfold bump. simpl. done.
  - by rewrite S1.
Qed.

Section LoggingProperties.

Variable compareTwoStrings : list N → list N → number.

Lemma shouldSkip_spec (metadata : ParsedTrack) :
  shouldSkip metadata = true
  ↔ ∃ pattern : list N,
      pattern ∈ skipPatterns
      ∧ (includes (toLowerCase (artist metadata)) pattern = true
         ∨ includes (toLowerCase (title metadata)) pattern = true).
Proof.
  unfold shouldSkip. rewrite existsb_exists. split.
  - intros (pattern & Hin & H). exists pattern.
    split; [by apply list_elem_of_In|]. by apply orb_true_iff.
  - intros (pattern & Hin & H). exists pattern.
    split; [by apply list_elem_of_In|]. by apply orb_true_iff.
Qed.

(** C7 (amended statement).  [logUnmatchedTrack] stores an unmatched outcome
    only when the keyword filter lets it pass: if no keyword of the list
    occurs in the lower-cased artist or title, one row with the announcement,
    the reason and the station is appended to [unmatched_tracks] and the
    station's row of the day counts one more unmatched and processed track;
    if a keyword occurs, the function returns before the insert and the
    database is what it was: no row, no count.  [addUnmatchedTrack] itself
    always appends a row. *)
Theorem C7_unmatched_storage (now stationName : list N)
    (metadata : ParsedTrack) (why : list N) (searchResults : list Track)
    (bestMatchForLogging : option Match) (db : Database) :
  let db' :=
    logUnmatchedTrack compareTwoStrings now stationName metadata why
      searchResults bestMatchForLogging db in
  (shouldSkip metadata = false →
   (∃ row : UnmatchedRow,
      unmatched_tracks db' = unmatched_tracks db ++ [row]
      ∧ u_station row = stationName
      ∧ u_radio_artist row = artist metadata
      ∧ u_radio_title row = title metadata
      ∧ reason row = why)
   ∧ tracks_unmatched (currentStats (isoDate now) stationName db')
     = tracks_unmatched (currentStats (isoDate now) stationName db) + 1
   ∧ tracks_processed (currentStats (isoDate now) stationName db')
     = tracks_processed (currentStats (isoDate now) stationName db) + 1)
  ∧ (shouldSkip metadata = true → db' = db)
  ∧ (shouldSkip metadata = true
     ↔ ∃ pattern : list N,
         pattern ∈ skipPatterns
         ∧ (includes (toLowerCase (artist metadata)) pattern = true
            ∨ includes (toLowerCase (title metadata)) pattern = true))
  ∧ (∀ trackData : UnmatchDetails,
       length (unmatched_tracks (snd (addUnmatchedTrack now trackData db)))
       = S (length (unmatched_tracks db))).
Proof.
  intros db'. subst db'. unfold logUnmatchedTrack. split_and!.
  - intros ->.
    match goal with
    | |- context [addUnmatchedTrack now ?td db] =>
        destruct (addUnmatchedTrack_spec now td db)
          as (row & R0 & _ & R1 & R2 & R3 & _ & R4 & _);
        pose proof (addUnmatchedTrack_stats now td db) as (_ & T1 & T2)
    end.
    split_and!; [|exact T1|exact T2].
    exists row. by split_and!.
  - by intros ->.
  - apply shouldSkip_spec.
  - intros trackData.
    destruct (addUnmatchedTrack_spec now trackData db) as (row & -> & _).
    rewrite length_app. simpl. lia.
Qed.

End LoggingProperties.

Lemma C7_witness :
  (∃ row : UnmatchedRow,
     unmatched_tracks
       (logUnmatchedTrack StringSimilarity.compareTwoStrings halloween
          (lit "Main")
          {| artist := lit "Bobby Pickett"; title := lit "Monster Mash";
             original := lit "Bobby Pickett - Monster Mash" |}
          (lit "No search results") [] None emptyDatabase)
     = unmatched_tracks emptyDatabase ++ [row]
     ∧ u_station row = lit "Main"
     ∧ u_radio_artist row = lit "Bobby Pickett"
     ∧ u_radio_title row = lit "Monster Mash"
     ∧ reason row = lit "No search results")
  ∧ logUnmatchedTrack StringSimilarity.compareTwoStrings halloween
      (lit "Main")
      {| artist := lit "HalloweenRadio"; title := lit "Station ID";
         original := lit "HalloweenRadio - Station ID" |}
      (lit "No search results") [] None emptyDatabase
    = emptyDatabase.
Proof.
  split.
  - refine (proj1 (proj1 (C7_unmatched_storage
      StringSimilarity.compareTwoStrings halloween (lit "Main")
      {| artist := lit "Bobby Pickett"; title := lit "Monster Mash";
         original := lit "Bobby Pickett - Monster Mash" |}
      (lit "No search results") [] None emptyDatabase) _)).
    reflexivity.
  - refine (proj1 (proj2 (C7_unmatched_storage
      StringSimilarity.compareTwoStrings halloween (lit "Main")
      {| artist := lit "HalloweenRadio"; title := lit "Station ID";
         original := lit "HalloweenRadio - Station ID" |}
      (lit "No search results") [] None emptyDatabase)) _).
    reflexivity.
Defined.

(** Counterexample to C7 as the specification states it: the announcement of
    a station identifier finds no search results, an unmatched outcome, and
    neither a row nor a count is stored for it. *)
Lemma C7_counterexample :
  firstResults noCatalog
    (searchQueries (lit "HalloweenRadio") (lit "Station ID")) = []
  ∧ database
      (snd (searchAndAddTrack StringSimilarity.compareTwoStrings noCatalog
              halloween (lit "Main") (lit "HalloweenRadio") (lit "Station ID")
              {| md_track :=
                   {| artist := lit "HalloweenRadio";
                      title := lit "Station ID";
                      original := lit "HalloweenRadio - Station ID" |};
                 md_station := lit "main";
                 md_timestamp := halloween |}
              freshService))
    = emptyDatabase.
Proof. split; reflexivity. Qed.

(** ** CatalogMatcher: threshold and tie-break *)

Section MatchingClaims.

Variable compareTwoStrings : list N → list N → number.

Lemma noMatch_logged (api : SpotifyApi)
    (now stationName radioArtist radioTitle : list N)
    (metadata : Metadata) (svc : Service) (tracks : list Track) :
  artist (md_track metadata) = radioArtist →
  title (md_track metadata) = radioTitle →
  firstResults api (searchQueries radioArtist radioTitle) = tracks →
  tracks ≠ [] →
  findBestMatch compareTwoStrings radioArtist radioTitle tracks = None →
  shouldSkip (md_track metadata) = false →
  let best :=
    findBestMatchForLogging compareTwoStrings radioArtist radioTitle tracks in
  ∃ row : UnmatchedRow,
    unmatched_tracks
      (database (snd (searchAndAddTrack compareTwoStrings api now
                        stationName radioArtist radioTitle metadata svc)))
    = unmatched_tracks (database svc) ++ [row]
    ∧ reason row = lit "No suitable match found"
    ∧ best_match_percentage row
      = from_option (fun m => mathRound (jsMul (similarity m) (ofZ 100)))
          0%Z best
    ∧ best_spotify_id row = orNull ((fun m => track_id (track m)) <$> best)
    ∧ best_spotify_artist row
      = orNull ((fun m => first_artist (track m)) <$> best)
    ∧ best_spotify_title row
      = orNull ((fun m => track_name (track m)) <$> best).
Proof.
  intros Ha Ht Hres Hne Hnone Hskip best.
  unfold searchAndAddTrack. rewrite Hres.
  destruct tracks as [|t0 ts]; [done|].
  set (tracks := t0 :: ts) in *. rewrite Hnone.
  cbn [snd withDatabase database].
  unfold logUnmatchedTrack. rewrite Hskip, Ha, Ht.
  fold best.
  assert ((match best with
           | Some m => Some (bestOf m)
           | None =>
               match firstn 3 tracks with
               | [] => None
               | _ :: _ =>
                   bestOf <$> findBestMatchForLogging compareTwoStrings
                                radioArtist radioTitle (firstn 3 tracks)
               end
           end) = bestOf <$> best) as ->.
  { destruct best as [m|] eqn:Hbest; [done|].
    assert (findBestMatchForLogging compareTwoStrings radioArtist radioTitle
              (firstn 3 tracks) = None) as ->.
    { apply findBestMatchForLogging_None. apply Forall_take.
      by apply findBestMatchForLogging_None. }
    by destruct (firstn 3 tracks). }
  match goal with
  | |- context [addUnmatchedTrack now ?td ?db] =>
      destruct (addUnmatchedTrack_spec now td db)
        as (row & R0 & _ & _ & _ & _ & _ & R1 & R2 & R3 & R4 & R5)
  end.
  exists row. cbn [um_reason um_percentage um_spotifyMatch] in *.
  split_and!; [done|done| | | |].
  - rewrite R2. by destruct best.
  - rewrite R3. by destruct best.
  - rewrite R4. by destruct best.
  - rewrite R5. by destruct best.
Qed.

(** The two scans in full: each either returns null, no candidate having
    passed its test, or returns the earliest of the candidates of highest
    score. *)
Lemma findBestMatch_total (radioArtist radioTitle : list N)
    (tracks : list Track) :
  let score :=
    combinedSimilarity compareTwoStrings (clean radioArtist)
      (clean radioTitle) in
  (findBestMatch compareTwoStrings radioArtist radioTitle tracks = None
   ∧ Forall (fun t => jsGe (score t) (decimal 75 100) = false) tracks)
  ∨ (∃ (pre : list Track) (t : Track) (post : list Track),
       tracks = pre ++ t :: post
       ∧ findBestMatch compareTwoStrings radioArtist radioTitle tracks
         = Some {| track := t; similarity := score t |}
       ∧ jsGe (score t) (decimal 75 100) = true
       ∧ Forall (fun x => jsGe (score x) (score t) = false) pre
       ∧ Forall (fun x => jsGt (score x) (score t) = false) post).
Proof.
  intros score.
  destruct (findBestMatch compareTwoStrings radioArtist radioTitle tracks)
    as [m|] eqn:E.
  - right.
    destruct (findBestMatch_Some _ _ _ _ _ E)
      as (pre & post & Htr & Hsim & Hge & Fpre & Fpost).
    fold score in Hsim, Fpre, Fpost.
    exists pre, (track m), post. rewrite <- Hsim.
    split_and!; try done. by destruct m.
  - left. split; [done|]. by apply findBestMatch_None.
Qed.

Lemma findBestMatchForLogging_total (radioArtist radioTitle : list N)
    (tracks : list Track) :
  let score :=
    combinedSimilarity compareTwoStrings (clean radioArtist)
      (clean radioTitle) in
  (findBestMatchForLogging compareTwoStrings radioArtist radioTitle tracks
   = None
   ∧ Forall (fun t => jsGt (score t) (ofZ 0) = false) tracks)
  ∨ (∃ (pre : list Track) (t : Track) (post : list Track),
       tracks = pre ++ t :: post
       ∧ findBestMatchForLogging compareTwoStrings radioArtist radioTitle
           tracks
         = Some {| track := t; similarity := score t |}
       ∧ jsGt (score t) (ofZ 0) = true
       ∧ Forall (fun x => jsGe (score x) (score t) = false) pre
       ∧ Forall (fun x => jsGt (score x) (score t) = false) post).
Proof.
  intros score.
  destruct (findBestMatchForLogging compareTwoStrings radioArtist radioTitle
              tracks) as [m|] eqn:E.
  - right.
    destruct (findBestMatchForLogging_Some _ _ _ _ _ E)
      as (pre & post & Htr & Hsim & Hgt & Fpre & Fpost).
    fold score in Hsim, Fpre, Fpost.
    exists pre, (track m), post. rewrite <- Hsim.
    split_and!; try done. by destruct m.
  - left. split; [done|]. by apply findBestMatchForLogging_None.
Qed.

(** C2 (amended statement).  The scores are binary64 numbers and the test
    is [>= 0.75] on them.  A candidate list yields a match exactly when one
    of its candidates passes that test; a score that is the number 0.75
    passes it, and a list whose scores are all [< 0.75] yields none.
    [findBestMatchForLogging], which has no 0.75 threshold, returns the
    earliest candidate of highest score when some candidate has a score
    [> 0], and nothing when none has.  In the no-match case of
    [searchAndAddTrack] that result goes into the unmatched row (catalog
    id, artist, title and rounded percentage; nulls and 0 when there is
    none), provided the keyword filter does not drop the row. *)
Theorem C2_threshold (radioArtist radioTitle : list N) (tracks : list Track) :
  let score :=
    combinedSimilarity compareTwoStrings (clean radioArtist)
      (clean radioTitle) in
  let best :=
    findBestMatchForLogging compareTwoStrings radioArtist radioTitle tracks in
  ((∃ t, t ∈ tracks ∧ score t = decimal 75 100) →
   is_Some (findBestMatch compareTwoStrings radioArtist radioTitle tracks))
  ∧ ((∃ t, t ∈ tracks ∧ jsGe (score t) (decimal 75 100) = true)
     ↔ is_Some (findBestMatch compareTwoStrings radioArtist radioTitle tracks))
  ∧ (Forall (fun t => jsGt (decimal 75 100) (score t) = true) tracks →
     findBestMatch compareTwoStrings radioArtist radioTitle tracks = None)
  ∧ ((∃ t, t ∈ tracks ∧ jsGt (score t) (ofZ 0) = true) →
     ∃ (pre : list Track) (t : Track) (post : list Track),
       tracks = pre ++ t :: post
       ∧ best = Some {| track := t; similarity := score t |}
       ∧ Forall (fun x => jsGe (score x) (score t) = false) pre
       ∧ Forall (fun x => jsGt (score x) (score t) = false) post)
  ∧ (Forall (fun t => jsGt (score t) (ofZ 0) = false) tracks → best = None)
  ∧ (∀ (api : SpotifyApi) (now stationName : list N) (metadata : Metadata)
       (svc : Service),
       artist (md_track metadata) = radioArtist →
       title (md_track metadata) = radioTitle →
       firstResults api (searchQueries radioArtist radioTitle) = tracks →
       tracks ≠ [] →
       findBestMatch compareTwoStrings radioArtist radioTitle tracks = None →
       shouldSkip (md_track metadata) = false →
       ∃ row : UnmatchedRow,
         unmatched_tracks
           (database (snd (searchAndAddTrack compareTwoStrings api now
                             stationName radioArtist radioTitle metadata svc)))
         = unmatched_tracks (database svc) ++ [row]
         ∧ reason row = lit "No suitable match found"
         ∧ best_match_percentage row
           = from_option
               (fun m => mathRound (jsMul (similarity m) (ofZ 100))) 0%Z best
         ∧ best_spotify_id row
           = orNull ((fun m => track_id (track m)) <$> best)
         ∧ best_spotify_artist row
           = orNull ((fun m => first_artist (track m)) <$> best)
         ∧ best_spotify_title row
           = orNull ((fun m => track_name (track m)) <$> best)).
Proof.
  intros score best.
  assert ((∃ t, t ∈ tracks ∧ jsGe (score t) (decimal 75 100) = true)
          ↔ is_Some (findBestMatch compareTwoStrings radioArtist radioTitle
                       tracks)) as Hiff.
  { destruct (findBestMatch_total radioArtist radioTitle tracks)
      as [[E F]|(pre & t & post & Htr & E & Hge & _)].
    - rewrite E. split; [|by intros [? ?]].
      intros (t & Hin & Hs). rewrite Forall_forall in F.
      specialize (F t Hin). fold score in F. congruence.
    - rewrite E. split; [done|]. intros _. exists t. split; [|done].
      rewrite Htr. apply elem_of_app. right. apply list_elem_of_here. }
  split_and!.
  - intros (t & Hin & Hs). apply Hiff. exists t. split; [done|].
    rewrite Hs. by vm_compute.
  - exact Hiff.
  - intros F. apply findBestMatch_None.
    eapply Forall_impl; [exact F|]. intros x Hx. cbn beta in Hx.
    by apply SFltb_not_SFleb.
  - intros (t & Hin & Hs).
    destruct (findBestMatchForLogging_total radioArtist radioTitle tracks)
      as [[E F]|(pre & t' & post & Htr & E & _ & Fpre & Fpost)].
    + rewrite Forall_forall in F. specialize (F t Hin).
      fold score in F. congruence.
    + by exists pre, t', post.
  - apply findBestMatchForLogging_None.
  - intros api now stationName metadata svc. by apply noMatch_logged.
Qed.

(** C3 (amended statement).  The score of a candidate for an announced
    artist and title.  Both sides are normalised by [clean]: lower-case,
    delete every code unit that is neither of the class [\w] (ASCII
    letters, digits and the underscore) nor white space, trim; the artists
    of the candidate are joined by a space first.  So only lower-case
    letters, digits, the underscore and white space remain, none of the
    white space at the ends; a string of that form is left as it is, and
    normalising twice changes nothing more.  The bonus is 0.8 when one of
    the two normalised strings occurs in the other and 0 otherwise.  Per
    field the score is [Math.max] of the similarity and the bonus: one of
    the two, and [>=] both unless the similarity is NaN.  The combined
    score is the field score of the artist times 0.4 plus that of the title
    times 0.6, in binary64 arithmetic.  Each scan either returns null, no
    candidate having passed its test ([>= 0.75], or [> 0] for the log), or
    returns the earliest of the candidates of highest score: no candidate
    before it scores as high, none after it scores higher, so that a tie
    keeps the earlier candidate. *)
Theorem C3_scoring (radioArtist radioTitle : list N) (tracks : list Track) :
  let cleanArtist := clean radioArtist in
  let cleanTitle := clean radioTitle in
  let score := combinedSimilarity compareTwoStrings cleanArtist cleanTitle in
  (∀ s : list N,
     clean s
     = trim (List.filter (fun c => isWordChar c || isWhiteSpace c)
               (toLowerCase s))
     ∧ (∀ c : N, c ∈ clean s →
          (isWordChar c || isWhiteSpace c = true) ∧ ¬ (65 ≤ c ∧ c ≤ 90))
     ∧ noOuterSpace (clean s)
     ∧ clean (clean s) = clean s
     ∧ (Forall (fun c => (isWordChar c || isWhiteSpace c = true)
                         ∧ ¬ (65 ≤ c ∧ c ≤ 90)) s →
        noOuterSpace s → clean s = s))
  ∧ (∀ a b : list N,
       (occursIn a b ∨ occursIn b a → containsBonus a b = decimal 8 10)
       ∧ (¬ (occursIn a b ∨ occursIn b a) → containsBonus a b = ofZ 0))
  ∧ (∀ a b : list N,
       let sim := compareTwoStrings a b in
       let bonus := containsBonus b a in
       let field := fieldSimilarity compareTwoStrings a b in
       (field = sim ∨ field = bonus)
       ∧ (jsGe sim sim = true →
          jsGe field sim = true ∧ jsGe field bonus = true))
  ∧ (∀ t : Track,
       score t
       = jsAdd
           (jsMul (fieldSimilarity compareTwoStrings cleanArtist
                     (clean (join [32] (artistNames t)))) (decimal 4 10))
           (jsMul (fieldSimilarity compareTwoStrings cleanTitle
                     (clean (track_name t))) (decimal 6 10)))
  ∧ ((findBestMatch compareTwoStrings radioArtist radioTitle tracks = None
      ∧ Forall (fun t => jsGe (score t) (decimal 75 100) = false) tracks)
     ∨ (∃ (pre : list Track) (t : Track) (post : list Track),
          tracks = pre ++ t :: post
          ∧ findBestMatch compareTwoStrings radioArtist radioTitle tracks
            = Some {| track := t; similarity := score t |}
          ∧ jsGe (score t) (decimal 75 100) = true
          ∧ Forall (fun x => jsGe (score x) (score t) = false) pre
          ∧ Forall (fun x => jsGt (score x) (score t) = false) post))
  ∧ ((findBestMatchForLogging compareTwoStrings radioArtist radioTitle tracks
      = None
      ∧ Forall (fun t => jsGt (score t) (ofZ 0) = false) tracks)
     ∨ (∃ (pre : list Track) (t : Track) (post : list Track),
          tracks = pre ++ t :: post
          ∧ findBestMatchForLogging compareTwoStrings radioArtist radioTitle
              tracks
            = Some {| track := t; similarity := score t |}
          ∧ jsGt (score t) (ofZ 0) = true
          ∧ Forall (fun x => jsGe (score x) (score t) = false) pre
          ∧ Forall (fun x => jsGt (score x) (score t) = false) post)).
Proof.
  intros cleanArtist cleanTitle score. split_and!.
  - intros s. split_and!.
    + done.
    + intros c. apply clean_elem.
    + apply clean_noOuterSpace.
    + apply clean_idempotent.
    + apply clean_id.
  - intros a b. unfold containsBonus.
    rewrite <- !includes_spec. split.
    + intros [H|H]; rewrite H; [rewrite orb_true_r|]; done.
    + intros H. destruct (includes b a) eqn:E1; [tauto|].
      destruct (includes a b) eqn:E2; [tauto|]. done.
  - intros a b sim bonus field.
    destruct (mathMax_spec sim bonus) as [H1 H2].
    split; [exact H1|]. intros Hs. apply H2; [done|].
    subst bonus. unfold containsBonus.
    by destruct (includes b a || includes a b).
  - done.
  - apply findBestMatch_total.
  - apply findBestMatchForLogging_total.
Qed.

End MatchingClaims.

Lemma C2_witness :
  is_Some (findBestMatch StringSimilarity.compareTwoStrings
             (lit "abcd12345") (lit "zw") [boundaryTrack])
  ∧ is_Some (findBestMatch StringSimilarity.compareTwoStrings
               (lit "xy") (lit "zw") [unrelatedTrack])
  ∧ findBestMatch StringSimilarity.compareTwoStrings
      (lit "abcdefg12345") nearTitle [nearBoundaryTrack] = None
  ∧ (∃ (pre : list Track) (t : Track) (post : list Track),
       [unrelatedTrack; boundaryTrack] = pre ++ t :: post
       ∧ findBestMatchForLogging StringSimilarity.compareTwoStrings
           (lit "abcd12345") (lit "qq") [unrelatedTrack; boundaryTrack]
         = Some {| track := t;
                   similarity :=
                     combinedSimilarity StringSimilarity.compareTwoStrings
                       (clean (lit "abcd12345")) (clean (lit "qq")) t |}
       ∧ Forall (fun x =>
           jsGe (combinedSimilarity StringSimilarity.compareTwoStrings
                   (clean (lit "abcd12345")) (clean (lit "qq")) x)
                (combinedSimilarity StringSimilarity.compareTwoStrings
                   (clean (lit "abcd12345")) (clean (lit "qq")) t)
           = false) pre
       ∧ Forall (fun x =>
           jsGt (combinedSimilarity StringSimilarity.compareTwoStrings
                   (clean (lit "abcd12345")) (clean (lit "qq")) x)
                (combinedSimilarity StringSimilarity.compareTwoStrings
                   (clean (lit "abcd12345")) (clean (lit "qq")) t)
           = false) post)
  ∧ findBestMatchForLogging StringSimilarity.compareTwoStrings
      (lit "ab") (lit "cd") [unrelatedTrack] = None
  ∧ (∃ row : UnmatchedRow,
       unmatched_tracks
         (database
            (snd (searchAndAddTrack StringSimilarity.compareTwoStrings
                    (catalogOf boundaryTrack) halloween (lit "Main")
                    (lit "abcd12345") (lit "qq")
                    (metadataOf (lit "abcd12345") (lit "qq")) freshService)))
       = unmatched_tracks (database freshService) ++ [row]
       ∧ reason row = lit "No suitable match found"
       ∧ best_match_percentage row
         = from_option
             (fun m => mathRound (jsMul (similarity m) (ofZ 100))) 0%Z
             (findBestMatchForLogging StringSimilarity.compareTwoStrings
                (lit "abcd12345") (lit "qq") [boundaryTrack])
       ∧ best_spotify_id row
         = orNull ((fun m => track_id (track m))
                   <$> findBestMatchForLogging
                         StringSimilarity.compareTwoStrings
                         (lit "abcd12345") (lit "qq") [boundaryTrack])
       ∧ best_spotify_artist row
         = orNull ((fun m => first_artist (track m))
                   <$> findBestMatchForLogging
                         StringSimilarity.compareTwoStrings
                         (lit "abcd12345") (lit "qq") [boundaryTrack])
       ∧ best_spotify_title row
         = orNull ((fun m => track_name (track m))
                   <$> findBestMatchForLogging
                         StringSimilarity.compareTwoStrings
                         (lit "abcd12345") (lit "qq") [boundaryTrack])).
Proof.
  split_and!.
  - refine (proj1 (C2_threshold StringSimilarity.compareTwoStrings
                     (lit "abcd12345") (lit "zw") [boundaryTrack]) _).
    exists boundaryTrack. split; [apply list_elem_of_here|]. by vm_compute.
  - refine (proj1 (proj1 (proj2
      (C2_threshold StringSimilarity.compareTwoStrings
         (lit "xy") (lit "zw") [unrelatedTrack]))) _).
    exists unrelatedTrack. split; [apply list_elem_of_here|]. by vm_compute.
  - refine (proj1 (proj2 (proj2
      (C2_threshold StringSimilarity.compareTwoStrings
         (lit "abcdefg12345") nearTitle [nearBoundaryTrack]))) _).
    repeat constructor.
  - refine (proj1 (proj2 (proj2 (proj2
      (C2_threshold StringSimilarity.compareTwoStrings
         (lit "abcd12345") (lit "qq") [unrelatedTrack; boundaryTrack])))) _).
    exists boundaryTrack.
    split; [apply list_elem_of_further, list_elem_of_here|]. by vm_compute.
  - refine (proj1 (proj2 (proj2 (proj2 (proj2
      (C2_threshold StringSimilarity.compareTwoStrings
         (lit "ab") (lit "cd") [unrelatedTrack]))))) _).
    repeat constructor.
  - refine (proj2 (proj2 (proj2 (proj2 (proj2
      (C2_threshold StringSimilarity.compareTwoStrings
         (lit "abcd12345") (lit "qq") [boundaryTrack])))))
      (catalogOf boundaryTrack) halloween (lit "Main")
      (metadataOf (lit "abcd12345") (lit "qq")) freshService _ _ _ _ _ _);
      try reflexivity.
    discriminate.
Defined.

(** Counterexample to the last part of C2 as the specification states it.
    The one candidate of the first list has combined score 0: there is no
    match, [findBestMatchForLogging] produces no candidate either, and the
    unmatched row carries a null catalog id and percentage 0.  For the
    announcement of a jingle the best candidate below the threshold is
    produced, but the keyword filter drops the record it was meant for. *)
Lemma C2_counterexample :
  findBestMatch StringSimilarity.compareTwoStrings (lit "ab") (lit "cd")
    [unrelatedTrack] = None
  ∧ findBestMatchForLogging StringSimilarity.compareTwoStrings
      (lit "ab") (lit "cd") [unrelatedTrack] = None
  ∧ map (fun row => (best_spotify_id row, best_match_percentage row))
      (unmatched_tracks
         (database
            (snd (searchAndAddTrack StringSimilarity.compareTwoStrings
                    (catalogOf unrelatedTrack) halloween (lit "Main")
                    (lit "ab") (lit "cd")
                    (metadataOf (lit "ab") (lit "cd")) freshService))))
    = [(None, 0%Z)]
  ∧ findBestMatch StringSimilarity.compareTwoStrings
      (lit "abcd12345") (lit "Jingle") [boundaryTrack] = None
  ∧ track <$> findBestMatchForLogging StringSimilarity.compareTwoStrings
                (lit "abcd12345") (lit "Jingle") [boundaryTrack]
    = Some boundaryTrack
  ∧ database
      (snd (searchAndAddTrack StringSimilarity.compareTwoStrings
              (catalogOf boundaryTrack) halloween (lit "Main")
              (lit "abcd12345") (lit "Jingle")
              (metadataOf (lit "abcd12345") (lit "Jingle")) freshService))
    = emptyDatabase.
Proof. split_and!; by vm_compute. Qed.

(** The scores at the boundary, as the numbers they are.  The candidate
    of three shared bigrams out of eight scores the number 0.75, from
    0.375 * 0.4 + 1 * 0.6, and is taken.  The candidate whose score would be
    3/4 in exact arithmetic scores 0.7499999999999999, the number just
    below 0.75, and is not taken; the percentage of its unmatched row is
    75. *)
Lemma boundary_scores :
  combinedSimilarity StringSimilarity.compareTwoStrings
    (clean (lit "abcd12345")) (clean (lit "zw")) boundaryTrack
  = decimal 75 100
  ∧ decimal 75 100 = S754_finite false 6755399441055744 (-53)
  ∧ combinedSimilarity StringSimilarity.compareTwoStrings
      (clean (lit "abcdefg12345")) (clean nearTitle) nearBoundaryTrack
    = S754_finite false 6755399441055743 (-53)
  ∧ findBestMatch StringSimilarity.compareTwoStrings
      (lit "abcdefg12345") nearTitle [nearBoundaryTrack] = None
  ∧ map (fun row => (best_spotify_id row, best_match_percentage row))
      (unmatched_tracks
         (database
            (snd (searchAndAddTrack StringSimilarity.compareTwoStrings
                    (catalogOf nearBoundaryTrack) halloween (lit "Main")
                    (lit "abcdefg12345") nearTitle
                    (metadataOf (lit "abcdefg12345") nearTitle)
                    freshService))))
    = [(Some (lit "3near"), 75%Z)].
Proof. split_and!; by vm_compute. Qed.

Lemma C3_witness :
  ((isWordChar 97 || isWhiteSpace 97 = true) ∧ ¬ (65 ≤ 97 ∧ 97 ≤ 90))
  ∧ clean (lit "monster mash") = lit "monster mash"
  ∧ containsBonus (lit "monster mash") (lit "mash") = decimal 8 10
  ∧ containsBonus (lit "ab") (lit "xy") = ofZ 0
  ∧ (jsGe (fieldSimilarity StringSimilarity.compareTwoStrings
             (lit "mash") (lit "monster mash"))
          (StringSimilarity.compareTwoStrings (lit "mash")
             (lit "monster mash")) = true
     ∧ jsGe (fieldSimilarity StringSimilarity.compareTwoStrings
               (lit "mash") (lit "monster mash"))
            (containsBonus (lit "monster mash") (lit "mash")) = true).
Proof.
  split; [|split; [|split; [|split]]].
  - refine (proj1 (proj2 (proj1
      (C3_scoring StringSimilarity.compareTwoStrings (lit "xy") (lit "zw") [])
      (lit "A!"))) 97 _).
    vm_compute. apply list_elem_of_here.
  - refine (proj2 (proj2 (proj2 (proj2 (proj1
      (C3_scoring StringSimilarity.compareTwoStrings (lit "xy") (lit "zw") [])
      (lit "monster mash"))))) _ _).
    + let l := eval vm_compute in (lit "monster mash") in
      change (lit "monster mash") with l.
      repeat (constructor; [split; [reflexivity|lia]|]).
      constructor.
    + split.
      * intros c r E. injection E as <- _. reflexivity.
      * intros r c E. apply (f_equal (@rev N)) in E.
        rewrite rev_app_distr in E. injection E as <- _. reflexivity.
  - refine (proj1 (proj1 (proj2
      (C3_scoring StringSimilarity.compareTwoStrings (lit "xy") (lit "zw") []))
      (lit "monster mash") (lit "mash")) _).
    right. apply includes_spec. reflexivity.
  - refine (proj2 (proj1 (proj2
      (C3_scoring StringSimilarity.compareTwoStrings (lit "xy") (lit "zw") []))
      (lit "ab") (lit "xy")) _).
    intros [H|H]; apply includes_spec in H; vm_compute in H; discriminate.
  - refine (proj2 (proj1 (proj2 (proj2
      (C3_scoring StringSimilarity.compareTwoStrings (lit "xy") (lit "zw") [])))
      (lit "mash") (lit "monster mash")) _).
    reflexivity.
Defined.

(** Counterexample to the normalisation of C3 as the specification states
    it.  The underscore is neither alphanumeric nor white space and is not
    stripped: the announced "Trick_or_Treat" is normalised to
    "trick_or_treat", not to "trickortreat", and so does not score 1
    against the candidate "TrickorTreat", which the stated normalisation
    makes equal to it.  A letter outside ASCII is stripped. *)
Lemma C3_counterexample :
  clean (lit "Trick_or_Treat") = lit "trick_or_treat"
  ∧ normalizedAsStated (lit "Trick_or_Treat") = lit "trickortreat"
  ∧ clean (lit "Trick_or_Treat") ≠ normalizedAsStated (lit "Trick_or_Treat")
  ∧ isAlphanumeric 95 = false
  ∧ isWhiteSpace 95 = false
  ∧ 95 ∈ clean (lit "Trick_or_Treat")
  ∧ normalizedAsStated (lit "Trick_or_Treat")
    = normalizedAsStated (lit "TrickorTreat")
  ∧ jsGe (fieldSimilarity StringSimilarity.compareTwoStrings
            (clean (lit "Trick_or_Treat")) (clean (lit "TrickorTreat")))
         (ofZ 1) = false
  ∧ clean [66; 101; 121; 111; 110; 99; 233] = lit "beyonc".
Proof.
  split_and!; try (by vm_compute).
  vm_compute. do 5 apply list_elem_of_further. apply list_elem_of_here.
Qed.

(** * Further properties of the code *)

(** ** MetadataNormalizer: the shape of a parse *)

Lemma parseWith_cases (seps : list (list N)) (t : list N) :
  Forall (fun s : list N => s ≠ []) seps →
  (Forall (fun s => includes t s = false) seps
   ∧ parseWith seps t
     = {| artist := lit "Unknown Artist"; title := t; original := t |})
  ∨ (∃ (pre : list (list N)) (sep : list N) (post : list (list N))
       (left : list N) (rest : list (list N)),
       seps = pre ++ sep :: post
       ∧ Forall (fun s => includes t s = false) pre
       ∧ rest ≠ []
       ∧ t = left ++ sep ++ join sep rest
       ∧ parseWith seps t
         = if isBy sep
           then {| title := trim left;
                   artist := trim (nth 0 rest []);
                   original := t |}
           else {| artist := trim left;
                   title := trim (join sep rest);
                   original := t |}).
Proof.
  induction 1 as [|s seps Hs Hseps IH].
  - left. by split.
  - destruct (includes t s) eqn:E.
    + right.
      destruct (split_occurs t s Hs E) as (left & rest & Hsplit & Hrest & Ht & _).
      exists [], s, seps, left, rest. split_and!; try done.
      cbn [parseWith]. rewrite E, Hsplit.
      destruct rest as [|r rest]; [done|]. simpl. by destruct (isBy s).
    + destruct IH as [[F P]|(pre & sep & post & left & rest & -> & F & R & T & P)].
      * left. split; [by constructor|]. cbn [parseWith]. by rewrite E.
      * right. exists (s :: pre), sep, post, left, rest.
        split_and!; try done; [by constructor|].
        cbn [parseWith]. by rewrite E.
Qed.

Lemma separators_inv (pre post : list (list N)) (sep : list N) :
  separators = pre ++ sep :: post →
  (pre = [] ∧ sep = sepHyphen)
  ∨ (pre = [sepHyphen] ∧ sep = sepEnDash)
  ∨ (pre = [sepHyphen; sepEnDash] ∧ sep = sepEmDash)
  ∨ (pre = [sepHyphen; sepEnDash; sepEmDash] ∧ sep = sepColon)
  ∨ (pre = [sepHyphen; sepEnDash; sepEmDash; sepColon] ∧ sep = sepBy).
Proof.
  unfold separators. intros H.
  destruct pre as [|s1 pre]; [injection H as <- _; tauto|].
  injection H as <- H.
  destruct pre as [|s2 pre]; [injection H as <- _; tauto|].
  injection H as <- H.
  destruct pre as [|s3 pre]; [injection H as <- _; tauto|].
  injection H as <- H.
  destruct pre as [|s4 pre]; [injection H as <- _; tauto|].
  injection H as <- H.
  destruct pre as [|s5 pre]; [injection H as <- _; tauto|].
  injection H as <- H. by destruct pre.
Qed.

Lemma separators_end_space :
  Forall (fun s : list N => ∃ b : list N, s = b ++ [32]) separators.
Proof.
  repeat constructor;
    [exists (lit " -")|exists [32; 8211]|exists [32; 8212]
    |exists (lit ":")|exists (lit " by")]; reflexivity.
Qed.

Lemma noOuterSpace_unknown : noOuterSpace (lit "Unknown Artist").
Proof.
  replace (lit "Unknown Artist") with (trim (lit "Unknown Artist"))
    by reflexivity.
  apply trim_noOuterSpace.
Qed.

(** X1.  Every field of a parse is free of white space at its ends. *)
Theorem parseStreamTitle_trimmed (streamTitle : list N) :
  noOuterSpace (artist (parseStreamTitle streamTitle))
  ∧ noOuterSpace (title (parseStreamTitle streamTitle))
  ∧ noOuterSpace (original (parseStreamTitle streamTitle)).
Proof.
  unfold parseStreamTitle.
  destruct (parseWith_cases separators (trim streamTitle) separators_nonempty)
    as [[_ ->]|(pre & sep & post & left & rest & _ & _ & _ & _ & ->)].
  - simpl. split_and!; [apply noOuterSpace_unknown|apply trim_noOuterSpace..].
  - destruct (isBy sep); simpl; split_and!; apply trim_noOuterSpace.
Qed.

(** X2.  Parsing the [original] field of a parse gives the parse again. *)
Theorem parseStreamTitle_original (streamTitle : list N) :
  parseStreamTitle (original (parseStreamTitle streamTitle))
  = parseStreamTitle streamTitle.
Proof.
  unfold parseStreamTitle at 2. rewrite parseWith_original.
  unfold parseStreamTitle. by rewrite trim_idempotent.
Qed.

Lemma noOuterSpace_prefix (t left more : list N) :
  noOuterSpace t → t = left ++ more → left ≠ [] → trim left ≠ [].
Proof.
  intros [H _] -> Hl. destruct left as [|c r]; [done|].
  apply (trim_nonempty _ c); [apply list_elem_of_here|].
  by apply (H c (r ++ more)).
Qed.

Lemma noOuterSpace_suffix (t more right : list N) :
  noOuterSpace t → t = more ++ right → right ≠ [] → trim right ≠ [].
Proof.
  intros [_ H] -> Hr.
  destruct (exists_last Hr) as (r & c & ->).
  apply (trim_nonempty _ c).
  - apply elem_of_app. right. apply list_elem_of_here.
  - apply (H (more ++ r) c). by rewrite app_assoc.
Qed.

(** X3.  Which fields of a parse can be empty.  The title is empty only for a text
    of white space; the artist is empty only when none of the three dashes
    occurs, that is, when the colon or by decides. *)
Theorem parseStreamTitle_empty_fields (streamTitle : list N) :
  (title (parseStreamTitle streamTitle) = []
   ↔ Forall (fun c => isWhiteSpace c = true) streamTitle)
  ∧ (artist (parseStreamTitle streamTitle) = [] →
     ¬ occursIn sepHyphen (trim streamTitle)
     ∧ ¬ occursIn sepEnDash (trim streamTitle)
     ∧ ¬ occursIn sepEmDash (trim streamTitle)
     ∧ (occursIn sepColon (trim streamTitle)
        ∨ occursIn sepBy (trim streamTitle))).
Proof.
  rewrite <- trim_nil_iff. unfold parseStreamTitle.
  pose proof (trim_noOuterSpace streamTitle) as Ht.
  set (t := trim streamTitle) in *.
  destruct (parseWith_cases separators t separators_nonempty)
    as [[_ ->]|(pre & sep & post & left & rest & Hseps & F & R & T & ->)].
  - split; [done|]. by intros H.
  - assert (∃ b, sep = b ++ [32]) as Hend.
    { pose proof separators_end_space as A. rewrite Hseps in A.
      apply Forall_app in A as [_ A]. by inversion A. }
    assert (t ≠ []) as Hne.
    { destruct Hend as (b & Hb). rewrite T, Hb. intros E. by destruct left, b. }
    assert (join sep rest ≠ []) as Hright.
    { destruct Hend as (b & Hb).
      intros E. rewrite E, app_nil_r, Hb, app_assoc in T.
      destruct Ht as [_ Ht]. by pose proof (Ht _ _ T). }
    clear Hend.
    assert (sep = 32 :: skipn 1 sep → left ≠ []) as Hleft.
    { intros Hs E. rewrite E, Hs in T. simpl in T.
      destruct Ht as [Ht _]. by pose proof (Ht _ _ T). }
    assert (¬ includes t sepHyphen = true → ¬ occursIn sepHyphen t) as N1
      by (intros A B; by apply A, includes_spec).
    split.
    + split; [|done]. intros E. exfalso.
      destruct (isBy sep) eqn:B; simpl in E.
      * apply bool_decide_eq_true in B. subst sep.
        by apply (noOuterSpace_prefix t left _ Ht T (Hleft eq_refl)).
      * revert E. apply (noOuterSpace_suffix t (left ++ sep) _ Ht); [|done].
        by rewrite <- app_assoc.
    + intros E.
      assert (occursIn sep t) as Hocc by by exists left, (join sep rest).
      destruct (separators_inv _ _ _ Hseps)
        as [[-> ->]|[[-> ->]|[[-> ->]|[[-> ->]|[-> ->]]]]];
        try (exfalso; simpl in E;
             by apply (noOuterSpace_prefix t left _ Ht T (Hleft eq_refl))).
      * inversion F as [|? ? F1 F']; inversion F' as [|? ? F2 F''];
          inversion F'' as [|? ? F3 _]; subst.
        split_and!; try (intros A; apply includes_spec in A; congruence).
        by left.
      * inversion F as [|? ? F1 F']; inversion F' as [|? ? F2 F''];
          inversion F'' as [|? ? F3 _]; subst.
        split_and!; try (intros A; apply includes_spec in A; congruence).
        by right.
Qed.

Lemma parseStreamTitle_empty_fields_witness :
  title (parseStreamTitle (lit "   ")) = []
  ∧ ¬ occursIn sepHyphen (trim (lit ": Thriller"))
  ∧ ¬ occursIn sepEnDash (trim (lit ": Thriller"))
  ∧ ¬ occursIn sepEmDash (trim (lit ": Thriller"))
  ∧ (occursIn sepColon (trim (lit ": Thriller"))
     ∨ occursIn sepBy (trim (lit ": Thriller"))).
Proof.
  split.
  - refine (proj2 (proj1 (parseStreamTitle_empty_fields (lit "   "))) _).
    repeat constructor.
  - refine (proj2 (parseStreamTitle_empty_fields (lit ": Thriller")) _).
    reflexivity.
Defined.

(** ** ChangeDetector: stations and sequences of frames *)

Lemma handleMetadata_cases (now stationName : list N)
    (StreamTitle : option (list N))
    (lastMetadata : gmap (list N) ParsedTrack) :
  handleMetadata now stationName StreamTitle lastMetadata = (lastMetadata, None)
  ∨ ∃ currentTrack : ParsedTrack,
      artist currentTrack ≠ [] ∧ title currentTrack ≠ []
      ∧ sameTrack (lastMetadata !! stationName) currentTrack = false
      ∧ handleMetadata now stationName StreamTitle lastMetadata
        = (<[stationName := currentTrack]> lastMetadata,
           Some {| pc_station := capitalizeStationName stationName;
                   pc_artist := artist currentTrack;
                   pc_title := title currentTrack;
                   pc_metadata := {| md_track := currentTrack;
                                     md_station := stationName;
                                     md_timestamp := now |} |}).
Proof.
  unfold handleMetadata. destruct StreamTitle as [streamTitle|]; [|by left].
  destruct (isEmpty streamTitle); [by left|].
  destruct (isEmpty (artist (parseStreamTitle streamTitle))) eqn:Ea;
    [by left|].
  destruct (isEmpty (title (parseStreamTitle streamTitle))) eqn:Et;
    [by left|].
  simpl. destruct (sameTrack _ _) eqn:Es; [by left|].
  right. exists (parseStreamTitle streamTitle).
  apply isEmpty_false in Ea, Et. by split_and!.
Qed.

(** X4.  The frames of one station leave the last-seen track of every other
    station as it is. *)
Theorem feedFrames_other_station (now stationName other : list N)
    (frames : list (option (list N)))
    (lastMetadata : gmap (list N) ParsedTrack) :
  other ≠ stationName →
  fst (feedFrames now stationName frames lastMetadata) !! other
  = lastMetadata !! other.
Proof.
  intros Hne. revert lastMetadata.
  induction frames as [|frame rest IH]; intros lastMetadata; [done|].
  cbn [feedFrames].
  destruct (handleMetadata_cases now stationName frame lastMetadata)
    as [E|(cur & _ & _ & _ & E)]; rewrite E;
    specialize (IH (fst (handleMetadata now stationName frame lastMetadata)));
    rewrite E in IH; cbn [fst] in IH;
    destruct (feedFrames now stationName rest _) as [l2 calls];
    cbn [fst] in *; [done|].
  by rewrite IH, lookup_insert_ne.
Qed.

Lemma feedFrames_other_station_witness :
  fst (feedFrames halloween (lit "main")
         [Some (lit "Bobby Pickett - Monster Mash")]
         {[ lit "kids" := parseStreamTitle (lit "Casper - Theme") ]})
    !! lit "kids"
  = ({[ lit "kids" := parseStreamTitle (lit "Casper - Theme") ]}
       : gmap (list N) ParsedTrack) !! lit "kids".
Proof.
  apply feedFrames_other_station. vm_compute. discriminate.
Defined.

Lemma last_cons_default {A : Type} (a d : A) (l : list A) :
  List.last (a :: l) d = List.last l a.
Proof.
  revert a d. induction l as [|b l IH]; intros a d; [done|].
  change (List.last (a :: b :: l) d) with (List.last (b :: l) d).
  by rewrite (IH b d), (IH b a).
Qed.

(** X5.  Of the frames of a station, the pipeline sees every change of track and
    nothing else: each call carries an artist and a title, differs in one of
    them from the call before it (the first from the stored track), and
    afterwards the stored track is that of the last call. *)
Theorem feedFrames_calls (now stationName : list N)
    (frames : list (option (list N)))
    (lastMetadata : gmap (list N) ParsedTrack) :
  let after := fst (feedFrames now stationName frames lastMetadata) in
  let calls := snd (feedFrames now stationName frames lastMetadata) in
  eachChanges (trackKey <$> lastMetadata !! stationName) calls
  ∧ Forall (fun c => pc_artist c ≠ [] ∧ pc_title c ≠ []) calls
  ∧ (length calls ≤ length frames)%nat
  ∧ trackKey <$> after !! stationName
    = List.last (map (fun c => Some (pc_artist c, pc_title c)) calls)
        (trackKey <$> lastMetadata !! stationName).
Proof.
  revert lastMetadata.
  induction frames as [|frame rest IH]; intros lastMetadata after calls.
  - subst after calls. simpl. split_and!; [done|constructor|lia|done].
  - subst after calls. cbn [feedFrames].
    destruct (handleMetadata_cases now stationName frame lastMetadata)
      as [E|(cur & Ha & Ht & Hs & E)]; rewrite E;
      specialize (IH (fst (handleMetadata now stationName frame lastMetadata)));
      rewrite E in IH; cbn [fst] in IH;
      destruct (feedFrames now stationName rest _) as [l2 calls];
      cbn [fst snd] in *; destruct IH as (I1 & I2 & I3 & I4).
    + cbn [from_option app length]. split_and!; [done|done|lia|done].
    + rewrite lookup_insert_eq in I1, I4. cbn [fmap option_fmap option_map trackKey] in I1, I4.
      cbn [from_option app length map pc_artist pc_title].
      split_and!.
      * cbn [eachChanges pc_artist pc_title]. split; [|done].
        intros Hk. destruct (lastMetadata !! stationName) as [l|] eqn:El;
          [|done].
        injection Hk as Hk1 Hk2.
        assert (sameTrack (Some l) cur = true) as A; [|congruence].
        apply sameTrack_spec. by exists l.
      * by constructor.
      * lia.
      * by rewrite I4, last_cons_default.
Qed.

Lemma lowerUnit_upperUnit (c : N) :
  97 ≤ c ∧ c ≤ 122 → lowerUnit (upperUnit c) = [c] ∧ lowerUnit c = [c].
Proof.
  intros [H1 H2]. unfold lowerUnit, upperUnit.
  assert ((97 <=? c) && (c <=? 122) = true) as ->.
  { apply andb_true_iff. split; by apply N.leb_le. }
  assert ((65 <=? c - 32) && (c - 32 <=? 90) = true) as ->.
  { apply andb_true_iff. split; apply N.leb_le; lia. }
  assert ((65 <=? c) && (c <=? 90) = false) as ->.
  { apply andb_false_iff. right. apply N.leb_gt. lia. }
  destruct (N.eqb_spec c 304); [lia|]. destruct (N.eqb_spec c 8490); [lia|].
  split; [f_equal; lia|done].
Qed.

Lemma toLowerCase_capitalized (stationName : list N) :
  Forall (fun c => 97 ≤ c ∧ c ≤ 122) stationName →
  toLowerCase (capitalizeStationName stationName) = stationName.
Proof.
  intros H. assert (toLowerCase stationName = stationName) as Hlow.
  { induction H as [|c r Hc _ IH]; [done|].
    unfold toLowerCase in *. simpl.
    by rewrite (proj2 (lowerUnit_upperUnit c Hc)), IH. }
  destruct H as [|c r Hc Hr]; [done|].
  unfold capitalizeStationName, toLowerCase in *. simpl in *.
  rewrite (proj1 (lowerUnit_upperUnit c Hc)).
  rewrite (proj2 (lowerUnit_upperUnit c Hc)) in Hlow. by injection Hlow as ->.
Qed.

(** X6.  For a station name of lower-case ASCII letters, as the configured names
    are, the lower-cased form of the capitalised name is the name: the
    playlist that the pipeline looks up is the monitor's station. *)
Theorem capitalizeStationName_toLowerCase (stationName : list N) :
  Forall (fun c => 97 ≤ c ∧ c ≤ 122) stationName →
  toLowerCase (capitalizeStationName stationName) = stationName.
Proof. apply toLowerCase_capitalized. Qed.

Lemma capitalizeStationName_witness :
  toLowerCase (capitalizeStationName (lit "movies")) = lit "movies".
Proof.
  apply capitalizeStationName_toLowerCase.
  repeat constructor; by vm_compute.
Defined.

(** ** The pipeline: one call and sequences of calls *)

Lemma updateDailyStats_matched_tracks (now s : list N) (type : StatType)
    (p : option Z) (db : Database) :
  matched_tracks (updateDailyStats now s type p db) = matched_tracks db
  ∧ matched_seq (updateDailyStats now s type p db) = matched_seq db
  ∧ unmatched_tracks (updateDailyStats now s type p db) = unmatched_tracks db
  ∧ unmatched_seq (updateDailyStats now s type p db) = unmatched_seq db.
Proof. done. Qed.

Lemma logUnmatchedTrack_matched_tracks
    (compareTwoStrings : list N → list N → number) (now s : list N)
    (metadata : ParsedTrack) (why : list N) (searchResults : list Track)
    (best : option Match) (db : Database) :
  matched_tracks
    (logUnmatchedTrack compareTwoStrings now s metadata why searchResults
       best db)
  = matched_tracks db
  ∧ matched_seq
      (logUnmatchedTrack compareTwoStrings now s metadata why searchResults
         best db)
    = matched_seq db.
Proof. unfold logUnmatchedTrack. by destruct (shouldSkip metadata). Qed.

Section PipelineProperties.

Variable compareTwoStrings : list N → list N → number.

Lemma searchAndAddTrack_cases (api : SpotifyApi)
    (now stationName radioArtist radioTitle : list N) (metadata : Metadata)
    (svc : Service) :
  let result :=
    searchAndAddTrack compareTwoStrings api now stationName radioArtist
      radioTitle metadata svc in
  let svc' := snd result in
  let key := toLowerCase stationName in
  playlists svc' = playlists svc
  ∧ if fst result
    then ∃ (playlist : Playlist) (bestMatch : Match) (row : MatchedRow),
           playlists svc !! key = Some playlist
           ∧ findBestMatch compareTwoStrings radioArtist radioTitle
               (firstResults api (searchQueries radioArtist radioTitle))
             = Some bestMatch
           ∧ isTrackAlreadyAdded (track_id (track bestMatch)) (database svc)
             = false
           ∧ appended svc'
             = appended svc
               ++ [(playlist_id playlist,
                    trackUri (track_id (track bestMatch)))]
           ∧ playlistTrackCounts svc'
             = <[key := default 0 (playlistTrackCounts svc !! key) + 1]>
                 (playlistTrackCounts svc)
           ∧ matched_tracks (database svc')
             = matched_tracks (database svc) ++ [row]
           ∧ spotify_id row = track_id (track bestMatch)
           ∧ m_id row = matched_seq (database svc) + 1
           ∧ m_station row = stationName
           ∧ match_percentage row
             = mathRound (jsMul (similarity bestMatch) (ofZ 100))
           ∧ jsGe (similarity bestMatch) (decimal 75 100) = true
    else appended svc' = appended svc
         ∧ playlistTrackCounts svc' = playlistTrackCounts svc
         ∧ matched_tracks (database svc') = matched_tracks (database svc).
Proof.
  intros result svc' key. subst result svc' key.
  unfold searchAndAddTrack.
  destruct (firstResults api (searchQueries radioArtist radioTitle))
    as [|t ts] eqn:Ef.
  { cbn [fst snd withDatabase playlists appended playlistTrackCounts database].
    split; [done|]. split_and!; [done|done|].
    apply logUnmatchedTrack_matched_tracks. }
  destruct (findBestMatch compareTwoStrings radioArtist radioTitle (t :: ts))
    as [bestMatch|] eqn:Eb.
  2:{ cbn [fst snd withDatabase playlists appended playlistTrackCounts database].
      split; [done|]. split_and!; [done|done|].
      apply logUnmatchedTrack_matched_tracks. }
  destruct (isTrackAlreadyAdded (track_id (track bestMatch)) (database svc))
    eqn:Ek.
  { cbn [fst snd withDatabase playlists appended playlistTrackCounts database].
    split; [done|]. by split_and!. }
  destruct (playlists svc !! toLowerCase stationName) as [playlist|] eqn:Ep.
  2:{ cbn [fst snd]. by split_and!. }
  destruct (addTracksToPlaylist api (playlist_id playlist) _) as [message|].
  { cbn [fst snd withDatabase playlists appended playlistTrackCounts database].
    split; [done|]. split_and!; [done|done|].
    apply logUnmatchedTrack_matched_tracks. }
  unfold addMatchedTrack, insertMatched.
  cbn [mt_spotifyMatch sm_id]. unfold isTrackAlreadyAdded in Ek. rewrite Ek.
  cbn [fst snd withDatabase playlists appended playlistTrackCounts database].
  split; [done|]. exists playlist, bestMatch. eexists.
  split_and!; try done.
  by destruct (findBestMatch_Some compareTwoStrings radioArtist radioTitle
                 (t :: ts) bestMatch Eb) as (_ & _ & _ & _ & T & _).
Qed.






End PipelineProperties.



(** ** DedupLedger: lookups, row ids and counts *)

(** X10.  Insertion and lookup.  After [addMatchedTrack] the catalog id of the
    track is known to [isTrackAlreadyAdded], whether the call inserted it or
    found it; every other catalog id is known exactly when it was before. *)
Theorem addMatchedTrack_then_known (now : list N) (trackData : MatchDetails)
    (db : Database) (spotifyId : list N) :
  isTrackAlreadyAdded spotifyId (snd (addMatchedTrack now trackData db))
  = bool_decide (sm_id (mt_spotifyMatch trackData) = spotifyId)
    || isTrackAlreadyAdded spotifyId db.
Proof.
  destruct (isTrackAlreadyAdded (sm_id (mt_spotifyMatch trackData)) db) eqn:E.
  - rewrite (addMatchedTrack_duplicate now trackData db E). cbn [snd].
    unfold isTrackAlreadyAdded in *. cbn [matched_tracks updateDailyStats withStats].
    destruct (bool_decide_reflect (sm_id (mt_spotifyMatch trackData) = spotifyId))
      as [<-|_]; [by rewrite E|done].
  - destruct (addMatchedTrack_fresh now trackData db E) as (row & _ & Em & Ei).
    unfold isTrackAlreadyAdded. rewrite Em, existsb_app. simpl.
    unfold hasSpotifyId at 2. rewrite Ei, orb_false_r. apply orb_comm.
Qed.

Lemma StronglySorted_snoc (ids : list N) (i : N) :
  StronglySorted N.lt ids → Forall (fun j => j < i) ids →
  StronglySorted N.lt (ids ++ [i]).
Proof.
  induction 1 as [|j ids S IH F]; intros H; simpl.
  - repeat constructor.
  - inversion H as [|? ? Hj Hr]; subst. constructor; [by apply IH|].
    apply Forall_app. split; [done|]. by constructor.
Qed.

Lemma ascendingIds_snoc (ids : list N) (seq : N) :
  ascendingIds ids seq → ascendingIds (ids ++ [seq + 1]) (seq + 1).
Proof.
  intros [S F]. split.
  - apply StronglySorted_snoc; [done|].
    eapply Forall_impl; [exact F|]. simpl. intros j Hj. lia.
  - apply Forall_app. split.
    + eapply Forall_impl; [exact F|]. simpl. intros j Hj. lia.
    + constructor; [lia|constructor].
Qed.

Lemma addMatchedTrack_ids (now : list N) (trackData : MatchDetails)
    (db : Database) :
  let result := addMatchedTrack now trackData db in
  (map m_id (matched_tracks (snd result)) = map m_id (matched_tracks db)
   ∧ matched_seq (snd result) = matched_seq db
   ∧ fst result = Thrown uniqueViolation)
  ∨ (map m_id (matched_tracks (snd result))
     = map m_id (matched_tracks db) ++ [matched_seq db + 1]
     ∧ matched_seq (snd result) = matched_seq db + 1
     ∧ fst result = Returned (Some (matched_seq db + 1))).
Proof.
  intros result. subst result.
  destruct (isTrackAlreadyAdded (sm_id (mt_spotifyMatch trackData)) db) eqn:E.
  - left. by rewrite (addMatchedTrack_duplicate now trackData db E).
  - right. unfold addMatchedTrack, insertMatched.
    unfold isTrackAlreadyAdded in E. rewrite E. cbn [fst snd].
    cbn [matched_tracks matched_seq updateDailyStats withStats].
    by rewrite map_app.
Qed.

(** X11.  Row ids are never used twice.  On a table whose ids increase in order of
    insertion, below the AUTOINCREMENT counter, any sequence of
    [addMatchedTrack] calls keeps them so; the ids that the calls return
    are, in order, the ids of the rows that the sequence appended, each
    above the counter it started from. *)
Theorem addMatchedTracks_ids (attempts : list (list N * MatchDetails))
    (db : Database) :
  ascendingIds (map m_id (matched_tracks db)) (matched_seq db) →
  let results := fst (addMatchedTracks attempts db) in
  let db' := snd (addMatchedTracks attempts db) in
  ascendingIds (map m_id (matched_tracks db')) (matched_seq db')
  ∧ map m_id (matched_tracks db')
    = map m_id (matched_tracks db) ++ returnedIds results
  ∧ Forall (fun i => matched_seq db < i) (returnedIds results).
Proof.
  revert db. induction attempts as [|[now td] rest IH]; intros db A.
  - simpl. rewrite app_nil_r. split_and!; [done|done|constructor].
  - cbn [addMatchedTracks].
    pose proof (addMatchedTrack_ids now td db) as H. cbv zeta in H.
    destruct (addMatchedTrack now td db) as [result db1]. cbn [fst snd] in H.
    specialize (IH db1). cbv zeta in IH.
    destruct (addMatchedTracks rest db1) as [results db2].
    cbn [fst snd] in *.
    destruct H as [(Em & Es & ->)|(Em & Es & ->)].
    + rewrite Em, Es in IH. by apply IH.
    + rewrite Em, Es in IH.
      destruct (IH (ascendingIds_snoc _ _ A)) as (I1 & I2 & I3).
      split_and!; [done| |].
      * rewrite I2. cbn [returnedIds flat_map]. by rewrite <- app_assoc.
      * cbn [returnedIds flat_map app]. constructor; [lia|].
        eapply Forall_impl; [exact I3|]. simpl. intros j Hj. lia.
Qed.

Lemma addMatchedTracks_ids_witness :
  let results :=
    fst (addMatchedTracks [(halloween, monsterMash (lit "Main"));
                           (halloween, monsterMash (lit "Movies"))]
           emptyDatabase) in
  let db' :=
    snd (addMatchedTracks [(halloween, monsterMash (lit "Main"));
                           (halloween, monsterMash (lit "Movies"))]
           emptyDatabase) in
  ascendingIds (map m_id (matched_tracks db')) (matched_seq db')
  ∧ map m_id (matched_tracks db')
    = map m_id (matched_tracks emptyDatabase) ++ returnedIds results
  ∧ Forall (fun i => matched_seq emptyDatabase < i) (returnedIds results).
Proof.
  refine (addMatchedTracks_ids
            [(halloween, monsterMash (lit "Main"));
             (halloween, monsterMash (lit "Movies"))] emptyDatabase _).
  split; simpl; constructor.
Defined.

(** X12.  The count of [getMatchedTracksCount] goes up by one exactly when
    [addMatchedTrack] returns a row id and the station filter, if there is
    one, is the station of the track; an empty station filters nothing. *)
Theorem getMatchedTracksCount_addMatchedTrack (now : list N)
    (trackData : MatchDetails) (db : Database) (station : option (list N)) :
  let result := addMatchedTrack now trackData db in
  getMatchedTracksCount station (snd result)
  = getMatchedTracksCount station db
    + match fst result, orNull station with
      | Returned (Some _), Some s =>
          if bool_decide (mt_station trackData = s) then 1 else 0
      | Returned (Some _), None => 1
      | _, _ => 0
      end.
Proof.
  intros result. subst result. unfold getMatchedTracksCount.
  destruct (isTrackAlreadyAdded (sm_id (mt_spotifyMatch trackData)) db) eqn:E.
  - rewrite (addMatchedTrack_duplicate now trackData db E). cbn [fst snd].
    cbn [matched_tracks updateDailyStats withStats].
    destruct (orNull station); lia.
  - unfold addMatchedTrack, insertMatched.
    unfold isTrackAlreadyAdded in E. rewrite E. cbn [fst snd].
    cbn [matched_tracks updateDailyStats withStats].
    destruct (orNull station) as [s|].
    + rewrite List.filter_app, length_app. cbn [List.filter m_station].
      destruct (bool_decide (mt_station trackData = s)); simpl; lia.
    + rewrite length_app. simpl. lia.
Qed.

(** ** The table of playlists *)

Lemma find_filter_head {A : Type} (f : A → bool) (l : list A) :
  List.find f l = head (List.filter f l).
Proof.
  induction l as [|a l IH]; simpl; [done|]. by destruct (f a).
Qed.

Lemma filter_hasStation_removed (station : list N) (l : list PlaylistRow) :
  List.filter (hasStation station)
    (List.filter (fun r => negb (hasStation station r)) l) = [].
Proof.
  induction l as [|r l IH]; simpl; [done|].
  destruct (hasStation station r) eqn:E; simpl; [done|]. by rewrite E.
Qed.

Lemma filter_hasStation_other (station other : list N) (l : list PlaylistRow) :
  other ≠ station →
  List.filter (hasStation other)
    (List.filter (fun r => negb (hasStation station r)) l)
  = List.filter (hasStation other) l.
Proof.
  intros Hne. induction l as [|r l IH]; simpl; [done|].
  destruct (hasStation station r) eqn:E; simpl.
  - unfold hasStation in E. apply bool_decide_eq_true in E.
    assert (hasStation other r = false) as ->; [|done].
    unfold hasStation. apply bool_decide_eq_false_2. congruence.
  - destruct (hasStation other r); by rewrite IH.
Qed.

Lemma getPlaylistInfo_updated
    (createdNow updatedNow station playlistId playlistName : list N)
    (tbl : PlaylistsTable) :
  station ≠ [] →
  getPlaylistInfo (Some station)
    (updatePlaylistInfo createdNow updatedNow station playlistId playlistName
       tbl)
  = [ {| p_id := playlists_seq tbl + 1;
         p_station := station;
         p_playlist_id := playlistId;
         p_playlist_name := playlistName;
         p_created_at :=
           from_option p_created_at createdNow
             (head (getPlaylistInfo (Some station) tbl));
         p_updated_at := updatedNow |} ].
Proof.
  intros Hs. unfold getPlaylistInfo, updatePlaylistInfo.
  destruct station as [|c r]; [done|]. cbn [orNull playlist_rows].
  rewrite List.filter_app, filter_hasStation_removed, find_filter_head.
  cbn [List.filter app]. unfold hasStation at 1. cbn [p_station].
  by rewrite bool_decide_eq_true_2.
Qed.

Lemma getPlaylistInfo_other
    (createdNow updatedNow station playlistId playlistName : list N)
    (tbl : PlaylistsTable) (other : list N) :
  other ≠ [] → other ≠ station →
  getPlaylistInfo (Some other)
    (updatePlaylistInfo createdNow updatedNow station playlistId playlistName
       tbl)
  = getPlaylistInfo (Some other) tbl.
Proof.
  intros Hn Ho. unfold getPlaylistInfo, updatePlaylistInfo.
  destruct other as [|c r]; [done|]. cbn [orNull playlist_rows].
  rewrite List.filter_app, (filter_hasStation_other _ _ _ Ho).
  cbn [List.filter]. unfold hasStation at 2. cbn [p_station].
  rewrite bool_decide_eq_false_2 by congruence. by rewrite app_nil_r.
Qed.

(** X13.  Update and lookup.  After [updatePlaylistInfo] the lookup of the station
    reports one row: the new playlist id and name under a new row id, the
    second clock reading as [updated_at], and as [created_at] that of the
    row reported before, or the first clock reading when there was none.
    The lookup of every other station reports what it did before; an empty
    station is no filter, its lookup reports the whole table. *)
Theorem updatePlaylistInfo_getPlaylistInfo
    (createdNow updatedNow station playlistId playlistName : list N)
    (tbl : PlaylistsTable) :
  station ≠ [] →
  let tbl' :=
    updatePlaylistInfo createdNow updatedNow station playlistId playlistName
      tbl in
  getPlaylistInfo (Some station) tbl'
  = [ {| p_id := playlists_seq tbl + 1;
         p_station := station;
         p_playlist_id := playlistId;
         p_playlist_name := playlistName;
         p_created_at :=
           from_option p_created_at createdNow
             (head (getPlaylistInfo (Some station) tbl));
         p_updated_at := updatedNow |} ]
  ∧ (∀ other : list N,
       other ≠ [] → other ≠ station →
       getPlaylistInfo (Some other) tbl' = getPlaylistInfo (Some other) tbl)
  ∧ getPlaylistInfo (Some []) tbl' = playlist_rows tbl'.
Proof.
  intros Hs tbl'. subst tbl'. split_and!.
  - by apply getPlaylistInfo_updated.
  - intros other Hn Ho. by apply getPlaylistInfo_other.
  - done.
Qed.

Lemma updatePlaylistInfo_witness :
  let tbl :=
    {| playlist_rows :=
         [ {| p_id := 1; p_station := lit "Movies";
              p_playlist_id := lit "5v5ETK9WFXAnGQ3MRubKuE";
              p_playlist_name := lit "Halloween Radio - Movies";
              p_created_at := lit "2024-10-01T08:00:00.000Z";
              p_updated_at := lit "2024-10-01T08:00:00.000Z" |} ];
       playlists_seq := 1 |} in
  let tbl' :=
    updatePlaylistInfo halloween halloween (lit "Main")
      (lit "3cEYpjA9oz9GiPac4AsH4n") (lit "Halloween Radio - Main") tbl in
  getPlaylistInfo (Some (lit "Main")) tbl'
  = [ {| p_id := 2; p_station := lit "Main";
         p_playlist_id := lit "3cEYpjA9oz9GiPac4AsH4n";
         p_playlist_name := lit "Halloween Radio - Main";
         p_created_at := halloween;
         p_updated_at := halloween |} ]
  ∧ getPlaylistInfo (Some (lit "Movies")) tbl'
    = getPlaylistInfo (Some (lit "Movies")) tbl.
Proof.
  intros tbl tbl'. split.
  - refine (proj1 (updatePlaylistInfo_getPlaylistInfo halloween halloween
                     (lit "Main") (lit "3cEYpjA9oz9GiPac4AsH4n")
                     (lit "Halloween Radio - Main") tbl _)).
    vm_compute. discriminate.
  - refine (proj1 (proj2 (updatePlaylistInfo_getPlaylistInfo halloween
                            halloween (lit "Main")
                            (lit "3cEYpjA9oz9GiPac4AsH4n")
                            (lit "Halloween Radio - Main") tbl _))
              (lit "Movies") _ _);
      vm_compute; discriminate.
Defined.

Lemma NoDup_stations_updated
    (createdNow updatedNow station playlistId playlistName : list N)
    (tbl : PlaylistsTable) :
  NoDup (map p_station (playlist_rows tbl)) →
  NoDup (map p_station
           (playlist_rows
              (updatePlaylistInfo createdNow updatedNow station playlistId
                 playlistName tbl))).
Proof.
  intros U. unfold updatePlaylistInfo. cbn [playlist_rows].
  rewrite map_app. cbn [map p_station]. apply NoDup_app. split_and!.
  - induction (playlist_rows tbl) as [|r l IH]; simpl; [constructor|].
    apply NoDup_cons in U as [Hr U].
    destruct (hasStation station r); simpl; [by apply IH|].
    apply NoDup_cons. split; [|by apply IH].
    intros Hin. apply Hr. apply list_elem_of_fmap in Hin as (x & -> & Hx).
    apply list_elem_of_fmap. exists x. split; [done|].
    apply list_elem_of_In in Hx. apply List.filter_In in Hx as [Hx _].
    by apply list_elem_of_In.
  - intros x Hx Hx'. apply list_elem_of_singleton in Hx'. subst x.
    apply list_elem_of_fmap in Hx as (r & Hr & Hin).
    apply list_elem_of_In in Hin. apply List.filter_In in Hin as [_ Hf].
    unfold hasStation in Hf. rewrite bool_decide_eq_true_2 in Hf; done.
  - apply NoDup_singleton.
Qed.

(** X14.  Over any sequence of [updatePlaylistInfo] calls the stations of the
    table stay distinct, and a station that has a row keeps the [created_at]
    of that row, however often its playlist is updated. *)
Theorem updatePlaylistInfos_invariants
    (updates : list (list N * list N * list N * list N * list N))
    (tbl : PlaylistsTable) :
  let tbl' := updatePlaylistInfos updates tbl in
  (NoDup (map p_station (playlist_rows tbl)) →
   NoDup (map p_station (playlist_rows tbl')))
  ∧ (∀ (station : list N) (r : PlaylistRow),
       station ≠ [] →
       head (getPlaylistInfo (Some station) tbl) = Some r →
       p_created_at <$> head (getPlaylistInfo (Some station) tbl')
       = Some (p_created_at r)).
Proof.
  intros tbl'. subst tbl'. unfold updatePlaylistInfos. revert tbl.
  induction updates as [|[[[[c u] st] pid] name] rest IH]; intros tbl.
  - simpl. split; [done|]. intros station r _ ->. done.
  - cbn [foldl]. destruct (IH (updatePlaylistInfo c u st pid name tbl))
      as [I1 I2].
    split.
    + intros U. apply I1. by apply NoDup_stations_updated.
    + intros station r Hs Hr.
      destruct (decide (station = st)) as [->|Hne].
      * rewrite (I2 st
          {| p_id := playlists_seq tbl + 1; p_station := st;
             p_playlist_id := pid; p_playlist_name := name;
             p_created_at :=
               from_option p_created_at c
                 (head (getPlaylistInfo (Some st) tbl));
             p_updated_at := u |} Hs).
        -- cbn [p_created_at]. by rewrite Hr.
        -- by rewrite getPlaylistInfo_updated.
      * apply I2; [done|]. by rewrite getPlaylistInfo_other.
Qed.

Lemma updatePlaylistInfos_witness :
  let first :=
    updatePlaylistInfo (lit "2024-10-01T08:00:00.000Z")
      (lit "2024-10-01T08:00:00.000Z") (lit "Main")
      (lit "3cEYpjA9oz9GiPac4AsH4n") (lit "Halloween Radio - Main")
      {| playlist_rows := []; playlists_seq := 0 |} in
  let tbl' :=
    updatePlaylistInfos
      [(halloween, halloween, lit "Movies", lit "5v5ETK9WFXAnGQ3MRubKuE",
        lit "Halloween Radio - Movies");
       (halloween, halloween, lit "Main", lit "0JiVp7Z0pYKI8diUV6HJyQ",
        lit "Halloween Radio - Main")] first in
  NoDup (map p_station (playlist_rows tbl'))
  ∧ p_created_at <$> head (getPlaylistInfo (Some (lit "Main")) tbl')
    = Some (lit "2024-10-01T08:00:00.000Z").
Proof.
  intros first tbl'. split.
  - refine (proj1 (updatePlaylistInfos_invariants _ first) _).
    apply NoDup_singleton.
  - refine (proj2 (updatePlaylistInfos_invariants _ first) (lit "Main")
              {| p_id := 1; p_station := lit "Main";
                 p_playlist_id := lit "3cEYpjA9oz9GiPac4AsH4n";
                 p_playlist_name := lit "Halloween Radio - Main";
                 p_created_at := lit "2024-10-01T08:00:00.000Z";
                 p_updated_at := lit "2024-10-01T08:00:00.000Z" |} _ _).
    + vm_compute. discriminate.
    + reflexivity.
Defined.

(** ** Clearing the data *)

Section ClearingProperties.

Variable compareTwoStrings : list N → list N → number.

Lemma searchAndAddTrack_true (api : SpotifyApi)
    (now stationName radioArtist radioTitle : list N) (metadata : Metadata)
    (svc : Service) :
  fst (searchAndAddTrack compareTwoStrings api now stationName radioArtist
         radioTitle metadata svc) = true
  ↔ ∃ (bestMatch : Match) (playlist : Playlist),
      findBestMatch compareTwoStrings radioArtist radioTitle
        (firstResults api (searchQueries radioArtist radioTitle))
      = Some bestMatch
      ∧ isTrackAlreadyAdded (track_id (track bestMatch)) (database svc)
        = false
      ∧ playlists svc !! toLowerCase stationName = Some playlist
      ∧ addTracksToPlaylist api (playlist_id playlist)
          (trackUri (track_id (track bestMatch))) = None.
Proof.
  unfold searchAndAddTrack.
  destruct (firstResults api (searchQueries radioArtist radioTitle))
    as [|t ts] eqn:Ef.
  { cbn [fst]. split; [done|]. intros (m & pl & Eb & _). done. }
  destruct (findBestMatch compareTwoStrings radioArtist radioTitle (t :: ts))
    as [bestMatch|] eqn:Eb.
  2:{ cbn [fst]. split; [done|]. intros (m & pl & Eb' & _). done. }
  destruct (isTrackAlreadyAdded (track_id (track bestMatch)) (database svc))
    eqn:Ek.
  { cbn [fst]. split; [done|]. intros (m & pl & Eb' & Ek' & _).
    injection Eb' as <-. congruence. }
  destruct (playlists svc !! toLowerCase stationName) as [playlist|] eqn:Ep.
  2:{ cbn [fst]. split; [done|]. intros (m & pl & _ & _ & Ep' & _). done. }
  fold (trackUri (track_id (track bestMatch))).
  destruct (addTracksToPlaylist api (playlist_id playlist)
              (trackUri (track_id (track bestMatch)))) as [message|] eqn:Ea.
  { cbn [fst]. split; [done|]. intros (m & pl & Eb' & _ & Ep' & Ea').
    injection Eb' as <-. injection Ep' as <-. congruence. }
  unfold addMatchedTrack, insertMatched.
  cbn [mt_spotifyMatch sm_id]. unfold isTrackAlreadyAdded in Ek. rewrite Ek.
  cbn [fst]. split; [|done]. intros _. by exists bestMatch, playlist.
Qed.

(** X15.  Clearing the data makes the pipeline forget what it added.  After
    [clearAllData] on the database, whatever the track counts then are, the
    announcement that was added before is added again against the same
    catalog: its URI is appended to the playlist a second time, and the new
    row gets a row id above the one that was deleted. *)
Theorem clearAllData_forgets (api : SpotifyApi)
    (now stationName radioArtist radioTitle : list N) (metadata : Metadata)
    (svc : Service) (tbl : PlaylistsTable) (counts : gmap (list N) N)
    (later : list N) (metadata' : Metadata) :
  let first :=
    searchAndAddTrack compareTwoStrings api now stationName radioArtist
      radioTitle metadata svc in
  fst first = true →
  let cleared :=
    {| database := fst (clearAllData (database (snd first)) tbl);
       playlists := playlists (snd first);
       playlistTrackCounts := counts;
       appended := appended (snd first) |} in
  let second :=
    searchAndAddTrack compareTwoStrings api later stationName radioArtist
      radioTitle metadata' cleared in
  fst second = true
  ∧ (∃ append : list N * list N,
       appended (snd second) = appended svc ++ [append; append])
  ∧ map m_id (matched_tracks (database (snd second)))
    = [matched_seq (database svc) + 1 + 1].
Proof.
  intros first Hok cleared second.
  pose proof (searchAndAddTrack_cases compareTwoStrings api now stationName
                radioArtist radioTitle metadata svc) as H1.
  cbv zeta in H1. fold first in H1. destruct H1 as [Hp H1]. rewrite Hok in H1.
  destruct H1 as (pl & m & row & Ep & Eb & Ek & Ea & _ & Em & _ & Ei & _).
  apply searchAndAddTrack_true in Hok
    as (m' & pl' & Eb' & _ & Ep' & Eapi).
  rewrite Eb in Eb'. injection Eb' as <-.
  rewrite Ep in Ep'. injection Ep' as <-.
  assert (matched_seq (database (snd first)) = matched_seq (database svc) + 1)
    as Eseq.
  { subst first. unfold searchAndAddTrack.
    destruct (firstResults api (searchQueries radioArtist radioTitle))
      as [|t ts]; [done|].
    rewrite Eb, Ek, Ep. fold (trackUri (track_id (track m))). rewrite Eapi.
    unfold addMatchedTrack, insertMatched.
    cbn [mt_spotifyMatch sm_id]. unfold isTrackAlreadyAdded in Ek.
    by rewrite Ek. }
  assert (fst second = true) as Hok2.
  { subst second. apply searchAndAddTrack_true. exists m, pl.
    subst cleared. cbn [database playlists]. rewrite Hp.
    by split_and!. }
  split; [done|].
  pose proof (searchAndAddTrack_cases compareTwoStrings api later
                stationName radioArtist radioTitle metadata' cleared) as H2.
  cbv zeta in H2. fold second in H2. destruct H2 as [_ H2].
  rewrite Hok2 in H2.
  destruct H2 as (pl2 & m2 & row2 & Ep2 & Eb2 & _ & Ea2 & _ & Em2 & _ & Ei2 & _).
  rewrite Eb in Eb2. injection Eb2 as <-.
  subst cleared. cbn [database playlists appended] in *.
  rewrite Hp, Ep in Ep2. injection Ep2 as <-.
  split.
  - exists (playlist_id pl, trackUri (track_id (track m))).
    by rewrite Ea2, Ea, <- app_assoc.
  - rewrite Em2. cbn [clearAllData fst matched_tracks matched_seq app map] in *.
    by rewrite Ei2, Eseq.
Qed.

End ClearingProperties.

Lemma clearAllData_witness :
  let first :=
    searchAndAddTrack StringSimilarity.compareTwoStrings
      (catalogOf monsterMashTrack) halloween (lit "Main")
      (lit "Bobby Pickett") (lit "Monster Mash")
      (metadataOf (lit "Bobby Pickett") (lit "Monster Mash")) tunedService in
  let cleared :=
    {| database :=
         fst (clearAllData (database (snd first))
                {| playlist_rows := []; playlists_seq := 0 |});
       playlists := playlists (snd first);
       playlistTrackCounts := ∅;
       appended := appended (snd first) |} in
  let second :=
    searchAndAddTrack StringSimilarity.compareTwoStrings
      (catalogOf monsterMashTrack) halloween (lit "Main")
      (lit "Bobby Pickett") (lit "Monster Mash")
      (metadataOf (lit "Bobby Pickett") (lit "Monster Mash")) cleared in
  fst second = true
  ∧ (∃ append : list N * list N,
       appended (snd second) = appended tunedService ++ [append; append])
  ∧ map m_id (matched_tracks (database (snd second)))
    = [matched_seq (database tunedService) + 1 + 1].
Proof.
  refine (clearAllData_forgets StringSimilarity.compareTwoStrings
            (catalogOf monsterMashTrack) halloween (lit "Main")
            (lit "Bobby Pickett") (lit "Monster Mash")
            (metadataOf (lit "Bobby Pickett") (lit "Monster Mash"))
            tunedService {| playlist_rows := []; playlists_seq := 0 |} ∅
            halloween
            (metadataOf (lit "Bobby Pickett") (lit "Monster Mash")) _).
  vm_compute. reflexivity.
Defined.

(** ** Retries of unmatched tracks *)

Lemma retry_other_rows (now : list N) (trackId : N)
    (newMatchData : option RetryMatch) (f : UnmatchedRow → UnmatchedRow)
    (l : list UnmatchedRow) :
  Forall (fun r => u_id r ≠ trackId) l →
  map (fun r => if u_id r =? trackId then f r else r) l = l.
Proof.
  induction 1 as [|r l Hr _ IH]; simpl; [done|].
  destruct (N.eqb_spec (u_id r) trackId); [done|]. by rewrite IH.
Qed.

Lemma retryUnmatchedTracks_last (trackId : N) (old : list UnmatchedRow)
    (retries : list (list N * option RetryMatch)) :
  Forall (fun r => u_id r ≠ trackId) old →
  ∀ (db : Database) (row : UnmatchedRow),
    unmatched_tracks db = old ++ [row] → u_id row = trackId →
    ∃ row' : UnmatchedRow,
      unmatched_tracks (retryUnmatchedTracks trackId retries db)
      = old ++ [row']
      ∧ u_id row' = trackId
      ∧ retry_count row' = retry_count row + N.of_nat (length retries)
      ∧ last_retry_at row'
        = from_option (fun retry => Some (fst retry)) (last_retry_at row)
            (last retries)
      ∧ u_station row' = u_station row
      ∧ u_radio_artist row' = u_radio_artist row
      ∧ u_radio_title row' = u_radio_title row
      ∧ reason row' = reason row
      ∧ created_at row' = created_at row
      ∧ matched_tracks (retryUnmatchedTracks trackId retries db)
        = matched_tracks db
      ∧ unmatched_seq (retryUnmatchedTracks trackId retries db)
        = unmatched_seq db.
Proof.
  intros Hold. unfold retryUnmatchedTracks.
  induction retries as [|[now m] rest IH]; intros db row Hdb Hid.
  - exists row. simpl. rewrite N.add_0_r. by split_and!.
  - cbn [foldl].
    edestruct (IH (retryUnmatchedTrack now trackId m db))
      as (row' & I1 & I2 & I3 & I4 & I5 & I6 & I7 & I8 & I9 & I10 & I11).
    + unfold retryUnmatchedTrack. cbn [unmatched_tracks].
      rewrite Hdb, map_app.
      rewrite (retry_other_rows now trackId m _ old Hold).
      cbn [map]. rewrite Hid, N.eqb_refl. reflexivity.
    + done.
    + exists row'. cbn [retry_count last_retry_at u_station u_radio_artist
        u_radio_title reason created_at] in *.
      split_and!; try done.
      * rewrite I3. cbn [length]. lia.
      * rewrite I4. destruct rest as [|x rest']; [done|].
        rewrite last_cons_cons.
        destruct (last (x :: rest')) eqn:El; [done|].
        by apply last_None in El.
Qed.

(** X16.  The retry counter counts the retries.  On a table whose row ids lie
    below the AUTOINCREMENT counter, a track stored by [addUnmatchedTrack]
    and then retried any number of times under the returned id is the last
    row, with the announcement and the reason it was stored with, the number
    of retries as [retry_count] and the clock reading of the last retry as
    [last_retry_at]; the rows before it and [matched_tracks] are as they
    were. *)
Theorem retryUnmatchedTracks_counts (now : list N)
    (trackData : UnmatchDetails) (db : Database)
    (retries : list (list N * option RetryMatch)) :
  Forall (fun i => i <= unmatched_seq db) (map u_id (unmatched_tracks db)) →
  let added := addUnmatchedTrack now trackData db in
  let db' := retryUnmatchedTracks (fst added) retries (snd added) in
  ∃ row : UnmatchedRow,
    unmatched_tracks db' = unmatched_tracks db ++ [row]
    ∧ u_id row = fst added
    ∧ retry_count row = N.of_nat (length retries)
    ∧ last_retry_at row = fst <$> last retries
    ∧ u_station row = um_station trackData
    ∧ u_radio_artist row = artist (um_metadata trackData)
    ∧ u_radio_title row = title (um_metadata trackData)
    ∧ reason row = um_reason trackData
    ∧ created_at row = now
    ∧ matched_tracks db' = matched_tracks db.
Proof.
  intros Hids added db'. subst added db'.
  unfold addUnmatchedTrack. cbn [fst snd].
  assert (Forall (fun r => u_id r ≠ unmatched_seq db + 1) (unmatched_tracks db))
    as Hold.
  { apply Forall_forall. intros r Hr.
    rewrite Forall_forall in Hids. specialize (Hids (u_id r)).
    assert (u_id r ≤ unmatched_seq db) as Hle; [|lia].
    apply Hids. apply list_elem_of_fmap. by exists r. }
  match goal with
  | |- context [retryUnmatchedTracks ?i retries ?d] =>
      match d with
      | context [unmatched_tracks db ++ [?row]] =>
          destruct (retryUnmatchedTracks_last i (unmatched_tracks db) retries
                      Hold d row eq_refl eq_refl)
            as (row' & I1 & I2 & I3 & I4 & I5 & I6 & I7 & I8 & I9 & I10 & _)
      end
  end.
  exists row'. cbn [retry_count last_retry_at u_station u_radio_artist
    u_radio_title reason created_at] in *.
  by split_and!.
Qed.

Lemma retryUnmatchedTracks_witness :
  let trackData :=
    {| um_timestamp := halloween; um_station := lit "Main";
       um_metadata := md_track (metadataOf (lit "xy") (lit "zw"));
       um_spotifyMatch := None; um_percentage := 0;
       um_reason := lit "No search results";
       um_searchResultsCount := 0 |} in
  let added := addUnmatchedTrack halloween trackData emptyDatabase in
  let db' :=
    retryUnmatchedTracks (fst added)
      [(halloween, None); (lit "2024-11-01T09:00:00.000Z", None)]
      (snd added) in
  ∃ row : UnmatchedRow,
    unmatched_tracks db' = unmatched_tracks emptyDatabase ++ [row]
    ∧ u_id row = fst added
    ∧ retry_count row = 2
    ∧ last_retry_at row = Some (lit "2024-11-01T09:00:00.000Z")
    ∧ u_station row = lit "Main"
    ∧ u_radio_artist row = lit "xy"
    ∧ u_radio_title row = lit "zw"
    ∧ reason row = lit "No search results"
    ∧ created_at row = halloween
    ∧ matched_tracks db' = matched_tracks emptyDatabase.
Proof.
  refine (retryUnmatchedTracks_counts halloween _ emptyDatabase
            [(halloween, None); (lit "2024-11-01T09:00:00.000Z", None)] _).
  simpl. constructor.
Defined.

(** ** The daily statistics add up *)

Lemma applyUpdates_balanced (now : list N) (e r : StatsRow) (type : StatType)
    (p : option Z) :
  balanced e → balanced (applyUpdates now e (computeUpdates e type p) r).
Proof.
  intros [H1 H2]. pose proof (applyUpdates_fields now e type p) as F.
  cbv zeta in F. destruct F as (F1 & F2 & F3 & F4 & F5 & _).
  unfold balanced.
  change (tracks_processed (applyUpdates now e (computeUpdates e type p) r))
    with (tracks_processed (applyUpdates now e (computeUpdates e type p) e)).
  change (tracks_matched (applyUpdates now e (computeUpdates e type p) r))
    with (tracks_matched (applyUpdates now e (computeUpdates e type p) e)).
  change (tracks_added (applyUpdates now e (computeUpdates e type p) r))
    with (tracks_added (applyUpdates now e (computeUpdates e type p) e)).
  change (tracks_duplicated (applyUpdates now e (computeUpdates e type p) r))
    with (tracks_duplicated (applyUpdates now e (computeUpdates e type p) e)).
  change (tracks_unmatched (applyUpdates now e (computeUpdates e type p) r))
    with (tracks_unmatched (applyUpdates now e (computeUpdates e type p) e)).
  rewrite F1, F2, F3, F4, F5. unfold bump.
  destruct type; simpl; lia.
Qed.

Lemma ensuredStats_balanced (now s : list N) (seq : N) (tbl : list StatsRow) :
  Forall balanced tbl → balanced (ensuredStats now s seq tbl).
Proof.
  intros H. unfold ensuredStats, selectStats.
  destruct (List.find (statsKey (isoDate now) s) tbl) as [old|] eqn:E.
  - apply find_some in E as [Hin _]. rewrite Forall_forall in H.
    apply list_elem_of_In in Hin. by apply H in Hin.
  - by split.
Qed.

Lemma updateDailyStats_balanced (now s : list N) (type : StatType)
    (p : option Z) (db : Database) :
  Forall balanced (stats db) →
  Forall balanced (stats (updateDailyStats now s type p db)).
Proof.
  intros H. unfold updateDailyStats, withStats. cbn [stats].
  unfold updateStatsTable.
  pose proof (ensuredStats_balanced now s (stats_seq db) (stats db) H) as He.
  pose proof (selectStats_insertOrReplace
                (ensuredStats now s (stats_seq db) (stats db)) (stats db)) as E.
  change (date (ensuredStats now s (stats_seq db) (stats db)))
    with (isoDate now) in E.
  change (station (ensuredStats now s (stats_seq db) (stats db))) with s in E.
  rewrite E.
  assert (Forall balanced
            (insertOrReplaceStats
               (ensuredStats now s (stats_seq db) (stats db)) (stats db)))
    as H1.
  { unfold insertOrReplaceStats. apply Forall_app. split; [|by constructor].
    apply Forall_forall. intros r Hr. rewrite Forall_forall in H. apply H.
    apply list_elem_of_In in Hr. apply List.filter_In in Hr as [Hr _].
    by apply list_elem_of_In. }
  apply Forall_forall. intros r Hr.
  apply list_elem_of_fmap in Hr as (r0 & -> & Hr0).
  destruct (statsKey (isoDate now) s r0).
  - by apply applyUpdates_balanced.
  - rewrite Forall_forall in H1. by apply H1.
Qed.

Section StatisticsProperties.

Variable compareTwoStrings : list N → list N → number.

Lemma logUnmatchedTrack_balanced (now s : list N) (metadata : ParsedTrack)
    (why : list N) (searchResults : list Track) (best : option Match)
    (db : Database) :
  Forall balanced (stats db) →
  Forall balanced
    (stats (logUnmatchedTrack compareTwoStrings now s metadata why
              searchResults best db)).
Proof.
  intros H. unfold logUnmatchedTrack. destruct (shouldSkip metadata); [done|].
  unfold addUnmatchedTrack. cbn [snd]. by apply updateDailyStats_balanced.
Qed.

Lemma searchAndAddTrack_balanced (api : SpotifyApi)
    (now stationName radioArtist radioTitle : list N) (metadata : Metadata)
    (svc : Service) :
  Forall balanced (stats (database svc)) →
  Forall balanced
    (stats (database
              (snd (searchAndAddTrack compareTwoStrings api now stationName
                      radioArtist radioTitle metadata svc)))).
Proof.
  intros H. unfold searchAndAddTrack.
  destruct (firstResults api (searchQueries radioArtist radioTitle))
    as [|t ts].
  { cbn [snd withDatabase database]. by apply logUnmatchedTrack_balanced. }
  destruct (findBestMatch compareTwoStrings radioArtist radioTitle (t :: ts))
    as [bestMatch|].
  2:{ cbn [snd withDatabase database]. by apply logUnmatchedTrack_balanced. }
  destruct (isTrackAlreadyAdded (track_id (track bestMatch)) (database svc))
    eqn:Ek.
  { cbn [snd withDatabase database]. by apply updateDailyStats_balanced. }
  destruct (playlists svc !! toLowerCase stationName) as [playlist|];
    [|done].
  destruct (addTracksToPlaylist api (playlist_id playlist) _) as [message|].
  { cbn [snd withDatabase database]. by apply logUnmatchedTrack_balanced. }
  unfold addMatchedTrack, insertMatched.
  cbn [mt_spotifyMatch sm_id]. unfold isTrackAlreadyAdded in Ek. rewrite Ek.
  cbn [snd withDatabase database]. by apply updateDailyStats_balanced.
Qed.

(** X17.  The counters of the daily statistics add up.  If in every row of
    [stats] the processed tracks are the matched, the duplicated and the
    unmatched ones together, and the added tracks are the matched ones, then
    this is so after any sequence of pipeline calls; in particular from the
    empty table on. *)
Theorem searchAndAddTracks_balanced
    (calls : list (SpotifyApi * list N * PipelineCall)) (svc : Service) :
  Forall balanced (stats (database svc)) →
  Forall balanced
    (stats (database (snd (searchAndAddTracks compareTwoStrings calls svc)))).
Proof.
  revert svc. induction calls as [|[[api now] call] rest IH]; intros svc H;
    [done|].
  cbn [searchAndAddTracks].
  pose proof (searchAndAddTrack_balanced api now (pc_station call)
                (pc_artist call) (pc_title call) (pc_metadata call) svc H)
    as H1.
  destruct (searchAndAddTrack compareTwoStrings api now (pc_station call)
              (pc_artist call) (pc_title call) (pc_metadata call) svc)
    as [ok svc1].
  cbn [snd] in H1. specialize (IH svc1 H1).
  by destruct (searchAndAddTracks compareTwoStrings rest svc1).
Qed.

End StatisticsProperties.

Lemma searchAndAddTracks_balanced_witness :
  Forall balanced
    (stats (database
              (snd (searchAndAddTracks StringSimilarity.compareTwoStrings
                      [(catalogOf monsterMashTrack, halloween, monsterMashCall);
                       (catalogOf monsterMashTrack, halloween, monsterMashCall);
                       (noCatalog, halloween, monsterMashCall)]
                      tunedService)))).
Proof.
  refine (searchAndAddTracks_balanced StringSimilarity.compareTwoStrings
            [(catalogOf monsterMashTrack, halloween, monsterMashCall);
             (catalogOf monsterMashTrack, halloween, monsterMashCall);
             (noCatalog, halloween, monsterMashCall)]
            tunedService _).
  simpl. constructor.
Defined.

(** ** Loading the tracks of a playlist *)

Lemma notePage_app (l1 l2 : list PlaylistItem) :
  ∀ (position : nat) (st : FirstPass),
    notePage position (l1 ++ l2) st
    = notePage (position + length l1) l2 (notePage position l1 st).
Proof.
  induction l1 as [|item l1 IH]; intros position st; simpl.
  - by rewrite Nat.add_0_r.
  - rewrite IH. f_equal. lia.
Qed.

(** Over the pages of a fixed list of items the loop comes to its end, and
    has then run its [forEach] over the items from [offset] on. *)
Lemma eachPage_servesItems {A : Type} (api : PlaylistApi)
    (playlistId : list N) (items : list PlaylistItem)
    (forEach : nat → list PlaylistItem → A → A) :
  servesItems api playlistId items →
  (∀ (l1 l2 : list PlaylistItem) (position : nat) (state : A),
     forEach position (l1 ++ l2) state
     = forEach (position + length l1)%nat l2 (forEach position l1 state)) →
  ∀ (fuel offset : nat) (state : A),
    (length (drop offset items) < 100 * fuel)%nat →
    eachPage fuel api playlistId 100 offset forEach state
    = Complete (forEach offset (drop offset items) state).
Proof.
  intros Hserve Happ. induction fuel as [|fuel IH]; intros offset state Hlen;
    [lia|].
  cbn [eachPage]. rewrite Hserve.
  destruct (Nat.ltb_spec (length (take 100 (drop offset items))) 100)
    as [Hshort|Hfull].
  - rewrite length_take in Hshort. by rewrite take_ge by lia.
  - rewrite length_take in Hfull. rewrite IH.
    + f_equal. symmetry.
      rewrite <- (take_drop 100 (drop offset items)) at 1.
      rewrite Happ, length_take, drop_drop. f_equal. lia.
    + rewrite <- drop_drop, length_drop. lia.
Qed.

Lemma firstOccurrences_snoc (ids : list (list N)) (id : list N) :
  firstOccurrences (ids ++ [id])
  = if decide (id ∈ ids) then firstOccurrences ids
    else firstOccurrences ids ++ [id].
Proof.
  unfold firstOccurrences. rewrite reverse_snoc. cbn [remove_dups].
  destruct (decide_rel elem_of id (reverse ids)) as [Hin|Hin];
    rewrite elem_of_reverse in Hin.
  - by rewrite decide_True.
  - rewrite decide_False by done. by rewrite reverse_cons.
Qed.

Lemma firstOccurrences_spec (ids : list (list N)) :
  NoDup (firstOccurrences ids)
  ∧ ∀ id : list N, id ∈ firstOccurrences ids ↔ id ∈ ids.
Proof.
  unfold firstOccurrences. split.
  - rewrite reverse_Permutation. apply NoDup_remove_dups.
  - intros id. by rewrite elem_of_reverse, elem_of_remove_dups, elem_of_reverse.
Qed.

Lemma firstOccurrences_NoDup (ids : list (list N)) :
  NoDup ids → firstOccurrences ids = ids.
Proof.
  induction ids as [|id ids IH] using rev_ind; intros U; [done|].
  apply NoDup_app in U as (U1 & U2 & _).
  rewrite firstOccurrences_snoc, decide_False, IH; [done|done|].
  intros Hin. apply (U2 id Hin). by apply list_elem_of_singleton.
Qed.

Lemma noteItem_firstPassOf (position : nat) (item : PlaylistItem)
    (st : FirstPass) (ids : list (list N)) :
  firstPassOf st ids →
  firstPassOf (noteItem position item st)
    (ids ++ from_option (fun id => [id]) [] (itemId item)).
Proof.
  intros (H1 & H2 & H3). unfold noteItem, itemId.
  destruct (item_track item) as [t|]; [|by rewrite app_nil_r].
  destruct (isEmpty (track_id t)); [by rewrite app_nil_r|].
  cbn [from_option].
  destruct (seenTracks st !! track_id t) as [firstPosition|] eqn:E.
  - assert (track_id t ∈ ids) as Hin by (apply H1; by eexists).
    split_and!; cbn [seenTracks totalTracks duplicatePositions].
    + intros id. rewrite H1, elem_of_app, list_elem_of_singleton.
      split; [by left|]. intros [?| ->]; done.
    + by rewrite firstOccurrences_snoc, decide_True.
    + split.
      * intros Hnil. by apply app_eq_nil in Hnil as [_ ?].
      * intros U. apply NoDup_app in U as (_ & U & _).
        exfalso. apply (U _ Hin). by apply list_elem_of_singleton.
  - assert (track_id t ∉ ids) as Hin.
    { intros Hin. apply H1 in Hin as [x Hx]. congruence. }
    split_and!; cbn [seenTracks totalTracks duplicatePositions].
    + intros id. rewrite elem_of_app, list_elem_of_singleton, <- H1.
      destruct (decide (id = track_id t)) as [->|Hne].
      * rewrite lookup_insert_eq. split; [by right|by eexists].
      * rewrite lookup_insert_ne by done. split; [by left|].
        intros [?|?]; done.
    + rewrite firstOccurrences_snoc, decide_False by done.
      rewrite H2, length_app. simpl. lia.
    + rewrite H3. split.
      * intros U. apply NoDup_app. split_and!; [done| |apply NoDup_singleton].
        intros x Hx Hx'. apply list_elem_of_singleton in Hx'. by subst x.
      * intros U. by apply NoDup_app in U as (U & _).
Qed.

Lemma notePage_firstPassOf (tracks : list PlaylistItem) :
  ∀ (position : nat) (st : FirstPass) (ids : list (list N)),
    firstPassOf st ids →
    firstPassOf (notePage position tracks st) (ids ++ trackIds tracks).
Proof.
  induction tracks as [|item rest IH]; intros position st ids H.
  - by rewrite app_nil_r.
  - cbn [notePage].
    pose proof (IH (S position) _ _ (noteItem_firstPassOf position item st ids H))
      as H'.
    rewrite <- app_assoc in H'. unfold trackIds. cbn [omap list_omap].
    unfold trackIds in H'. by destruct (itemId item).
Qed.

Lemma keepItem_firstOccurrences (tracks : list PlaylistItem) :
  ∀ (rb : Rebuild) (ids : list (list N)),
    allTracks rb = map trackUri (firstOccurrences ids) →
    (∀ id : list N, id ∈ seenInRebuild rb ↔ id ∈ ids) →
    allTracks (foldl keepItem rb tracks)
    = map trackUri (firstOccurrences (ids ++ trackIds tracks)).
Proof.
  induction tracks as [|item rest IH]; intros rb ids Ha Hs.
  - by rewrite app_nil_r.
  - cbn [foldl]. unfold trackIds. cbn [omap list_omap]. fold (trackIds rest).
    unfold keepItem at 2, itemId.
    destruct (item_track item) as [t|]; [|by apply IH].
    destruct (isEmpty (track_id t)); [by apply IH|].
    rewrite (cons_middle (track_id t)), app_assoc.
    destruct (bool_decide_reflect (track_id t ∈ seenInRebuild rb)) as [Hin|Hin].
    + apply IH.
      * rewrite firstOccurrences_snoc, decide_True; [done|]. by apply Hs.
      * intros id. rewrite Hs, elem_of_app, list_elem_of_singleton.
        split; [by left|]. intros [?| ->]; [done|]. by apply Hs.
    + apply IH; cbn [allTracks seenInRebuild].
      * rewrite firstOccurrences_snoc, decide_False.
        -- by rewrite Ha, map_app.
        -- intros Hin'. by apply Hs in Hin'.
      * intros id. rewrite elem_of_union, elem_of_singleton, Hs, elem_of_app,
          list_elem_of_singleton. tauto.
Qed.

Lemma loadExistingTracks_served (fuel : nat) (api : PlaylistApi)
    (playlistId : list N) (stationName : option (list N))
    (counts : gmap (list N) N) (items : list PlaylistItem) :
  servesItems api playlistId items →
  (length items < 100 * fuel)%nat →
  let ids := trackIds items in
  let stored :=
    match orNull stationName with
    | Some s =>
        <[toLowerCase s := N.of_nat (length (firstOccurrences ids))]> counts
    | None => counts
    end in
  let clear := ReplaceTracksInPlaylist playlistId [] in
  let add :=
    AddTracksToPlaylist playlistId (map trackUri (firstOccurrences ids)) in
  loadExistingTracks fuel api playlistId stationName counts
  = Some (if bool_decide (NoDup ids) then ([], stored)
          else if accepted api clear
               then if accepted api add then ([clear; add], stored)
                    else ([clear], counts)
               else ([], counts)).
Proof.
  intros Hserve Hfuel ids stored clear add. subst stored clear add.
  unfold loadExistingTracks.
  rewrite (eachPage_servesItems api playlistId items notePage Hserve
             notePage_app fuel 0) by (by rewrite drop_0).
  rewrite drop_0.
  destruct (notePage_firstPassOf items 0
              {| seenTracks := ∅; totalTracks := 0; duplicatePositions := [] |}
              [])
    as (_ & H2 & H3).
  { split_and!; cbn [seenTracks totalTracks duplicatePositions].
    - intros id. rewrite lookup_empty. split; [by intros [? ?]|].
      by intros ?%elem_of_nil.
    - done.
    - split; [constructor|done]. }
  rewrite app_nil_l in H2, H3. fold ids in H2, H3. rewrite H2.
  destruct (duplicatePositions (notePage 0 items _)) as [|d ds] eqn:Ed.
  - rewrite bool_decide_eq_true_2 by (by apply H3). done.
  - rewrite bool_decide_eq_false_2 by (intros U; by apply H3 in U).
    rewrite (eachPage_servesItems api playlistId items
               (fun _ tracks rb => foldl keepItem rb tracks) Hserve)
      by (first [by rewrite drop_0 | intros; by rewrite foldl_app]).
    rewrite drop_0.
    rewrite (keepItem_firstOccurrences items
               {| allTracks := []; seenInRebuild := ∅ |} [])
      by (first [reflexivity
                | intros id; cbn [seenInRebuild];
                  rewrite elem_of_empty, elem_of_nil; tauto]).
    rewrite app_nil_l. fold ids.
    destruct (accepted api (ReplaceTracksInPlaylist playlistId []));
      [|done].
    destruct (map trackUri (firstOccurrences ids)) as [|u us] eqn:Eu;
      [|by destruct (accepted api _)].
    exfalso. apply fmap_nil_inv in Eu.
    assert (NoDup ids) as U; [|by apply H3 in U].
    destruct ids as [|i r]; [constructor|].
    assert (i ∈ firstOccurrences (i :: r)) as Hin.
    { apply firstOccurrences_spec. by left. }
    rewrite Eu in Hin. by apply elem_of_nil in Hin.
Qed.

(** X18.  Loading a playlist removes its repetitions and counts what is left.
    When the catalog serves the pages of a fixed list of items and accepts
    the requests, [loadExistingTracks] comes to its end within one request
    per hundred items, and one more.  It stores, for a station that is
    given, the number of distinct track ids as the track count.  A playlist
    without repeated ids gets no request; a playlist with a repeated id is
    emptied and then filled, in one request, with the first occurrence of
    every id, in the order of the playlist. *)
Theorem loadExistingTracks_rebuilds (fuel : nat) (api : PlaylistApi)
    (playlistId : list N) (stationName : option (list N))
    (counts : gmap (list N) N) (items : list PlaylistItem) :
  servesItems api playlistId items →
  (∀ request : PlaylistRequest, accepted api request = true) →
  (length items < 100 * fuel)%nat →
  let ids := trackIds items in
  loadExistingTracks fuel api playlistId stationName counts
  = Some (if bool_decide (NoDup ids) then []
          else [ReplaceTracksInPlaylist playlistId [];
                AddTracksToPlaylist playlistId
                  (map trackUri (firstOccurrences ids))],
          match orNull stationName with
          | Some s =>
              <[toLowerCase s := N.of_nat (length (firstOccurrences ids))]>
                counts
          | None => counts
          end)
  ∧ NoDup (firstOccurrences ids)
  ∧ ∀ id : list N, id ∈ firstOccurrences ids ↔ id ∈ ids.
Proof.
  intros Hserve Hacc Hfuel ids.
  split; [|apply firstOccurrences_spec].
  rewrite (loadExistingTracks_served fuel api playlistId stationName counts
             items Hserve Hfuel).
  fold ids. rewrite !Hacc. by destruct (bool_decide (NoDup ids)).
Qed.

Lemma loadExistingTracks_witness :
  loadExistingTracks 1 (servingApi twiceMonsterMash true)
    (playlist_id mainPlaylist) (Some (lit "Main")) ∅
  = Some ([ReplaceTracksInPlaylist (playlist_id mainPlaylist) [];
           AddTracksToPlaylist (playlist_id mainPlaylist)
             [trackUri (track_id monsterMashTrack);
              trackUri (track_id unrelatedTrack)]],
          {[ lit "main" := 2 ]}).
Proof.
  refine (eq_trans
            (proj1 (loadExistingTracks_rebuilds 1
                      (servingApi twiceMonsterMash true)
                      (playlist_id mainPlaylist) (Some (lit "Main")) ∅
                      twiceMonsterMash _ _ _)) _).
  - intros offset limit. reflexivity.
  - intros request. by destruct request.
  - simpl. lia.
  - vm_compute. reflexivity.
Defined.

(** X19.  The rebuild is not atomic.  On a playlist with a repeated track id,
    when the catalog accepts the request that empties the playlist and
    rejects the one that fills it again, [loadExistingTracks] ends with the
    playlist emptied and stores no track count. *)
Theorem loadExistingTracks_interrupted (fuel : nat) (api : PlaylistApi)
    (playlistId : list N) (stationName : option (list N))
    (counts : gmap (list N) N) (items : list PlaylistItem) :
  servesItems api playlistId items →
  (length items < 100 * fuel)%nat →
  ¬ NoDup (trackIds items) →
  accepted api (ReplaceTracksInPlaylist playlistId []) = true →
  accepted api
    (AddTracksToPlaylist playlistId
       (map trackUri (firstOccurrences (trackIds items)))) = false →
  loadExistingTracks fuel api playlistId stationName counts
  = Some ([ReplaceTracksInPlaylist playlistId []], counts).
Proof.
  intros Hserve Hfuel Hdup Hclear Hadd.
  rewrite (loadExistingTracks_served fuel api playlistId stationName counts
             items Hserve Hfuel).
  by rewrite bool_decide_eq_false_2, Hclear, Hadd.
Qed.

Lemma loadExistingTracks_interrupted_witness :
  loadExistingTracks 1 (servingApi twiceMonsterMash false)
    (playlist_id mainPlaylist) (Some (lit "Main")) ∅
  = Some ([ReplaceTracksInPlaylist (playlist_id mainPlaylist) []], ∅).
Proof.
  refine (loadExistingTracks_interrupted 1
            (servingApi twiceMonsterMash false)
            (playlist_id mainPlaylist) (Some (lit "Main")) ∅
            twiceMonsterMash _ _ _ _ _).
  - intros offset limit. reflexivity.
  - simpl. lia.
  - vm_compute. intros U. inversion U as [|? ? Hin _]; subst.
    apply Hin. right. left.
  - reflexivity.
  - reflexivity.
Defined.

(** ** The search strategies *)

(** X20.  The first search that brings items decides.  Either every query of the
    list is rejected or answered without items, and there are no results; or
    the results are the answer to some query of the list, and every query
    before it was rejected or answered without items. *)
Theorem firstResults_first_answer (api : SpotifyApi) (queries : list (list N)) :
  (firstResults api queries = [] ∧ Forall (noItems api) queries)
  ∨ ∃ (before : list (list N)) (query : list N) (after : list (list N)),
      queries = before ++ query :: after
      ∧ Forall (noItems api) before
      ∧ searchTracks api query = Some (firstResults api queries)
      ∧ firstResults api queries ≠ [].
Proof.
  induction queries as [|query rest IH]; [left; by split|].
  cbn [firstResults].
  destruct (searchTracks api query) as [[|t ts]|] eqn:E.
  - destruct IH as [[E' F]|(before & q & after & -> & F & E' & Hne)].
    + left. split; [done|]. constructor; [by right|done].
    + right. exists (query :: before), q, after.
      split_and!; [done| |done|done]. constructor; [by right|done].
  - right. exists [], query, rest. by split_and!.
  - destruct IH as [[E' F]|(before & q & after & -> & F & E' & Hne)].
    + left. split; [done|]. constructor; [by left|done].
    + right. exists (query :: before), q, after.
      split_and!; [done| |done|done]. constructor; [by left|done].
Qed.

(** ** The two matchers *)

Section MatcherAgreement.

Variable compareTwoStrings : list N → list N → number.

Lemma first_maximum_unique (score : Track → number) (pre : list Track) :
  ∀ (t : Track) (post pre' : list Track) (t' : Track) (post' : list Track),
    pre ++ t :: post = pre' ++ t' :: post' →
    jsGe (score t) (score t) = true →
    jsGe (score t') (score t') = true →
    Forall (fun x => jsGe (score x) (score t) = false) pre →
    Forall (fun x => jsGt (score x) (score t) = false) post →
    Forall (fun x => jsGe (score x) (score t') = false) pre' →
    Forall (fun x => jsGt (score x) (score t') = false) post' →
    t = t'.
Proof.
  unfold jsGe, jsGt.
  induction pre as [|a pre IH];
    intros t post pre' t' post' E N N' F1 F2 F3 F4.
  - destruct pre' as [|a' pre']; simpl in E.
    + by injection E.
    + injection E as <- ->. exfalso.
      apply Forall_cons in F3 as [Hge _].
      apply Forall_app in F2 as [_ F2]. apply Forall_cons in F2 as [Hgt _].
      rewrite (SFleb_total _ _ N' N Hge) in Hgt. done.
  - destruct pre' as [|a' pre']; simpl in E.
    + injection E as <- <-. exfalso.
      apply Forall_cons in F1 as [Hge _].
      apply Forall_app in F4 as [_ F4]. apply Forall_cons in F4 as [Hgt _].
      rewrite (SFleb_total _ _ N N' Hge) in Hgt. done.
    + injection E as <- E.
      apply Forall_cons in F1 as [_ F1]. apply Forall_cons in F3 as [_ F3].
      by apply (IH t post pre' t' post').
Qed.

(** X21.  The two matchers agree on a match.  Whenever [findBestMatch] returns a
    match, [findBestMatchForLogging], which has no threshold, returns the
    same candidate with the same similarity. *)
Theorem findBestMatch_findBestMatchForLogging (artist title : list N)
    (tracks : list Track) (bestMatch : Match) :
  findBestMatch compareTwoStrings artist title tracks = Some bestMatch →
  findBestMatchForLogging compareTwoStrings artist title tracks
  = Some bestMatch.
Proof.
  intros H.
  destruct (findBestMatch_Some compareTwoStrings artist title tracks bestMatch H)
    as (pre & post & E & S & T & F1 & F2).
  destruct (findBestMatchForLogging compareTwoStrings artist title tracks)
    as [m|] eqn:L.
  - destruct (findBestMatchForLogging_Some compareTwoStrings artist title
                tracks m L) as (pre' & post' & E' & S' & T' & F1' & F2').
    pose proof (SFleb_refl_r _ _ T) as N.
    pose proof (SFltb_refl_r _ _ T') as N'.
    rewrite S in F1, F2, N. rewrite S' in F1', F2', N'. rewrite E in E'.
    pose proof (first_maximum_unique _ pre (track bestMatch) post pre'
                  (track m) post' E' N N' F1 F2 F1' F2') as Et.
    f_equal. destruct m as [mt ms], bestMatch as [bt bs]. simpl in *.
    congruence.
  - exfalso.
    apply findBestMatchForLogging_None in L. rewrite E in L.
    apply Forall_app in L as [_ L]. apply Forall_cons in L as [L _].
    rewrite <- S in L. unfold jsGt, jsGe in *.
    assert (SFltb (ofZ 0) (decimal 75 100) = true) as Z by (by vm_compute).
    rewrite (SFltb_SFleb_trans _ _ _ Z T) in L. done.
Qed.

End MatcherAgreement.

Lemma findBestMatch_findBestMatchForLogging_witness :
  findBestMatchForLogging StringSimilarity.compareTwoStrings
    (lit "Bobby Pickett") (lit "Monster Mash")
    [unrelatedTrack; monsterMashTrack]
  = Some {| track := monsterMashTrack;
            similarity :=
              combinedSimilarity StringSimilarity.compareTwoStrings
                (clean (lit "Bobby Pickett")) (clean (lit "Monster Mash"))
                monsterMashTrack |}.
Proof.
  refine (findBestMatch_findBestMatchForLogging
            StringSimilarity.compareTwoStrings (lit "Bobby Pickett")
            (lit "Monster Mash") [unrelatedTrack; monsterMashTrack]
            {| track := monsterMashTrack;
               similarity :=
                 combinedSimilarity StringSimilarity.compareTwoStrings
                   (clean (lit "Bobby Pickett")) (clean (lit "Monster Mash"))
                   monsterMashTrack |} _).
  vm_compute. reflexivity.
Defined.

(** ** From a frame to the playlist of its station *)

Section FrameProperties.

Variable compareTwoStrings : list N → list N → number.


End FrameProperties.


(** ** Finding a playlist by its name *)

Lemma find_hasName (name : list N) (playlists : list (option Playlist)) :
  match List.find (hasName name) playlists with
  | Some (Some found) =>
      List.find (fun q => bool_decide (playlist_label q = name))
        (omap id playlists) = Some found
  | _ =>
      List.find (fun q => bool_decide (playlist_label q = name))
        (omap id playlists) = None
  end.
Proof.
  induction playlists as [|[q|] rest IH]; [done| |done].
  cbn [List.find hasName omap list_omap id].
  unfold id at 1. cbn [List.find].
  by destruct (bool_decide (playlist_label q = name)).
Qed.

Lemma findPlaylistFrom_served (api : PlaylistsApi) (name : list N)
    (all : list (option Playlist)) :
  servesPlaylists api all →
  ∀ fuel offset : nat,
    (length (drop offset all) < 50 * fuel)%nat →
    (∀ k : nat,
       sampleThrows (take 50 (drop (offset + 50 * k) all)) = false) →
    findPlaylistFrom fuel api name offset
    = Some (List.find (fun q => bool_decide (playlist_label q = name))
              (omap id (drop offset all))).
Proof.
  intros Hserve. induction fuel as [|fuel IH]; intros offset Hlen Hlog; [lia|].
  cbn [findPlaylistFrom].
  assert (match getUserPlaylists api true offset 50 with
          | RequestRejected => getUserPlaylists api false offset 50
          | answer => answer
          end = PlaylistItems (take 50 (drop offset all))) as ->.
  { destruct (Hserve offset 50%nat) as [->|[-> ->]]; done. }
  pose proof (Hlog 0%nat) as Hpage0.
  rewrite Nat.mul_0_r, Nat.add_0_r in Hpage0. rewrite Hpage0.
  pose proof (find_hasName name (take 50 (drop offset all))) as Hpage.
  rewrite <- (take_drop 50 (drop offset all)) at 2.
  rewrite omap_app, find_app.
  assert (∀ k : nat,
            sampleThrows (take 50 (drop (offset + 50 + 50 * k) all)) = false)
    as Hnext.
  { intros k. replace (offset + 50 + 50 * k)%nat
      with (offset + 50 * S k)%nat by lia. apply Hlog. }
  destruct (List.find (hasName name) (take 50 (drop offset all)))
    as [[found|]|]; rewrite Hpage; [done| |].
  all: destruct (Nat.ltb_spec (length (take 50 (drop offset all))) 50)
         as [Hshort|Hfull]; rewrite length_take in *.
  all: try (rewrite (drop_ge (drop offset all) 50) by lia; done).
  all: rewrite IH by (done || (rewrite <- drop_drop, length_drop; lia)).
  all: by rewrite drop_drop.
Qed.

(** X23.  Finding a playlist by name.  The catalog serves the pages of a
    fixed list of playlists, possibly only to the request without the user
    id.  [findPlaylistByName] comes to its end within one request per fifty
    playlists, and one more.  When none of the first five items of a page
    is null, it returns the first playlist of the list with exactly that
    name, or null when there is none.  When one of the first five items of
    the first page is null, reading its name for the log throws, and the
    search returns null whatever the list holds. *)
Theorem findPlaylistByName_first (fuel : nat) (api : PlaylistsApi)
    (name : list N) (all : list (option Playlist)) :
  servesPlaylists api all →
  (length all < 50 * fuel)%nat →
  ((∀ k : nat, sampleThrows (take 50 (drop (50 * k) all)) = false) →
   findPlaylistByName fuel api name
   = Some (List.find (fun q => bool_decide (playlist_label q = name))
             (omap id all)))
  ∧ (sampleThrows (take 50 all) = true →
     findPlaylistByName fuel api name = Some None).
Proof.
  intros Hserve Hfuel. unfold findPlaylistByName. split.
  - intros Hlog.
    by rewrite (findPlaylistFrom_served api name all Hserve fuel 0),
      drop_0 by (done || by rewrite drop_0).
  - intros Hthrow. destruct fuel as [|fuel]; [lia|].
    cbn [findPlaylistFrom].
    assert (match getUserPlaylists api true 0 50 with
            | RequestRejected => getUserPlaylists api false 0 50
            | answer => answer
            end = PlaylistItems (take 50 all)) as ->.
    { destruct (Hserve 0%nat 50%nat) as [->|[-> ->]]; by rewrite ?drop_0. }
    by rewrite Hthrow.
Qed.

Lemma findPlaylistByName_witness :
  findPlaylistByName 1
    (fallbackApi [Some secondPlaylist; Some mainPlaylist;
                  Some {| playlist_id := lit "0JiVp7Z0pYKI8diUV6HJyQ";
                          playlist_label := lit "Halloween Radio - Main" |};
                  Some secondPlaylist; Some secondPlaylist; None])
    (lit "Halloween Radio - Main")
  = Some (Some mainPlaylist)
  ∧ findPlaylistByName 1
      (fallbackApi [None; Some mainPlaylist])
      (lit "Halloween Radio - Main")
    = Some None.
Proof.
  split.
  - refine (proj1 (findPlaylistByName_first 1 _ (lit "Halloween Radio - Main")
              [Some secondPlaylist; Some mainPlaylist;
               Some {| playlist_id := lit "0JiVp7Z0pYKI8diUV6HJyQ";
                       playlist_label := lit "Halloween Radio - Main" |};
               Some secondPlaylist; Some secondPlaylist; None] _ _) _).
    + intros offset limit. right. split; reflexivity.
    + simpl. lia.
    + intros [|k]; [reflexivity|].
      rewrite drop_ge by (simpl; lia). reflexivity.
  - refine (proj2 (findPlaylistByName_first 1 _ (lit "Halloween Radio - Main")
              [None; Some mainPlaylist] _ _) _).
    + intros offset limit. right. split; reflexivity.
    + simpl. lia.
    + reflexivity.
Defined.

(** ** Migration from the file-based system *)

Lemma addMatchedTracks_results (attempts : list (list N * MatchDetails)) :
  ∀ db : Database,
    let results := fst (addMatchedTracks attempts db) in
    let db' := snd (addMatchedTracks attempts db) in
    length (List.filter (fun result =>
                           match result with
                           | Returned _ => true
                           | Thrown _ => false
                           end) results) = length (returnedIds results)
    ∧ length results = length attempts
    ∧ (length (matched_tracks db')
       = length (matched_tracks db) + length (returnedIds results))%nat
    ∧ unmatched_tracks db' = unmatched_tracks db.
Proof.
  induction attempts as [|[now td] rest IH]; intros db; [done|].
  cbn [addMatchedTracks].
  pose proof (addMatchedTrack_ids now td db) as H. cbv zeta in H.
  assert (unmatched_tracks (snd (addMatchedTrack now td db))
          = unmatched_tracks db) as Hu.
  { unfold addMatchedTrack, insertMatched.
    by destruct (existsb _ (matched_tracks db)). }
  destruct (addMatchedTrack now td db) as [result db1]. cbn [fst snd] in *.
  specialize (IH db1). cbv zeta in IH.
  destruct (addMatchedTracks rest db1) as [results db2]. cbn [fst snd] in *.
  destruct IH as (I1 & I2 & I3 & I4).
  assert (length (matched_tracks db1)
          = length (map m_id (matched_tracks db1))) as L1
    by (by rewrite length_map).
  assert (length (matched_tracks db)
          = length (map m_id (matched_tracks db))) as L0
    by (by rewrite length_map).
  destruct H as [(Em & _ & ->)|(Em & _ & ->)]; rewrite Em in L1;
    cbn [List.filter returnedIds flat_map length app]; rewrite I3, I4, Hu;
    fold (returnedIds results).
  - split_and!; [done|lia|lia|done].
  - rewrite length_app in L1. simpl in L1. split_and!; [lia|lia|lia|done].
Qed.

(** X24.  The number that the migration reports is the number of rows it
    added.  For entries that carry every field, [matched_tracks] gains a row
    for every matched entry whose insertion returned a row id, and
    [unmatched_tracks] a row for every unmatched entry; the number reported
    is the number of those rows.  The insertion of a matched entry whose
    catalog id is on record throws: the entry is passed over and not
    counted. *)
Theorem migrateFromFileData_count
    (matchedTracks : list (list N * MatchDetails))
    (unmatchedTracks : list (list N * UnmatchDetails)) (db : Database) :
  let migrated := migrateFromFileData matchedTracks unmatchedTracks db in
  let results := fst (addMatchedTracks matchedTracks db) in
  fst migrated
  = N.of_nat (length (returnedIds results) + length unmatchedTracks)
  ∧ (length (matched_tracks (snd migrated))
     = length (matched_tracks db) + length (returnedIds results))%nat
  ∧ (length (returnedIds results) ≤ length matchedTracks)%nat
  ∧ (length (unmatched_tracks (snd migrated))
     = length (unmatched_tracks db) + length unmatchedTracks)%nat
  ∧ (∀ (now : list N) (track : MatchDetails)
       (rest : list (list N * MatchDetails)),
       matchedTracks = (now, track) :: rest →
       isTrackAlreadyAdded (sm_id (mt_spotifyMatch track)) db = true →
       migrated = migrateFromFileData rest unmatchedTracks db).
Proof.
  intros migrated results. subst migrated results.
  unfold migrateFromFileData.
  pose proof (addMatchedTracks_results matchedTracks db) as H.
  cbv zeta in H.
  split_and!.
  5:{ intros now track rest -> K. cbn [addMatchedTracks].
      rewrite (addMatchedTrack_duplicate now track db K).
      destruct (addMatchedTracks rest db) as [results db1].
      by cbn [List.filter]. }
  all: destruct (addMatchedTracks matchedTracks db) as [results db1].
  all: cbn [fst snd] in *; destruct H as (H1 & H2 & H3 & H4).
  all: rewrite ?H1.
  all: assert (∀ d : Database,
            matched_tracks
              (foldl (fun db '(now, track) =>
                        snd (addUnmatchedTrack now track db))
                 d unmatchedTracks) = matched_tracks d
            ∧ (length (unmatched_tracks
                 (foldl (fun db '(now, track) =>
                           snd (addUnmatchedTrack now track db))
                    d unmatchedTracks))
               = length (unmatched_tracks d) + length unmatchedTracks)%nat)
    as Hun
    by (clear; induction unmatchedTracks as [|[now track] rest IH]; intros d;
        [simpl; split; [done|lia]
        |cbn [foldl]; destruct (IH (snd (addUnmatchedTrack now track d)))
           as [I1 I2];
         rewrite I1, I2; unfold addUnmatchedTrack; cbn [snd];
         cbn [matched_tracks unmatched_tracks updateDailyStats withStats];
         rewrite length_app; simpl; split; [done|lia]]).
  all: destruct (Hun db1) as [U1 U2]; rewrite ?U1, ?U2, ?H3, ?H4; try done.
  rewrite <- H2. clear. induction results as [|[[i|]|e] rest IH]; simpl; lia.
Qed.

Lemma migrateFromFileData_witness :
  migrateFromFileData
    [(halloween, monsterMash (lit "Main"));
     (halloween, monsterMash (lit "Movies"))] []
    (snd (addMatchedTrack halloween (monsterMash (lit "Main")) emptyDatabase))
  = migrateFromFileData [(halloween, monsterMash (lit "Movies"))] []
      (snd (addMatchedTrack halloween (monsterMash (lit "Main"))
              emptyDatabase)).
Proof.
  refine (proj2 (proj2 (proj2 (proj2
    (migrateFromFileData_count
       [(halloween, monsterMash (lit "Main"));
        (halloween, monsterMash (lit "Movies"))] []
       (snd (addMatchedTrack halloween (monsterMash (lit "Main"))
               emptyDatabase))))))
    halloween (monsterMash (lit "Main"))
    [(halloween, monsterMash (lit "Movies"))] _ _); reflexivity.
Defined.

(** ** Every call is counted *)

Lemma updateDailyStats_counted (now s : list N) (type : StatType)
    (p : option Z) (db0 db : Database) :
  stats db = stats db0 →
  let d := isoDate now in
  tracks_processed (currentStats d s (updateDailyStats now s type p db))
  = tracks_processed (currentStats d s db0) + 1
  ∧ tracks_added (currentStats d s (updateDailyStats now s type p db))
    = tracks_added (currentStats d s db0) + bump type matched.
Proof.
  intros E d.
  pose proof (updateDailyStats_step now s type p db) as H. cbv zeta in H.
  destruct H as (_ & H1 & _ & H3 & _).
  assert (currentStats (isoDate now) s db = currentStats (isoDate now) s db0)
    as Ec by (unfold currentStats; by rewrite E).
  rewrite Ec in H1, H3. by split.
Qed.

Section CountingProperties.

Variable compareTwoStrings : list N → list N → number.

Lemma logUnmatchedTrack_counted (now s : list N) (metadata : ParsedTrack)
    (why : list N) (searchResults : list Track) (best : option Match)
    (db : Database) :
  let d := isoDate now in
  let db' :=
    logUnmatchedTrack compareTwoStrings now s metadata why searchResults
      best db in
  (tracks_processed (currentStats d s db')
   = tracks_processed (currentStats d s db) + 1
   ∧ tracks_added (currentStats d s db') = tracks_added (currentStats d s db))
  ∨ (db' = db ∧ shouldSkip metadata = true).
Proof.
  intros d db'. subst d db'. unfold logUnmatchedTrack.
  destruct (shouldSkip metadata); [by right|]. left.
  unfold addUnmatchedTrack. cbn [snd um_station].
  match goal with
  | |- context [updateDailyStats now s unmatched None ?x] =>
      destruct (updateDailyStats_counted now s unmatched None db x eq_refl)
        as [H1 H2]
  end.
  rewrite H1, H2. split; [done|]. unfold bump. simpl. lia.
Qed.

Lemma searchAndAddTrack_counted_cases (api : SpotifyApi)
    (now stationName radioArtist radioTitle : list N) (metadata : Metadata)
    (svc : Service) :
  let result :=
    searchAndAddTrack compareTwoStrings api now stationName radioArtist
      radioTitle metadata svc in
  let d := isoDate now in
  let before := currentStats d stationName (database svc) in
  let after := currentStats d stationName (database (snd result)) in
  (tracks_processed after = tracks_processed before + 1
   ∧ tracks_added after
     = tracks_added before + (if fst result then 1 else 0))
  ∨ (fst result = false
     ∧ database (snd result) = database svc
     ∧ (shouldSkip (md_track metadata) = true
        ∨ playlists svc !! toLowerCase stationName = None)).
Proof.
  intros result d before after. subst result d before after.
  unfold searchAndAddTrack.
  destruct (firstResults api (searchQueries radioArtist radioTitle))
    as [|t ts].
  { cbn [fst snd withDatabase database].
    destruct (logUnmatchedTrack_counted now stationName (md_track metadata)
                (lit "No search results") [] None (database svc))
      as [[H1 H2]|[H1 H2]]; cbv zeta in *.
    - left. rewrite H1, H2. split; [done|lia].
    - right. rewrite H1. by split_and!; [| |left]. }
  destruct (findBestMatch compareTwoStrings radioArtist radioTitle (t :: ts))
    as [bestMatch|].
  2:{ cbn [fst snd withDatabase database].
      match goal with
      | |- context [logUnmatchedTrack _ _ _ _ ?w ?r ?b _] =>
          destruct (logUnmatchedTrack_counted now stationName
                      (md_track metadata) w r b (database svc))
            as [[H1 H2]|[H1 H2]]; cbv zeta in *
      end.
      - left. rewrite H1, H2. split; [done|lia].
      - right. rewrite H1. by split_and!; [| |left]. }
  destruct (isTrackAlreadyAdded (track_id (track bestMatch)) (database svc))
    eqn:Ek.
  { cbn [fst snd withDatabase database]. left.
    destruct (updateDailyStats_counted now stationName duplicate None
                (database svc) (database svc) eq_refl) as [H1 H2].
    rewrite H1, H2. split; [done|]. unfold bump. simpl. lia. }
  destruct (playlists svc !! toLowerCase stationName) as [playlist|];
    [|right; by split_and!; [| |right]].
  destruct (addTracksToPlaylist api (playlist_id playlist) _) as [message|].
  { cbn [fst snd withDatabase database].
    match goal with
    | |- context [logUnmatchedTrack _ _ _ _ ?w ?r ?b _] =>
        destruct (logUnmatchedTrack_counted now stationName
                    (md_track metadata) w r b (database svc))
          as [[H1 H2]|[H1 H2]]; cbv zeta in *
    end.
    - left. rewrite H1, H2. split; [done|lia].
    - right. rewrite H1. by split_and!; [| |left]. }
  unfold addMatchedTrack, insertMatched.
  cbn [mt_spotifyMatch sm_id]. unfold isTrackAlreadyAdded in Ek. rewrite Ek.
  cbn [fst snd withDatabase database mt_station mt_percentage]. left.
  match goal with
  | |- context [updateDailyStats now stationName matched ?p ?x] =>
      destruct (updateDailyStats_counted now stationName matched p
                  (database svc) x eq_refl) as [H1 H2]
  end.
  rewrite H1, H2. split; [done|]. unfold bump. simpl. lia.
Qed.

(** X25.  Every call of the pipeline is counted once.  A call raises
    [tracks_processed] of the day and the station by one, and [tracks_added]
    by one exactly when it returns true; unless it returns false and leaves
    the database as it is, which happens only when the announcement matches
    a skip pattern or the station has no playlist. *)
Theorem searchAndAddTrack_counted (api : SpotifyApi)
    (now stationName radioArtist radioTitle : list N) (metadata : Metadata)
    (svc : Service) :
  let result :=
    searchAndAddTrack compareTwoStrings api now stationName radioArtist
      radioTitle metadata svc in
  let d := isoDate now in
  let before := currentStats d stationName (database svc) in
  let after := currentStats d stationName (database (snd result)) in
  (tracks_processed after = tracks_processed before + 1
   ∧ tracks_added after
     = tracks_added before + (if fst result then 1 else 0))
  ∨ (fst result = false
     ∧ database (snd result) = database svc
     ∧ (shouldSkip (md_track metadata) = true
        ∨ playlists svc !! toLowerCase stationName = None)).
Proof.
  exact (searchAndAddTrack_counted_cases api now stationName radioArtist
           radioTitle metadata svc).
Qed.


End CountingProperties.


(** ** Removing the duplicates of a playlist *)

Lemma markPage_app (l1 l2 : list PlaylistItem) :
  ∀ (position : nat) (st : RemoveDuplicates.Scan),
    RemoveDuplicates.markPage position (l1 ++ l2) st
    = RemoveDuplicates.markPage (position + length l1) l2
        (RemoveDuplicates.markPage position l1 st).
Proof.
  induction l1 as [|item l1 IH]; intros position st; simpl.
  - by rewrite Nat.add_0_r.
  - rewrite IH. f_equal. lia.
Qed.

Lemma markPage_positions (items : list PlaylistItem) :
  ∀ (position : nat) (st : RemoveDuplicates.Scan),
    RemoveDuplicates.duplicatePositions
      (RemoveDuplicates.markPage position items st)
    = RemoveDuplicates.duplicatePositions st
      ++ repeatedPositions position (RemoveDuplicates.seenTracks st) items.
Proof.
  induction items as [|item rest IH]; intros position st.
  - by rewrite app_nil_r.
  - cbn [RemoveDuplicates.markPage repeatedPositions]. rewrite IH.
    unfold RemoveDuplicates.markItem, itemId.
    destruct (item_track item) as [t|]; [|done].
    destruct (isEmpty (track_id t)); [done|].
    destruct (bool_decide (track_id t ∈ RemoveDuplicates.seenTracks st));
      cbn [RemoveDuplicates.duplicatePositions RemoveDuplicates.seenTracks];
      [|done].
    by rewrite <- app_assoc.
Qed.

Lemma removeAt_repeatedPositions (items : list PlaylistItem) :
  ∀ (prefix : list PlaylistItem) (seen : gset (list N)),
    removeAt (prefix ++ items)
      (reverse (repeatedPositions (length prefix) seen items))
    = prefix ++ withoutRepeats seen items.
Proof.
  unfold removeAt.
  induction items as [|item rest IH]; intros prefix seen; [done|].
  cbn [repeatedPositions withoutRepeats].
  assert (S (length prefix) = length (prefix ++ [item])) as El
    by (rewrite length_app; simpl; lia).
  rewrite (cons_middle item prefix rest), app_assoc, El.
  destruct (itemId item) as [id|].
  - destruct (bool_decide (id ∈ seen)).
    + rewrite reverse_cons, foldl_snoc, IH, <- app_assoc. simpl.
      by rewrite delete_middle.
    + rewrite IH, <- app_assoc. done.
  - rewrite IH, <- app_assoc. done.
Qed.

Lemma trackIds_withoutRepeats (items : list PlaylistItem) :
  ∀ (ids : list (list N)) (seen : gset (list N)),
    (∀ id : list N, id ∈ seen ↔ id ∈ ids) →
    firstOccurrences (ids ++ trackIds items)
    = firstOccurrences ids ++ trackIds (withoutRepeats seen items).
Proof.
  induction items as [|item rest IH]; intros ids seen Hseen.
  - by rewrite !app_nil_r.
  - unfold trackIds. cbn [withoutRepeats omap list_omap].
    fold (trackIds rest).
    destruct (itemId item) as [id|] eqn:Ei.
    + rewrite (cons_middle id ids), app_assoc.
      destruct (bool_decide_reflect (id ∈ seen)) as [Hin|Hin].
      * rewrite (IH (ids ++ [id]) seen).
        -- rewrite firstOccurrences_snoc, decide_True; [done|]. by apply Hseen.
        -- intros x. rewrite Hseen, elem_of_app, list_elem_of_singleton.
           split; [by left|]. intros [?| ->]; [done|]. by apply Hseen.
      * rewrite (IH (ids ++ [id]) ({[ id ]} ∪ seen)).
        -- rewrite firstOccurrences_snoc, decide_False.
           ++ cbn [omap list_omap]. rewrite Ei. fold (trackIds
                (withoutRepeats ({[ id ]} ∪ seen) rest)).
              by rewrite <- app_assoc.
           ++ intros Hin'. by apply Hseen in Hin'.
        -- intros x. rewrite elem_of_union, elem_of_singleton, Hseen,
             elem_of_app, list_elem_of_singleton. tauto.
    + cbn [omap list_omap]. rewrite Ei. by apply IH.
Qed.

Lemma removePositions_accepted (api : PlaylistApi) (playlistId : list N)
    (positions : list nat) :
  (∀ request : PlaylistRequest, accepted api request = true) →
  RemoveDuplicates.removePositions api playlistId positions
  = (N.of_nat (length positions),
     map (fun position => RemoveTracksFromPlaylist playlistId [position])
       positions).
Proof.
  intros Hacc. induction positions as [|p rest IH]; [done|].
  cbn [RemoveDuplicates.removePositions]. rewrite IH, Hacc.
  cbn [length map]. f_equal. lia.
Qed.

(** X26.  Removing the duplicates of a playlist by position.  When the
    catalog serves the pages of a fixed list of items and accepts the
    requests, [removeDuplicatesFromPlaylist] comes to its end, asks for the
    removal of the positions at which a track id is repeated, one request
    each, in the reverse of the order of the playlist, and returns their
    number.  Removing the items at these positions in this order leaves as
    track ids the first occurrence of every track id, in the order of the
    playlist, and removes one item per request. *)
Theorem removeDuplicatesFromPlaylist_positions (fuel : nat)
    (api : PlaylistApi) (playlistId : list N) (items : list PlaylistItem) :
  servesItems api playlistId items →
  (∀ request : PlaylistRequest, accepted api request = true) →
  (length items < 100 * fuel)%nat →
  let positions := reverse (repeatedPositions 0 ∅ items) in
  RemoveDuplicates.removeDuplicatesFromPlaylist fuel api playlistId
  = Complete (N.of_nat (length positions),
              map (fun position =>
                     RemoveTracksFromPlaylist playlistId [position])
                positions)
  ∧ trackIds (removeAt items positions) = firstOccurrences (trackIds items)
  ∧ (length (removeAt items positions) + length positions = length items)%nat.
Proof.
  intros Hserve Hacc Hfuel positions.
  pose proof (removeAt_repeatedPositions items [] ∅) as Hrem.
  cbn [length app] in Hrem. fold positions in Hrem.
  pose proof (trackIds_withoutRepeats items [] ∅) as Hids.
  rewrite !app_nil_l in Hids.
  split_and!.
  - unfold RemoveDuplicates.removeDuplicatesFromPlaylist.
    rewrite (eachPage_servesItems api playlistId items
               RemoveDuplicates.markPage Hserve markPage_app fuel 0)
      by (by rewrite drop_0).
    rewrite drop_0, markPage_positions.
    cbn [RemoveDuplicates.duplicatePositions RemoveDuplicates.seenTracks app].
    subst positions.
    destruct (repeatedPositions 0 ∅ items) as [|p ps] eqn:Ep; [done|].
    by rewrite <- (removePositions_accepted api playlistId _ Hacc).
  - rewrite Hrem, Hids; [done|].
    intros id. by rewrite elem_of_empty, elem_of_nil.
  - rewrite Hrem. subst positions. rewrite length_reverse. clear.
    generalize 0%nat (∅ : gset (list N)).
    induction items as [|item rest IH]; intros pos seen; [done|].
    cbn [repeatedPositions withoutRepeats].
    destruct (itemId item) as [id|]; [destruct (bool_decide (id ∈ seen))|];
      cbn [length].
    + rewrite <- (IH (S pos) seen). lia.
    + rewrite <- (IH (S pos) ({[ id ]} ∪ seen)). lia.
    + rewrite <- (IH (S pos) seen). lia.
Qed.

Lemma removeDuplicatesFromPlaylist_witness :
  RemoveDuplicates.removeDuplicatesFromPlaylist 1
    (servingApi twiceMonsterMash true) (playlist_id mainPlaylist)
  = Complete (1, [RemoveTracksFromPlaylist (playlist_id mainPlaylist) [3%nat]])
  ∧ trackIds (removeAt twiceMonsterMash [3%nat])
    = [track_id monsterMashTrack; track_id unrelatedTrack].
Proof.
  split.
  - refine (eq_trans
              (proj1 (removeDuplicatesFromPlaylist_positions 1
                        (servingApi twiceMonsterMash true)
                        (playlist_id mainPlaylist) twiceMonsterMash _ _ _)) _).
    + intros offset limit. reflexivity.
    + intros request. by destruct request.
    + simpl. lia.
    + vm_compute. reflexivity.
  - refine (eq_trans _
              (eq_trans
                 (proj1 (proj2 (removeDuplicatesFromPlaylist_positions 1
                                  (servingApi twiceMonsterMash true)
                                  (playlist_id mainPlaylist)
                                  twiceMonsterMash _ _ _))) _)).
    + vm_compute. reflexivity.
    + intros offset limit. reflexivity.
    + intros request. by destruct request.
    + simpl. lia.
    + vm_compute. reflexivity.
Defined.
